(** * ConfigurationCollector: the session harvesting engine of [main.go]

    A shallow embedding of the collector's job producer, vendor tables,
    retry controller, single-job executor and read loops, followed by the
    properties of the specification that were settled against it.

    Conventions of the embedding:
    - a Go [string] is a sequence of bytes: Rocq's [string] of [ascii];
    - a Go [int] and a [time.Duration] are 64-bit: [Z] with [wrap64]
      written at every arithmetic operation that can overflow;
    - the wall clock is a [Z] counting nanoseconds;
    - an [error] is a tree: library sentinels, opaque library errors, and
      [fmt.Errorf] calls kept as their format string and operands;
    - I/O is explicit state passing over a [World]: a clock, the instant
      at which the context is cancelled, the peer's scripted answers to
      [Read], the outcome of every [Write], and the trace of what the
      program did. *)

From Stdlib Require Import ZArith List String Ascii Bool Lia.
From Stdlib Require Import DecimalString.
Import ListNotations.

Local Open Scope string_scope.
Local Open Scope Z_scope.

(** ** Machine integers and durations *)

Module Int64.

Definition modulus : Z := 2 ^ 64.
Definition max_int : Z := 2 ^ 63 - 1.
Definition min_int : Z := - 2 ^ 63.

(** Two's complement wrap-around of Go's signed 64-bit arithmetic. *)
Definition wrap64 (z : Z) : Z := (z + 2 ^ 63) mod 2 ^ 64 - 2 ^ 63.

Definition in_range (z : Z) : Prop := min_int <= z <= max_int.

Definition add (a b : Z) : Z := wrap64 (a + b).
Definition mul (a b : Z) : Z := wrap64 (a * b).

End Int64.

Module GoTime.

Definition Nanosecond : Z := 1.
Definition Millisecond : Z := 1000000.
Definition Second : Z := 1000000000.

End GoTime.

(** ** Byte strings: the parts of Go's [strings] package the program uses *)

Module Strings.

Definition isByteASCII (c : ascii) : bool :=
  let 'Ascii _ _ _ _ _ _ _ b7 := c in negb b7.

Fixpoint isASCII (s : string) : bool :=
  match s with
  | EmptyString => true
  | String c r => isByteASCII c && isASCII r
  end.

Fixpoint mapBytes (f : ascii -> ascii) (s : string) : string :=
  match s with
  | EmptyString => EmptyString
  | String c r => String (f c) (mapBytes f r)
  end.

Fixpoint reverse (s : string) : string :=
  match s with
  | EmptyString => EmptyString
  | String c r => reverse r ++ String c EmptyString
  end.

(** [strings.HasPrefix]. *)
Fixpoint HasPrefix (s p : string) {struct p} : bool :=
  match p, s with
  | EmptyString, _ => true
  | String _ _, EmptyString => false
  | String a p', String b s' => Ascii.eqb a b && HasPrefix s' p'
  end.

(** [strings.Contains s sub]: [sub] occurs at some offset of [s]. *)
Fixpoint Contains (s sub : string) : bool :=
  HasPrefix s sub ||
  match s with
  | EmptyString => false
  | String _ r => Contains r sub
  end.

(** [strings.ReplaceAll s old new] for one-byte [old] and [new], the only
    way the program calls it: every byte equal to [old] becomes [new]. *)
Definition ReplaceAllByte (s : string) (old new : ascii) : string :=
  mapBytes (fun c => if Ascii.eqb c old then new else c) s.

(** The table [asciiSpace] of package [strings]. *)
Definition asciiSpace (c : ascii) : bool :=
  match c with
  | "009"%char | "010"%char | "011"%char | "012"%char | "013"%char
  | " "%char => true
  | _ => false
  end.

Definition lowerByte (c : ascii) : ascii :=
  let n := N_of_ascii c in
  if ((65 <=? n) && (n <=? 90))%N then ascii_of_N (n + 32) else c.

Definition upperByte (c : ascii) : ascii :=
  let n := N_of_ascii c in
  if ((97 <=? n) && (n <=? 122))%N then ascii_of_N (n - 32) else c.

(** *** UTF-8, as packages [unicode/utf8] and [strings] read and write it *)

Definition byteVal (c : ascii) : Z := Z.of_N (N_of_ascii c).
Definition byteOf (z : Z) : ascii := ascii_of_N (Z.to_N z).

Definition byteIn (lo hi : Z) (c : ascii) : bool :=
  (lo <=? byteVal c) && (byteVal c <=? hi).

(** [utf8.RuneError], U+FFFD, and [utf8.MaxRune], U+10FFFF. *)
Definition RuneError : Z := 65533.
Definition MaxRune : Z := 1114111.

(** The second byte that may follow the first byte [b0] of a three-byte
    and of a four-byte sequence (table [acceptRanges] of package
    [utf8]). *)
Definition second3 (b0 b1 : ascii) : bool :=
  if byteIn 224 224 b0 then byteIn 160 191 b1
  else if byteIn 237 237 b0 then byteIn 128 159 b1
  else byteIn 128 191 b1.

Definition second4 (b0 b1 : ascii) : bool :=
  if byteIn 240 240 b0 then byteIn 144 191 b1
  else if byteIn 244 244 b0 then byteIn 128 143 b1
  else byteIn 128 191 b1.

(** The characters of a string as [for _, c := range s] yields them: a
    byte that does not start a well-formed sequence is read on its own
    as [RuneError]. *)
Fixpoint runes (s : string) : list Z :=
  match s with
  | EmptyString => []
  | String b0 r0 =>
      if isByteASCII b0 then byteVal b0 :: runes r0
      else
        match r0 with
        | EmptyString => RuneError :: runes r0
        | String b1 r1 =>
            if byteIn 194 223 b0 then
              if byteIn 128 191 b1
              then (byteVal b0 mod 32 * 64 + byteVal b1 mod 64) :: runes r1
              else RuneError :: runes r0
            else if byteIn 224 239 b0 then
              match r1 with
              | String b2 r2 =>
                  if second3 b0 b1 && byteIn 128 191 b2
                  then (byteVal b0 mod 16 * 4096 + byteVal b1 mod 64 * 64
                        + byteVal b2 mod 64) :: runes r2
                  else RuneError :: runes r0
              | EmptyString => RuneError :: runes r0
              end
            else if byteIn 240 244 b0 then
              match r1 with
              | String b2 (String b3 r3) =>
                  if second4 b0 b1 && byteIn 128 191 b2 && byteIn 128 191 b3
                  then (byteVal b0 mod 8 * 262144 + byteVal b1 mod 64 * 4096
                        + byteVal b2 mod 64 * 64 + byteVal b3 mod 64) :: runes r3
                  else RuneError :: runes r0
              | _ => RuneError :: runes r0
              end
            else RuneError :: runes r0
        end
  end.

(** [utf8.EncodeRune]: surrogates and values outside the range of
    Unicode are written as [RuneError]. *)
Definition encode3 (r : Z) : string :=
  String (byteOf (224 + r / 4096))
    (String (byteOf (128 + r / 64 mod 64)) (String (byteOf (128 + r mod 64)) EmptyString)).

Definition EncodeRune (r : Z) : string :=
  if (0 <=? r) && (r <=? 127) then String (byteOf r) EmptyString
  else if (0 <=? r) && (r <=? 2047) then
    String (byteOf (192 + r / 64)) (String (byteOf (128 + r mod 64)) EmptyString)
  else if (r <? 0) || (MaxRune <? r) || ((55296 <=? r) && (r <=? 57343)) then
    encode3 RuneError
  else if r <=? 65535 then encode3 r
  else
    String (byteOf (240 + r / 262144))
      (String (byteOf (128 + r / 4096 mod 64))
         (String (byteOf (128 + r / 64 mod 64))
            (String (byteOf (128 + r mod 64)) EmptyString))).

Fixpoint writeRunes (rs : list Z) : string :=
  match rs with
  | [] => EmptyString
  | r :: rest => (if r <? 0 then EmptyString else EncodeRune r) ++ writeRunes rest
  end.

(** [strings.Map mapping s]: every character of [s] replaced by its
    image and written in UTF-8; a negative image drops the character. *)
Definition Map (mapping : Z -> Z) (s : string) : string :=
  writeRunes (map mapping (runes s)).

(** The case and space tables of package [unicode] for characters above
    ASCII are parameters of the development; what Go does with ASCII
    characters, and how it reads and writes UTF-8, is modelled in
    full. *)
Class Unicode := {
  (** [unicode.To(unicode.LowerCase, r)] for [r] above [unicode.MaxASCII] *)
  lowerAboveASCII : Z -> Z;
  (** [strings.TrimFunc(s, unicode.IsSpace)] *)
  trimFuncIsSpace : string -> string;
  (** [strings.TrimRightFunc(s, unicode.IsSpace)] *)
  trimRightFuncIsSpace : string -> string
}.

Section WithUnicode.
Context {U : Unicode}.

(** [unicode.ToLower]. *)
Definition unicode_ToLower (r : Z) : Z :=
  if r <=? 127 then
    if (65 <=? r) && (r <=? 90) then r + 32 else r
  else lowerAboveASCII r.

(** [strings.ToLower]: byte-wise on ASCII-only strings,
    [Map(unicode.ToLower, s)] otherwise. *)
Definition ToLower (s : string) : string :=
  if isASCII s then mapBytes lowerByte s else Map unicode_ToLower s.

(** Second loop of [strings.TrimSpace], run on the reversed remainder:
    [r] is [s[start:stop]] read from its end. *)
Fixpoint trimSpaceStop (r : string) : string :=
  match r with
  | EmptyString => EmptyString
  | String c r' =>
      if negb (isByteASCII c) then trimRightFuncIsSpace (reverse r)
      else if asciiSpace c then trimSpaceStop r'
      else reverse r
  end.

(** [strings.TrimSpace]: the first loop looks for the first ASCII
    non-space byte and hands over to the Unicode path at the first
    non-ASCII byte. *)
Fixpoint TrimSpace (s : string) : string :=
  match s with
  | EmptyString => EmptyString
  | String c r =>
      if negb (isByteASCII c) then trimFuncIsSpace s
      else if asciiSpace c then TrimSpace r
      else trimSpaceStop (reverse s)
  end.

End WithUnicode.

(** An instance for runs in which no character above ASCII has another
    case, and in which the slow paths of [TrimSpace] are never
    reached. *)
Definition asciiOnly : Unicode :=
  {| lowerAboveASCII := fun r => r;
     trimFuncIsSpace := fun s => s;
     trimRightFuncIsSpace := fun s => s |}.

(** [strings.Join]. *)
Fixpoint Join (elems : list string) (sep : string) : string :=
  match elems with
  | [] => EmptyString
  | [x] => x
  | x :: rest => x ++ sep ++ Join rest sep
  end.

(** [%d] of an [int]. *)
Definition Itoa (z : Z) : string := NilZero.string_of_int (Z.to_int z).

End Strings.

Export Strings.

(** What the program takes from its platform: the environment variables,
    the local time zone and the RFC 3339 rendering of an instant. *)
Class Platform := {
  Getenv : string -> string;
  zoneOffset : Z;
  formatRFC3339 : Z -> string
}.

(** ** Errors *)

(** Go's [error] values as the program builds and inspects them.
    [fmt_Errorf] keeps the format string and the operands of the call;
    the operand of [%w] is an [ArgErr] (or [ArgNil] for a nil error). *)
Inductive error : Type :=
| ctx_Canceled
| io_EOF
| net_Timeout
| lib_error (msg : string)
| fmt_Errorf (format : string) (args : list fmt_arg)
with fmt_arg : Type :=
| ArgInt (z : Z)
| ArgStr (s : string)
| ArgErr (e : error)
| ArgNil.

(** [err == io.EOF] *)
Definition isEOF (e : error) : bool :=
  match e with io_EOF => true | _ => false end.

(** [netErr, ok := err.(net.Error); ok && netErr.Timeout()] *)
Definition isNetTimeout (e : error) : bool :=
  match e with net_Timeout => true | _ => false end.


(** ** The world the program runs in *)

(** One answer of the peer to a [Read]: the bytes delivered ([n] is their
    number), the error returned with them, and how long the call took. *)
Record ReadEv : Type := mkReadEv {
  rdata : string;
  rerr : option error;
  rtook : Z
}.

(** Outcomes of the steps that establish a session. *)
Record Setup : Type := mkSetup {
  dialErr : option error;
  handshakeErr : option error;
  newSessionErr : option error;
  requestPtyErr : option error;
  stdinPipeErr : option error;
  stdoutPipeErr : option error;
  shellErr : option error
}.

(** Outcomes of the file system calls of [writeAtomic]. *)
Record FsOutcome : Type := mkFsOutcome {
  createTempErr : option error;
  tmpWriteErr : option error;
  tmpCloseErr : option error;
  chmodErr : option error;
  renameErr : option error
}.

Inductive Level : Type := LevelInfo | LevelWarn | LevelError.

Inductive LogVal : Type :=
| VStr (s : string)
| VInt (z : Z)
| VDur (d : Z)
| VErr (e : error)
| VStrs (l : list string).

(** What the program does to the outside, in order. *)
Inductive Event : Type :=
| EvLog (lvl : Level) (msg : string) (attrs : list (string * LogVal))
| EvSleep (d : Z)
| EvDial (proto addr : string)
| EvHandshake (addr : string)
| EvSend (data : string) (res : option error)
| EvRecv (ev : ReadEv)
| EvClose (what : string)
| EvCreateTemp (target : string)
| EvRemoveTemp (target : string)
| EvRename (target data : string).

Record World : Type := mkWorld {
  now : Z;
  cancelAt : option Z;
  inbound : list ReadEv;
  writeOutcome : nat -> option error;
  writeCount : nat;
  setup : Setup;
  fsOutcome : FsOutcome;
  trace : list Event
}.

(** [select { case <-ctx.Done(): ...; default: }] takes the first branch
    once the cancellation instant has been reached. *)
Definition isDone (w : World) : bool :=
  match cancelAt w with
  | Some t => t <=? now w
  | None => false
  end.

(** ** A state monad over the world

    [None] is a run that yields no result: a [Read] for which the peer's
    script holds no answer (on a reader without read deadline the call
    blocks for good), or a retry loop still going after the number of
    passes the model follows. *)

Definition M (A : Type) : Type := World -> option (A * World).

Definition ret {A} (a : A) : M A := fun w => Some (a, w).

Definition bind {A B} (m : M A) (k : A -> M B) : M B :=
  fun w => match m w with
           | Some (a, w') => k a w'
           | None => None
           end.

Declare Scope go_scope.
Delimit Scope go_scope with go.
Notation "x <- m ;; k" := (bind m (fun x => k))
  (at level 61, m at next level, right associativity) : go_scope.
Notation "m ;;; k" := (bind m (fun _ => k))
  (at level 61, right associativity) : go_scope.
Local Open Scope go_scope.

Definition emit (e : Event) : M unit :=
  fun w => Some (tt, mkWorld (now w) (cancelAt w) (inbound w) (writeOutcome w)
                             (writeCount w) (setup w) (fsOutcome w) (trace w ++ [e])).

Definition ctxDone : M bool := fun w => Some (isDone w, w).

Definition timeNow : M Z := fun w => Some (now w, w).

(** [time.Sleep d]: returns at once when [d <= 0]. *)
Definition timeSleep (d : Z) : M unit :=
  fun w => Some (tt, mkWorld (now w + Z.max 0 d) (cancelAt w) (inbound w) (writeOutcome w)
                             (writeCount w) (setup w) (fsOutcome w) (trace w ++ [EvSleep d])).

Definition slog (lvl : Level) (msg : string) (attrs : list (string * LogVal)) : M unit :=
  emit (EvLog lvl msg attrs).

(** [conn.Write] / [stdin.Write]: the outcome of the k-th write of the
    run is [writeOutcome k]. *)
Definition connWrite (data : string) : M (option error) :=
  fun w =>
    let r := writeOutcome w (writeCount w) in
    Some (r, mkWorld (now w) (cancelAt w) (inbound w) (writeOutcome w)
                     (S (writeCount w)) (setup w) (fsOutcome w)
                     (trace w ++ [EvSend data r])).

(** [Read]: the next answer of the peer; with no answer left the call
    does not return. *)
Definition connRead : M (string * option error) :=
  fun w =>
    match inbound w with
    | [] => None
    | ev :: rest =>
        Some ((rdata ev, rerr ev),
              mkWorld (now w + Z.max 0 (rtook ev)) (cancelAt w) rest (writeOutcome w)
                      (writeCount w) (setup w) (fsOutcome w)
                      (trace w ++ [EvRecv ev]))
    end.

Definition getSetup : M Setup := fun w => Some (setup w, w).
Definition getFs : M FsOutcome := fun w => Some (fsOutcome w, w).

(** ** Data model *)

Record SSHLegacy : Type := mkSSHLegacy {
  Enabled : bool;
  KexAlgorithms : list string;
  Ciphers : list string;
  MACs : list string;
  HostKeyAlgorithms : list string
}.

Record Asset : Type := mkAsset {
  Asset_Name : string;
  Asset_Address : string;
  Asset_Port : Z;
  Asset_Protocol : string;
  Asset_Username : string;
  Asset_Password : string;
  Asset_PasswordEnv : string;
  Asset_Active : option bool
}.

Record Group : Type := mkGroup {
  Group_Vendor : string;
  Group_Username : string;
  Group_Password : string;
  Group_PasswordEnv : string;
  Group_Assets : list Asset
}.

Record Config : Type := mkConfig {
  BaseDir : string;
  TimeoutSeconds : Z;
  Concurrency : Z;
  MaxRetries : Z;
  KnownHostsFile : string;
  Config_SSHLegacy : option SSHLegacy;
  Groups : list Group
}.

(** [Logger] is left out: logging goes to the trace of the world. *)
Record Job : Type := mkJob {
  Job_Vendor : string;
  Job_Username : string;
  Job_Password : string;
  Job_Asset : Asset;
  Job_Protocol : string;
  Job_Timeout : Z;
  Job_BaseDir : string;
  Job_SSHLegacy : option SSHLegacy
}.

(** ** Vendor command profile *)

Definition huaweiCommands : list string :=
  [ "screen-length 0 temporary"; "display version"; "display license";
    "display current-configuration"; "display interface brief";
    "display interface description"; "display interface transceiver";
    "display eth-trunk brief"; "display bgp peer"; "display ospf peer";
    "display isis peer" ].

Definition zteCommands : list string :=
  [ "terminal length 0"; "show version"; "show license";
    "show running-config"; "show interface brief";
    "show interface description"; "show interface transceiver";
    "show port-channel brief"; "show bgp summary"; "show ospf neighbor";
    "show isis neighbor" ].

Definition commandsForVendor (vendor : string) : list string * option error :=
  if String.eqb vendor "huawei" then (huaweiCommands, None)
  else if String.eqb vendor "zte" then (zteCommands, None)
  else ([], Some (fmt_Errorf "vendor desconhecido: %q (use huawei/zte)" [ArgStr vendor])).

Definition promptsForVendor (vendor : string) : list string :=
  if String.eqb vendor "huawei" then ["<"; ">"; "]"]
  else if String.eqb vendor "zte" then ["#"; ">"]
  else [">"; "#"; "$"].

(** ** File names and paths *)

Section Sanitize.
Context {U : Unicode}.

Definition sanitize (s : string) : string :=
  let s := TrimSpace s in
  let s := ReplaceAllByte s ":" "_" in
  let s := ReplaceAllByte s "/" "_" in
  let s := ReplaceAllByte s "\" "_" in
  let s := ReplaceAllByte s " " "_" in
  s.

End Sanitize.

Definition digitChar (d : nat) : ascii :=
  match d with
  | 0%nat => "0" | 1%nat => "1" | 2%nat => "2" | 3%nat => "3" | 4%nat => "4"
  | 5%nat => "5" | 6%nat => "6" | 7%nat => "7" | 8%nat => "8" | _ => "9"
  end%char.

Definition twoDigits (n : Z) : string :=
  String (digitChar (Z.to_nat (n / 10)))
         (String (digitChar (Z.to_nat (n mod 10))) EmptyString).

(** [t.Format("150405")]: hour, minute and second of the local time. *)
Definition formatHHMMSS {P : Platform} (t : Z) : string :=
  let secs := t / GoTime.Second + zoneOffset in
  twoDigits ((secs / 3600) mod 24) ++ twoDigits ((secs / 60) mod 60)
    ++ twoDigits (secs mod 60).

(** Package [path/filepath] with ['/'] as the separator. *)
Module filepath.

Fixpoint splitSlash (s : string) : list string :=
  match s with
  | EmptyString => [EmptyString]
  | String c r =>
      if Ascii.eqb c "/" then EmptyString :: splitSlash r
      else match splitSlash r with
           | h :: t => String c h :: t
           | [] => [String c EmptyString]
           end
  end.

Definition rooted (p : string) : bool := HasPrefix p "/".

(** One element of the path against the elements kept so far: Clean's
    rules for empty elements, ["."] and [".."]. *)
Definition cleanStep (isRooted : bool) (kept : list string) (c : string) : list string :=
  if String.eqb c "" || String.eqb c "." then kept
  else if String.eqb c ".." then
    match rev kept with
    | [] => if isRooted then kept else kept ++ [c]
    | top :: _ => if String.eqb top ".." then kept ++ [c] else removelast kept
    end
  else kept ++ [c].

Definition pathElems (p : string) : list string :=
  fold_left (cleanStep (rooted p)) (splitSlash p) [].

Definition renderPath (isRooted : bool) (elems : list string) : string :=
  if isRooted then "/" ++ Strings.Join elems "/"
  else match elems with
       | [] => "."
       | _ => Strings.Join elems "/"
       end.

Definition Clean (p : string) : string := renderPath (rooted p) (pathElems p).

(** [filepath.Join]: empty elements are ignored, the rest is joined with
    the separator and cleaned; all empty gives the empty string. *)
Definition Join (elems : list string) : string :=
  match filter (fun e => negb (String.eqb e "")) elems with
  | [] => ""
  | es => Clean (Strings.Join es "/")
  end.

End filepath.

(** The file a finished transcript goes to ([runJob], after the
    collection succeeded at clock [t]). *)
Definition transcriptFilename {U : Unicode} {P : Platform} (job : Job) (t : Z) : string :=
  let safeName := sanitize (Asset_Name (Job_Asset job)) in
  let safeIP := sanitize (Asset_Address (Job_Asset job)) in
  let timestamp := formatHHMMSS t in
  safeName ++ "__" ++ safeIP ++ "__" ++ Job_Vendor job ++ "__"
    ++ Job_Protocol job ++ "__" ++ timestamp ++ ".txt".

Definition transcriptPath {U : Unicode} {P : Platform} (job : Job) (t : Z) : string :=
  filepath.Join [Job_BaseDir job; transcriptFilename job t].

(** ** Read loops of the transport session *)

Section Engine.
Context {U : Unicode} {P : Platform}.

(** The inner [for _, prompt := range prompts] of [readTelnetOutput] and
    [readUntilPrompt]: [strings.Contains(output, prompt)]. *)
Definition promptFound (output : string) (prompts : list string) : bool :=
  existsb (fun prompt => Contains output prompt) prompts.

(** The inner loop of [waitForString]: both sides are lowered first. *)
Definition patternFound (output : string) (patterns : list string) : bool :=
  existsb (fun pattern => Contains (ToLower output) (ToLower pattern)) patterns.

(** [buf.Write(data[:n])] under [if n > 0]. *)
Definition appendChunk (buf data : string) : string :=
  if String.eqb data "" then buf else buf ++ data.

Definition gotBytes (data : string) : bool := negb (String.eqb data "").

(** Every pass through one of the loops below that does not return
    consumes one answer of the peer, so [S (length (inbound w))] passes
    are all a world [w] can feed. *)
Definition readBudget : M nat := fun w => Some (S (List.length (inbound w)), w).

Fixpoint waitForString_loop (fuel : nat) (deadline : Z) (patterns : list string)
    (buf : string) : M (option error) :=
  match fuel with
  | O => fun _ => None
  | S fuel' =>
      t <- timeNow ;;
      if deadline <? t then ret (Some (fmt_Errorf "timeout aguardando padrão" []))
      else
        r <- connRead ;;
        let '(data, err) := r in
        let buf' := appendChunk buf data in
        if gotBytes data && patternFound buf' patterns then ret None
        else match err with
             | Some e =>
                 if isNetTimeout e
                 then waitForString_loop fuel' deadline patterns buf'
                 else ret (Some e)
             | None =>
                 timeSleep (100 * GoTime.Millisecond) ;;;
                 waitForString_loop fuel' deadline patterns buf'
             end
  end.

Definition waitForString (timeout : Z) (patterns : list string) : M (option error) :=
  t0 <- timeNow ;;
  fuel <- readBudget ;;
  waitForString_loop fuel (t0 + timeout) patterns "".

Fixpoint readTelnetOutput_loop (fuel : nat) (deadline : Z) (prompts : list string)
    (buf : string) : M (string * option error) :=
  match fuel with
  | O => fun _ => None
  | S fuel' =>
      t <- timeNow ;;
      if deadline <? t then ret (buf, Some (fmt_Errorf "timeout lendo output" []))
      else
        r <- connRead ;;
        let '(data, err) := r in
        let buf' := appendChunk buf data in
        if gotBytes data && promptFound buf' prompts then ret (buf', None)
        else match err with
             | Some e =>
                 if isNetTimeout e
                 then readTelnetOutput_loop fuel' deadline prompts buf'
                 else ret (buf', None)
             | None =>
                 timeSleep (100 * GoTime.Millisecond) ;;;
                 readTelnetOutput_loop fuel' deadline prompts buf'
             end
  end.

Definition readTelnetOutput (timeout : Z) (prompts : list string)
    : M (string * option error) :=
  t0 <- timeNow ;;
  fuel <- readBudget ;;
  readTelnetOutput_loop fuel (t0 + timeout) prompts "".

Fixpoint readUntilPrompt_loop (fuel : nat) (deadline : Z) (prompts : list string)
    (buf : string) : M (string * option error) :=
  match fuel with
  | O => fun _ => None
  | S fuel' =>
      done <- ctxDone ;;
      if done then ret (buf, Some ctx_Canceled)
      else
        t <- timeNow ;;
        if deadline <? t then ret (buf, Some (fmt_Errorf "timeout aguardando prompt" []))
        else
          r <- connRead ;;
          let '(data, err) := r in
          let buf' := appendChunk buf data in
          if gotBytes data && promptFound buf' prompts then ret (buf', None)
          else match err with
               | Some e =>
                   if isEOF e then ret (buf', None)
                   else if isNetTimeout e
                   then readUntilPrompt_loop fuel' deadline prompts buf'
                   else ret (buf', Some e)
               | None =>
                   timeSleep (100 * GoTime.Millisecond) ;;;
                   readUntilPrompt_loop fuel' deadline prompts buf'
               end
  end.

Definition readUntilPrompt (timeout : Z) (prompts : list string)
    : M (string * option error) :=
  t0 <- timeNow ;;
  fuel <- readBudget ;;
  readUntilPrompt_loop fuel (t0 + timeout) prompts "".

(** ** Single-job executor *)

Definition nl : string := String "010"%char EmptyString.

(** [defer x.Close()]: runs when the enclosing function returns, on every
    path. *)
Definition deferClose {A} (what : string) (body : M A) : M A :=
  r <- body ;;
  emit (EvClose what) ;;;
  ret r.

Definition dialAddr (job : Job) : string :=
  Asset_Address (Job_Asset job) ++ ":" ++ Itoa (Asset_Port (Job_Asset job)).

Definition transcriptHeader (job : Job) (proto : string) (t : Z) : string :=
  "### ASSET=" ++ Asset_Name (Job_Asset job) ++ " IP=" ++ Asset_Address (Job_Asset job)
    ++ " VENDOR=" ++ Job_Vendor job ++ " PROTOCOL=" ++ proto
    ++ " TIME=" ++ formatRFC3339 t ++ " ###" ++ nl ++ nl.

Definition cmdHeader (cmd : string) : string :=
  nl ++ nl ++ "==== CMD: " ++ cmd ++ " ====" ++ nl.

(** The command loop of [collectTelnet].  A result with an error is an
    early [return]; with [None] the loop ran to its end. *)
Fixpoint telnetCommandLoop (job : Job) (prompts : list string) (cmds : list string)
    (result : string) : M (string * option error) :=
  match cmds with
  | [] => ret (result, None)
  | cmd :: rest =>
      done <- ctxDone ;;
      if done then ret (result, Some ctx_Canceled)
      else
        let cmd := TrimSpace cmd in
        if String.eqb cmd "" then telnetCommandLoop job prompts rest result
        else
          let result := result ++ cmdHeader cmd in
          werr <- connWrite (cmd ++ nl) ;;
          match werr with
          | Some e =>
              slog LevelWarn "erro enviando comando" [("cmd", VStr cmd); ("error", VErr e)] ;;;
              telnetCommandLoop job prompts rest result
          | None =>
              r <- readTelnetOutput (Job_Timeout job) prompts ;;
              let '(output, err) := r in
              match err with
              | Some e =>
                  slog LevelWarn "erro lendo output do comando"
                       [("cmd", VStr cmd); ("error", VErr e)]
              | None => ret tt
              end ;;;
              telnetCommandLoop job prompts rest (result ++ output)
          end
  end.

Definition collectTelnet (job : Job) (cmds prompts : list string)
    : M (string * option error) :=
  let addr := dialAddr job in
  slog LevelInfo "conectando via telnet" [("address", VStr addr)] ;;;
  emit (EvDial "tcp" addr) ;;;
  s <- getSetup ;;
  match dialErr s with
  | Some e => ret ("", Some (fmt_Errorf "dial telnet: %w" [ArgErr e]))
  | None =>
    deferClose "conn" (
      t <- timeNow ;;
      let result := transcriptHeader job "telnet" t in
      e1 <- waitForString (Job_Timeout job) ["sername:"; "ogin:"] ;;
      match e1 with
      | Some e =>
          ret (result, Some (fmt_Errorf "timeout aguardando login prompt: %w" [ArgErr e]))
      | None =>
      e2 <- connWrite (Job_Username job ++ nl) ;;
      match e2 with
      | Some e => ret (result, Some (fmt_Errorf "erro enviando username: %w" [ArgErr e]))
      | None =>
      e3 <- waitForString (Job_Timeout job) ["assword:"] ;;
      match e3 with
      | Some e =>
          ret (result, Some (fmt_Errorf "timeout aguardando password prompt: %w" [ArgErr e]))
      | None =>
      e4 <- connWrite (Job_Password job ++ nl) ;;
      match e4 with
      | Some e => ret (result, Some (fmt_Errorf "erro enviando password: %w" [ArgErr e]))
      | None =>
      timeSleep (2 * GoTime.Second) ;;;
      r <- telnetCommandLoop job prompts cmds result ;;
      match r with
      | (result, Some e) => ret (result, Some e)
      | (result, None) =>
          connWrite ("quit" ++ nl) ;;;
          timeSleep (300 * GoTime.Millisecond) ;;;
          ret (result, None)
      end
      end end end end)
  end.

(** The command loop of [collectSSH]. *)
Fixpoint sshCommandLoop (job : Job) (prompts : list string) (cmds : list string)
    (result : string) : M (string * option error) :=
  match cmds with
  | [] => ret (result, None)
  | cmd :: rest =>
      done <- ctxDone ;;
      if done then ret (result, Some ctx_Canceled)
      else
        let cmd := TrimSpace cmd in
        if String.eqb cmd "" then sshCommandLoop job prompts rest result
        else
          let result := result ++ cmdHeader cmd in
          werr <- connWrite (cmd ++ nl) ;;
          match werr with
          | Some e =>
              ret (result, Some (fmt_Errorf "write cmd %q: %w" [ArgStr cmd; ArgErr e]))
          | None =>
              r <- readUntilPrompt (Job_Timeout job) prompts ;;
              let '(output, err) := r in
              match err with
              | Some e =>
                  slog LevelWarn "erro lendo output do comando"
                       [("cmd", VStr cmd); ("error", VErr e)]
              | None => ret tt
              end ;;;
              sshCommandLoop job prompts rest (result ++ output)
          end
  end.

Definition orDefault (l dflt : list string) : list string :=
  match l with [] => dflt | _ => l end.

(** [applySSHLegacyConfig]: fills the empty algorithm lists with the
    defaults for old equipment and logs what is applied. *)
Definition applySSHLegacyConfig (legacy : SSHLegacy) : M SSHLegacy :=
  let kex := orDefault (KexAlgorithms legacy)
               [ "diffie-hellman-group-exchange-sha256";
                 "diffie-hellman-group-exchange-sha1";
                 "diffie-hellman-group14-sha1"; "diffie-hellman-group1-sha1" ] in
  let ciphers := orDefault (Ciphers legacy)
               [ "aes128-ctr"; "aes192-ctr"; "aes256-ctr"; "aes128-cbc";
                 "aes192-cbc"; "aes256-cbc"; "3des-cbc" ] in
  let macs := orDefault (MACs legacy)
               [ "hmac-sha2-256"; "hmac-sha2-512"; "hmac-sha1"; "hmac-sha1-96" ] in
  let hostKeys := orDefault (HostKeyAlgorithms legacy) [ "ssh-rsa"; "ssh-dss" ] in
  slog LevelWarn "configurações SSH legacy aplicadas"
       [("kex", VStrs kex); ("ciphers", VStrs ciphers); ("macs", VStrs macs);
        ("host_keys", VStrs hostKeys)] ;;;
  ret (mkSSHLegacy (Enabled legacy) kex ciphers macs hostKeys).

(** [collectSSH].  The host key callback is part of the handshake, whose
    outcome the world decides. *)
Definition collectSSH (job : Job) (cmds prompts : list string)
    : M (string * option error) :=
  let addr := dialAddr job in
  slog LevelInfo "conectando via ssh" [("address", VStr addr)] ;;;
  match Job_SSHLegacy job with
  | Some legacy => if Enabled legacy then applySSHLegacyConfig legacy ;;; ret tt else ret tt
  | None => ret tt
  end ;;;
  emit (EvDial "tcp" addr) ;;;
  s <- getSetup ;;
  match dialErr s with
  | Some e => ret ("", Some (fmt_Errorf "dial tcp: %w" [ArgErr e]))
  | None =>
    deferClose "conn" (
      emit (EvHandshake addr) ;;;
      match handshakeErr s with
      | Some e => ret ("", Some (fmt_Errorf "ssh handshake: %w" [ArgErr e]))
      | None =>
        deferClose "client" (
          match newSessionErr s with
          | Some e => ret ("", Some (fmt_Errorf "new session: %w" [ArgErr e]))
          | None =>
            deferClose "session" (
              match requestPtyErr s with
              | Some e => ret ("", Some (fmt_Errorf "request pty: %w" [ArgErr e]))
              | None =>
              match stdinPipeErr s with
              | Some e => ret ("", Some (fmt_Errorf "stdin pipe: %w" [ArgErr e]))
              | None =>
              match stdoutPipeErr s with
              | Some e => ret ("", Some (fmt_Errorf "stdout pipe: %w" [ArgErr e]))
              | None =>
              match shellErr s with
              | Some e => ret ("", Some (fmt_Errorf "start shell: %w" [ArgErr e]))
              | None =>
                t <- timeNow ;;
                let result := transcriptHeader job "ssh" t in
                r0 <- readUntilPrompt (10 * GoTime.Second) prompts ;;
                match snd r0 with
                | Some e =>
                    slog LevelWarn "timeout aguardando prompt inicial" [("error", VErr e)]
                | None => ret tt
                end ;;;
                r <- sshCommandLoop job prompts cmds result ;;
                match r with
                | (result, Some e) => ret (result, Some e)
                | (result, None) =>
                    connWrite ("quit" ++ nl) ;;;
                    timeSleep (300 * GoTime.Millisecond) ;;;
                    ret (result, None)
                end
              end end end end)
          end)
      end)
  end.

(** [writeAtomic path data perm]: temporary file next to [path], then
    rename. *)
Definition writeAtomic (path data : string) : M (option error) :=
  fs <- getFs ;;
  emit (EvCreateTemp path) ;;;
  match createTempErr fs with
  | Some e => ret (Some e)
  | None =>
    match tmpWriteErr fs with
    | Some e => emit (EvRemoveTemp path) ;;; ret (Some e)
    | None =>
      match tmpCloseErr fs with
      | Some e => emit (EvRemoveTemp path) ;;; ret (Some e)
      | None =>
        match chmodErr fs with
        | Some e => emit (EvRemoveTemp path) ;;; ret (Some e)
        | None => emit (EvRename path data) ;;; ret (renameErr fs)
        end
      end
    end
  end.

Definition runJob (job : Job) : M (option error) :=
  done <- ctxDone ;;
  if done then ret (Some ctx_Canceled)
  else
    match commandsForVendor (Job_Vendor job) with
    | (_, Some e) => ret (Some e)
    | (cmds, None) =>
        let prompts := promptsForVendor (Job_Vendor job) in
        let finish (r : string * option error) : M (option error) :=
          match r with
          | (_, Some e) => ret (Some e)
          | (out, None) =>
              t <- timeNow ;;
              writeAtomic (transcriptPath job t) out
          end in
        if String.eqb (Job_Protocol job) "telnet" then
          r <- collectTelnet job cmds prompts ;; finish r
        else if String.eqb (Job_Protocol job) "ssh" then
          r <- collectSSH job cmds prompts ;; finish r
        else
          ret (Some (fmt_Errorf "protocolo desconhecido: %q (use ssh ou telnet)"
                                [ArgStr (Job_Protocol job)]))
    end.

(** ** Retry controller *)

(** Ghost record of one invocation of the executor: the attempt index,
    the clock when the iteration passed its cancellation check, the
    clock when the executor was called, and what it returned. *)
Record Attempt : Type := mkAttempt {
  att_index : Z;
  att_checked : Z;
  att_started : Z;
  att_result : option error
}.

(** [time.Duration(attempt) * 2 * time.Second] *)
Definition backoffFor (attempt : Z) : Z :=
  Int64.mul (Int64.mul attempt 2) GoTime.Second.

Definition errArg (e : option error) : fmt_arg :=
  match e with Some e => ArgErr e | None => ArgNil end.

(** The [for attempt := 0; attempt <= maxRetries; attempt++] loop of
    [runJobWithRetry] around an executor [exec].  [fuel] bounds the
    number of passes the model follows; [calls] is ghost state. *)
Fixpoint retryLoop (exec : M (option error)) (job : Job) (maxRetries : Z)
    (fuel : nat) (attempt : Z) (lastErr : option error) (calls : list Attempt)
    : M (option error * list Attempt) :=
  match fuel with
  | O => fun _ => None
  | S fuel' =>
      if attempt <=? maxRetries then
        done <- ctxDone ;;
        if done then ret (Some ctx_Canceled, calls)
        else
          t0 <- timeNow ;;
          (if 0 <? attempt then
             let backoff := backoffFor attempt in
             slog LevelInfo "tentando novamente"
                  [("asset", VStr (Asset_Name (Job_Asset job))); ("attempt", VInt attempt);
                   ("max_retries", VInt maxRetries); ("backoff", VDur backoff)] ;;;
             timeSleep backoff
           else ret tt) ;;;
          t1 <- timeNow ;;
          err <- exec ;;
          let calls := (calls ++ [mkAttempt attempt t0 t1 err])%list in
          match err with
          | None => ret (None, calls)
          | Some e =>
              retryLoop exec job maxRetries fuel' (Int64.add attempt 1) (Some e) calls
          end
      else
        ret (Some (fmt_Errorf "falhou após %d tentativas: %w"
                              [ArgInt (Int64.add maxRetries 1); errArg lastErr]),
             calls)
  end.

(** The controller around an arbitrary executor, with its ghost record. *)
Definition retryWith (exec : M (option error)) (fuel : nat) (job : Job) (maxRetries : Z)
    : M (option error * list Attempt) :=
  retryLoop exec job maxRetries fuel 0 None [].

Definition runJobWithRetry (fuel : nat) (job : Job) (maxRetries : Z) : M (option error) :=
  r <- retryWith (runJob job) fuel job maxRetries ;;
  ret (fst r).

(** ** Job producer: the defaults and the enqueue loop of [main] *)

Definition applyDefaults (cfg : Config) : Config :=
  mkConfig (if String.eqb (BaseDir cfg) "" then "./coletas" else BaseDir cfg)
           (if TimeoutSeconds cfg <=? 0 then 30 else TimeoutSeconds cfg)
           (if Concurrency cfg <=? 0 then 5 else Concurrency cfg)
           (if MaxRetries cfg <? 0 then 0 else MaxRetries cfg)
           (KnownHostsFile cfg) (Config_SSHLegacy cfg) (Groups cfg).

Definition Group_GetPassword (g : Group) : string :=
  if negb (String.eqb (Group_PasswordEnv g) "") then
    let pass := Getenv (Group_PasswordEnv g) in
    if negb (String.eqb pass "") then pass else Group_Password g
  else Group_Password g.

Definition Asset_GetPassword (a : Asset) : string :=
  if negb (String.eqb (Asset_PasswordEnv a) "") then
    let pass := Getenv (Asset_PasswordEnv a) in
    if negb (String.eqb pass "") then pass else Asset_Password a
  else Asset_Password a.

Definition IsActive (a : Asset) : bool :=
  match Asset_Active a with
  | None => true
  | Some b => b
  end.

(** [protocol := strings.ToLower(strings.TrimSpace(a.Protocol))], with
    ["ssh"] for the empty string. *)
Definition resolveProtocol (a : Asset) : string :=
  let protocol := ToLower (TrimSpace (Asset_Protocol a)) in
  if String.eqb protocol "" then "ssh" else protocol.

Definition resolvePort (a : Asset) (protocol : string) : Z :=
  let port := Asset_Port a in
  if port =? 0 then
    if String.eqb protocol "telnet" then 23 else 22
  else port.

Definition withPort (a : Asset) (port : Z) : Asset :=
  mkAsset (Asset_Name a) (Asset_Address a) port (Asset_Protocol a)
          (Asset_Username a) (Asset_Password a) (Asset_PasswordEnv a) (Asset_Active a).

(** What the enqueue loop has produced so far: the queue, the log lines
    and the three counters. *)
Record Produced : Type := mkProduced {
  queued : list Job;
  logged : list Event;
  totalAssets : Z;
  activeAssets : Z;
  inactiveAssets : Z
}.

(** Body of [for _, a := range g.Assets]. *)
Definition enqueueAsset (cfg : Config) (outDir v groupPassword : string) (g : Group)
    (acc : Produced) (a : Asset) : Produced :=
  let total := totalAssets acc + 1 in
  if negb (IsActive a) then
    mkProduced (queued acc)
               (logged acc ++ [EvLog LevelInfo "asset inativo, ignorando"
                                 [("asset", VStr (Asset_Name a));
                                  ("address", VStr (Asset_Address a))]])
               total (activeAssets acc) (inactiveAssets acc + 1)
  else
    let active := activeAssets acc + 1 in
    let username :=
      if String.eqb (Asset_Username a) "" then Group_Username g else Asset_Username a in
    let password :=
      let p := Asset_GetPassword a in
      if String.eqb p "" then groupPassword else p in
    if String.eqb password "" then
      mkProduced (queued acc)
                 (logged acc ++ [EvLog LevelError "senha não configurada"
                                   [("asset", VStr (Asset_Name a)); ("vendor", VStr v);
                                    ("username", VStr username)]])
                 total active (inactiveAssets acc)
    else
      let protocol := resolveProtocol a in
      let port := resolvePort a protocol in
      let resolvedAsset := withPort a port in
      mkProduced (queued acc ++
                    [mkJob v username password resolvedAsset protocol
                           (Int64.mul (TimeoutSeconds cfg) GoTime.Second)
                           outDir (Config_SSHLegacy cfg)])
                 (logged acc) total active (inactiveAssets acc).

(** Body of [for _, g := range cfg.Groups]. *)
Definition enqueueGroup (cfg : Config) (outDir : string) (acc : Produced) (g : Group)
    : Produced :=
  let v := ToLower (TrimSpace (Group_Vendor g)) in
  let groupPassword := Group_GetPassword g in
  fold_left (enqueueAsset cfg outDir v groupPassword g) (Group_Assets g) acc.

(** The enqueue loop in a run in which every send returns: the jobs sent
    to the queue before [close(jobs)]. *)
Definition enqueueJobs (cfg : Config) (outDir : string) : Produced :=
  fold_left (enqueueGroup cfg outDir) (Groups cfg) (mkProduced [] [] 0 0 0).

(** *** The enqueue loop on a channel that can fill up *)

(** The body of [for _, a := range g.Assets] up to the send: the state
    with the counters and the log lines of this asset, and the job to
    send, if there is one. *)
Definition prepareJob (cfg : Config) (outDir v groupPassword : string) (g : Group)
    (acc : Produced) (a : Asset) : Produced * option Job :=
  let total := totalAssets acc + 1 in
  if negb (IsActive a) then
    (mkProduced (queued acc)
                (logged acc ++ [EvLog LevelInfo "asset inativo, ignorando"
                                  [("asset", VStr (Asset_Name a));
                                   ("address", VStr (Asset_Address a))]])
                total (activeAssets acc) (inactiveAssets acc + 1),
     None)
  else
    let active := activeAssets acc + 1 in
    let username :=
      if String.eqb (Asset_Username a) "" then Group_Username g else Asset_Username a in
    let password :=
      let p := Asset_GetPassword a in
      if String.eqb p "" then groupPassword else p in
    if String.eqb password "" then
      (mkProduced (queued acc)
                  (logged acc ++ [EvLog LevelError "senha não configurada"
                                    [("asset", VStr (Asset_Name a)); ("vendor", VStr v);
                                     ("username", VStr username)]])
                  total active (inactiveAssets acc),
       None)
    else
      let protocol := resolveProtocol a in
      let port := resolvePort a protocol in
      let resolvedAsset := withPort a port in
      (mkProduced (queued acc) (logged acc) total active (inactiveAssets acc),
       Some (mkJob v username password resolvedAsset protocol
                   (Int64.mul (TimeoutSeconds cfg) GoTime.Second)
                   outDir (Config_SSHLegacy cfg))).

(** Where the loop is: still going, with what it has produced, or inside
    a send that does not return, with the job it is trying to send. *)
Inductive Enqueue : Type :=
| Enqueuing (p : Produced)
| Blocked (p : Produced) (pending : Job).

(** [jobs <- job] on the buffered channel [jobs].  A send returns while
    the channel has room.  [room] is the number of jobs the channel takes
    in this run: its capacity [len(cfg.Groups)*10] and what the workers
    receive from it in time; once the workers have returned, nothing
    makes room any more and the next send never returns. *)
Definition sendJob (room : nat) (acc : Produced) (job : Job) : Enqueue :=
  if (List.length (queued acc) <? room)%nat then
    Enqueuing (mkProduced (queued acc ++ [job]) (logged acc) (totalAssets acc)
                          (activeAssets acc) (inactiveAssets acc))
  else Blocked acc job.

Definition enqueueAssetOn (room : nat) (cfg : Config) (outDir v groupPassword : string)
    (g : Group) (st : Enqueue) (a : Asset) : Enqueue :=
  match st with
  | Blocked _ _ => st
  | Enqueuing acc =>
      match prepareJob cfg outDir v groupPassword g acc a with
      | (acc1, Some job) => sendJob room acc1 job
      | (acc1, None) => Enqueuing acc1
      end
  end.

Definition enqueueGroupOn (room : nat) (cfg : Config) (outDir : string) (st : Enqueue)
    (g : Group) : Enqueue :=
  let v := ToLower (TrimSpace (Group_Vendor g)) in
  let groupPassword := Group_GetPassword g in
  fold_left (enqueueAssetOn room cfg outDir v groupPassword g) (Group_Assets g) st.

Definition enqueueJobsOn (room : nat) (cfg : Config) (outDir : string) : Enqueue :=
  fold_left (enqueueGroupOn room cfg outDir) (Groups cfg)
            (Enqueuing (mkProduced [] [] 0 0 0)).

(** The jobs whose send has returned. *)
Definition sent (st : Enqueue) : list Job :=
  match st with
  | Enqueuing p => queued p
  | Blocked p _ => queued p
  end.

End Engine.

(** ** Configuration validation and the worker loop of [main] *)

(** What [Validate] asks of the network: whether [net.ParseIP] accepts
    an address, and whether [net.LookupHost] resolves it. *)
Class Resolver := {
  parsesAsIP : string -> bool;
  lookupHostOk : string -> bool
}.

Section Orchestration.
Context {U : Unicode} {P : Platform} {R : Resolver}.

Definition knownVendor (vendor : string) : bool :=
  String.eqb vendor "huawei" || String.eqb vendor "zte".

Definition knownProtocol (proto : string) : bool :=
  String.eqb proto "ssh" || String.eqb proto "telnet".

(** Body of [for j, a := range g.Assets] in [Validate]; [None] lets the
    loop go on. *)
Definition validateAsset (i j : Z) (a : Asset) : option error :=
  if String.eqb (Asset_Name a) "" then
    Some (fmt_Errorf "grupo[%d].assets[%d]: name não pode ser vazio" [ArgInt i; ArgInt j])
  else if negb (parsesAsIP (Asset_Address a)) && negb (lookupHostOk (Asset_Address a)) then
    Some (fmt_Errorf "grupo[%d].assets[%d]: endereço inválido %q"
                     [ArgInt i; ArgInt j; ArgStr (Asset_Address a)])
  else if (Asset_Port a <? 0) || (65535 <? Asset_Port a) then
    Some (fmt_Errorf "grupo[%d].assets[%d]: porta inválida %d"
                     [ArgInt i; ArgInt j; ArgInt (Asset_Port a)])
  else if negb (String.eqb (Asset_Protocol a) "")
          && negb (knownProtocol (ToLower (TrimSpace (Asset_Protocol a)))) then
    Some (fmt_Errorf "grupo[%d].assets[%d]: protocolo inválido %q (use ssh ou telnet)"
                     [ArgInt i; ArgInt j; ArgStr (Asset_Protocol a)])
  else None.

Fixpoint validateAssets (i j : Z) (assets : list Asset) : option error :=
  match assets with
  | [] => None
  | a :: rest =>
      match validateAsset i j a with
      | Some e => Some e
      | None => validateAssets i (j + 1) rest
      end
  end.

(** Body of [for i, g := range c.Groups]. *)
Definition validateGroup (i : Z) (g : Group) : option error :=
  if negb (knownVendor (ToLower (TrimSpace (Group_Vendor g)))) then
    Some (fmt_Errorf "grupo[%d]: vendor inválido %q (use huawei ou zte)"
                     [ArgInt i; ArgStr (Group_Vendor g)])
  else if String.eqb (Group_Username g) "" then
    Some (fmt_Errorf "grupo[%d]: username não pode ser vazio" [ArgInt i])
  else if String.eqb (Group_Password g) "" && String.eqb (Group_PasswordEnv g) "" then
    Some (fmt_Errorf "grupo[%d]: configure password ou password_env" [ArgInt i])
  else match Group_Assets g with
       | [] => Some (fmt_Errorf "grupo[%d]: nenhum asset definido" [ArgInt i])
       | assets => validateAssets i 0 assets
       end.

Fixpoint validateGroups (i : Z) (groups : list Group) : option error :=
  match groups with
  | [] => None
  | g :: rest =>
      match validateGroup i g with
      | Some e => Some e
      | None => validateGroups (i + 1) rest
      end
  end.

(** Method [Validate] of [Config]; the two [errors.New] values are library
    errors carrying their text. *)
Definition Validate (c : Config) : option error :=
  if 50 <? Concurrency c then Some (lib_error "concurrency muito alta (max: 50)")
  else if 300 <? TimeoutSeconds c then Some (lib_error "timeout muito alto (max: 300s)")
  else validateGroups 0 (Groups c).

Definition jobAttrs (job : Job) : list (string * LogVal) :=
  [("asset", VStr (Asset_Name (Job_Asset job))); ("vendor", VStr (Job_Vendor job));
   ("address", VStr (Asset_Address (Job_Asset job))); ("protocol", VStr (Job_Protocol job))].

(** One worker of [main]: [for job := range jobs], over the jobs the
    queue hands to this worker, in this order, for as long as it goes on
    receiving.  The job is received before the context is looked at: a
    worker that finds the context done returns with the job it has just
    received in hand. *)
Fixpoint worker (fuel : nat) (workerID : Z) (maxRetries : Z) (jobs : list Job) : M unit :=
  match jobs with
  | [] => ret tt
  | job :: rest =>
      done <- ctxDone ;;
      if done then slog LevelWarn "worker cancelado" [("worker_id", VInt workerID)]
      else
        err <- runJobWithRetry fuel job maxRetries ;;
        match err with
        | Some e => slog LevelError "job falhou" (jobAttrs job ++ [("error", VErr e)])
        | None => slog LevelInfo "job concluído" (jobAttrs job)
        end ;;;
        worker fuel workerID maxRetries rest
  end.

End Orchestration.

(** ** Notions used to state the properties *)

Section Observations.
Context {U : Unicode} {P : Platform}.

Fixpoint hasByte (c : ascii) (s : string) : bool :=
  match s with
  | EmptyString => false
  | String x r => Ascii.eqb x c || hasByte c r
  end.

(** Two strings with the same characters up to the case that
    [unicode.ToLower] removes, and two strings with the same bytes up to
    the case of ASCII letters. *)
Definition sameLetters (a b : string) : Prop :=
  map unicode_ToLower (runes a) = map unicode_ToLower (runes b).

Definition sameButASCIICase (a b : string) : Prop :=
  mapBytes lowerByte a = mapBytes lowerByte b.

(** A queued job is the resolution of one asset of one group. *)
Definition resolvedFrom (cfg : Config) (job : Job) : Prop :=
  exists g a,
    In g (Groups cfg) /\ In a (Group_Assets g) /\ IsActive a = true /\
    Job_Protocol job = resolveProtocol a /\
    Job_Asset job = withPort a (resolvePort a (resolveProtocol a)).

(** The four replacements of [sanitize] as one byte map. *)
Definition sanitizeByte (c : ascii) : ascii :=
  if Ascii.eqb c ":" || Ascii.eqb c "/" || Ascii.eqb c "\" || Ascii.eqb c " "
  then "_"%char else c.

(** A name that is one plain element of a path. *)
Definition plainElem (f : string) : Prop :=
  hasByte "/" f = false /\ hasByte "\" f = false /\
  f <> "" /\ f <> "." /\ f <> "..".

(** A read after which a loop goes round again: no error, or a read
    timeout. *)
Definition benign (ev : ReadEv) : bool :=
  match rerr ev with
  | None => true
  | Some e => isNetTimeout e
  end.

(** Time one such pass takes: the read, and the 100 ms sleep that follows
    a read without error. *)
Definition passTime (ev : ReadEv) : Z :=
  Z.max 0 (rtook ev) +
  match rerr ev with
  | None => 100 * GoTime.Millisecond
  | Some _ => 0
  end.

Fixpoint elapsed (evs : list ReadEv) : Z :=
  match evs with
  | [] => 0
  | ev :: r => passTime ev + elapsed r
  end.

Fixpoint received (evs : list ReadEv) : string :=
  match evs with
  | [] => ""
  | ev :: r => rdata ev ++ received r
  end.

(** The reads [evs], starting from buffer [buf], are all benign and none
    of them completes a match for [found]. *)
Fixpoint silent (found : string -> bool) (buf : string) (evs : list ReadEv) : bool :=
  match evs with
  | [] => true
  | ev :: r =>
      benign ev && negb (gotBytes (rdata ev) && found (buf ++ rdata ev))
        && silent found (buf ++ rdata ev) r
  end.

(** The world after one benign pass, and after a run of them. *)
Definition afterPass (w : World) (ev : ReadEv) : World :=
  mkWorld (now w + passTime ev) (cancelAt w) (tl (inbound w)) (writeOutcome w)
          (writeCount w) (setup w) (fsOutcome w)
          (trace w ++ EvRecv ev ::
             match rerr ev with
             | None => [EvSleep (100 * GoTime.Millisecond)]
             | Some _ => []
             end).

Definition afterPasses (w : World) (evs : list ReadEv) : World :=
  fold_left afterPass evs w.

(** The context is not cancelled up to and including instant [t]. *)
Definition liveUntil (w : World) (t : Z) : Prop :=
  match cancelAt w with
  | None => True
  | Some tc => t < tc
  end.

(** The world after the read that makes a loop return. *)
Definition afterRead (w : World) (ev : ReadEv) : World :=
  mkWorld (now w + Z.max 0 (rtook ev)) (cancelAt w) (tl (inbound w)) (writeOutcome w)
          (writeCount w) (setup w) (fsOutcome w) (trace w ++ [EvRecv ev]).

(** The world after the log line and the sleep that precede retry
    [attempt]. *)
Definition afterBackoff (job : Job) (maxRetries attempt : Z) (w : World) : World :=
  mkWorld (now w + Z.max 0 (backoffFor attempt)) (cancelAt w) (inbound w) (writeOutcome w)
          (writeCount w) (setup w) (fsOutcome w)
          ((trace w ++
              [EvLog LevelInfo "tentando novamente"
                 [("asset", VStr (Asset_Name (Job_Asset job))); ("attempt", VInt attempt);
                  ("max_retries", VInt maxRetries); ("backoff", VDur (backoffFor attempt))]])
             ++ [EvSleep (backoffFor attempt)]).

Definition beforeAttempt (job : Job) (maxRetries attempt : Z) (w : World) : World :=
  if 0 <? attempt then afterBackoff job maxRetries attempt w else w.

(** Largest attempt index whose backoff fits a [time.Duration]. *)
Definition maxBackoffIndex : Z := 4611686018.

Fixpoint countFrom (a : Z) (k : nat) : list Z :=
  match k with
  | O => []
  | S k' => a :: countFrom (a + 1) k'
  end.

(** The wait recorded for one attempt. *)
Definition waitedAsScheduled (a : Attempt) : Prop :=
  (att_index a = 0 -> att_started a = att_checked a) /\
  (0 < att_index a <= maxBackoffIndex ->
     att_started a = att_checked a + att_index a * (2 * GoTime.Second)).



(** The world after a [Write] of [cmd] that failed with [e]; on the
    Telnet path the failure is logged. *)
Definition afterFailedSend (w : World) (cmd : string) (e : error) (logged : bool) : World :=
  mkWorld (now w) (cancelAt w) (inbound w) (writeOutcome w) (S (writeCount w))
          (setup w) (fsOutcome w)
          (if logged then
             (trace w ++ [EvSend (cmd ++ nl) (Some e)]) ++
               [EvLog LevelWarn "erro enviando comando" [("cmd", VStr cmd); ("error", VErr e)]]
           else trace w ++ [EvSend (cmd ++ nl) (Some e)]).

End Observations.

(** ** Notions used to state further properties of the program *)

Section Coverage.
Context {U : Unicode} {P : Platform} {R : Resolver}.

(** What [Validate] accepts, asset by asset and group by group. *)
Definition validAsset (a : Asset) : Prop :=
  Asset_Name a <> "" /\
  (parsesAsIP (Asset_Address a) = true \/ lookupHostOk (Asset_Address a) = true) /\
  0 <= Asset_Port a <= 65535 /\
  (Asset_Protocol a = "" \/ knownProtocol (ToLower (TrimSpace (Asset_Protocol a))) = true).

Definition validGroup (g : Group) : Prop :=
  knownVendor (ToLower (TrimSpace (Group_Vendor g))) = true /\
  Group_Username g <> "" /\
  (Group_Password g <> "" \/ Group_PasswordEnv g <> "") /\
  Group_Assets g <> [] /\
  Forall validAsset (Group_Assets g).

(** The assets of a configuration with their groups, in file order. *)
Definition assetsInOrder (cfg : Config) : list (Group * Asset) :=
  flat_map (fun g => map (pair g) (Group_Assets g)) (Groups cfg).

(** The password the enqueue loop settles on for an asset. *)
Definition resolvedPassword (g : Group) (a : Asset) : string :=
  if String.eqb (Asset_GetPassword a) "" then Group_GetPassword g else Asset_GetPassword a.

Definition resolvedUsername (g : Group) (a : Asset) : string :=
  if String.eqb (Asset_Username a) "" then Group_Username g else Asset_Username a.

(** An asset gets a job when it is active and a password was found. *)
Definition eligible (ga : Group * Asset) : bool :=
  IsActive (snd ga) && negb (String.eqb (resolvedPassword (fst ga) (snd ga)) "").

(** The job the enqueue loop sends for an eligible asset. *)
Definition jobOf (cfg : Config) (outDir : string) (ga : Group * Asset) : Job :=
  let (g, a) := ga in
  mkJob (ToLower (TrimSpace (Group_Vendor g))) (resolvedUsername g a) (resolvedPassword g a)
        (withPort a (resolvePort a (resolveProtocol a))) (resolveProtocol a)
        (Int64.mul (TimeoutSeconds cfg) GoTime.Second) outDir (Config_SSHLegacy cfg).

(** The value of an environment variable named in the configuration; no
    name, no value. *)
Definition envValue (name : string) : string :=
  if String.eqb name "" then "" else Getenv name.

Fixpoint firstNonEmpty (candidates : list string) : string :=
  match candidates with
  | [] => ""
  | c :: rest => if String.eqb c "" then firstNonEmpty rest else c
  end.

Definition countIf {A} (f : A -> bool) (l : list A) : Z :=
  Z.of_nat (List.length (filter f l)).

(** An invocation of the executor that returned an error. *)
Definition failed (c : Attempt) : Prop := att_result c <> None.

(** What the most recent invocation returned; [None] before the first. *)
Definition lastResult (calls : list Attempt) : option error :=
  match rev calls with
  | [] => None
  | c :: _ => att_result c
  end.

(** The error [runJobWithRetry] returns when it has run out of
    attempts. *)
Definition aggregateError (maxRetries : Z) (lastErr : option error) : error :=
  fmt_Errorf "falhou após %d tentativas: %w"
             [ArgInt (Int64.add maxRetries 1); errArg lastErr].

(** The three ways a run of the retry controller can end. *)
Definition retryOutcome (maxRetries : Z) (r : option error) (calls : list Attempt) : Prop :=
  (r = None /\
   exists earlier c, calls = (earlier ++ [c])%list /\ att_result c = None /\
                     Forall failed earlier) \/
  (r = Some ctx_Canceled /\ Forall failed calls) \/
  (r = Some (aggregateError maxRetries (lastResult calls)) /\ Forall failed calls).



(** [ev] is the last of the reads [consumed]. *)
Definition endsWith (consumed : list ReadEv) (ev : ReadEv) : Prop :=
  exists init, consumed = (init ++ [ev])%list.

(** What a return of [readUntilPrompt] means, for a call entered with
    buffer [buf] in world [w] and deadline [deadline]: [consumed] are the
    reads the call took from the peer. *)
Definition readUntilPromptPost (deadline : Z) (prompts : list string) (buf : string)
    (w : World) (out : string) (err : option error) (w' : World) : Prop :=
  exists consumed,
    inbound w = (consumed ++ inbound w')%list /\
    out = buf ++ received consumed /\
    now w <= now w' /\
    match err with
    | None =>
        exists ev, endsWith consumed ev /\
          ((rdata ev <> "" /\ promptFound out prompts = true) \/ rerr ev = Some io_EOF)
    | Some e =>
        (e = ctx_Canceled /\ isDone w' = true) \/
        (e = fmt_Errorf "timeout aguardando prompt" [] /\ deadline < now w') \/
        (exists ev, endsWith consumed ev /\ rerr ev = Some e /\
                    isEOF e = false /\ isNetTimeout e = false)
    end.

(** The same for [readTelnetOutput]: the only error is the timeout, and
    a read error that is not a timeout ends the call without error. *)
Definition readTelnetOutputPost (deadline : Z) (prompts : list string) (buf : string)
    (w : World) (out : string) (err : option error) (w' : World) : Prop :=
  exists consumed,
    inbound w = (consumed ++ inbound w')%list /\
    out = buf ++ received consumed /\
    now w <= now w' /\
    match err with
    | None =>
        exists ev, endsWith consumed ev /\
          ((rdata ev <> "" /\ promptFound out prompts = true) \/
           (exists e, rerr ev = Some e /\ isNetTimeout e = false))
    | Some e => e = fmt_Errorf "timeout lendo output" [] /\ deadline < now w'
    end.

(** And for [waitForString], which returns no text: success means that
    the last read delivered bytes and left a pattern in what was
    received, both taken through [ToLower]. *)
Definition waitForStringPost (deadline : Z) (patterns : list string) (buf : string)
    (w : World) (err : option error) (w' : World) : Prop :=
  exists consumed,
    inbound w = (consumed ++ inbound w')%list /\
    now w <= now w' /\
    match err with
    | None =>
        exists ev, endsWith consumed ev /\ rdata ev <> "" /\
                   patternFound (buf ++ received consumed) patterns = true
    | Some e =>
        (e = fmt_Errorf "timeout aguardando padrão" [] /\ deadline < now w') \/
        (exists ev, endsWith consumed ev /\ rerr ev = Some e /\ isNetTimeout e = false)
    end.

(** The same world with another cancellation instant. *)
Definition withCancel (c : option Z) (w : World) : World :=
  mkWorld (now w) c (inbound w) (writeOutcome w) (writeCount w) (setup w) (fsOutcome w)
          (trace w).

Definition mapWorld {A} (f : World -> World) (r : option (A * World)) : option (A * World) :=
  match r with
  | Some (a, w') => Some (a, f w')
  | None => None
  end.

(** Every read honours the 500 ms read deadline the loops set. *)
Definition readsWithinDeadline (evs : list ReadEv) : Prop :=
  Forall (fun ev => rtook ev <= 500 * GoTime.Millisecond) evs.

(** A computation only ever appends to the trace, and what it appends
    satisfies [Q]. *)
Definition emitsOnly {A} (Q : Event -> Prop) (m : M A) : Prop :=
  forall w r w', m w = Some (r, w') ->
    exists evs, trace w' = (trace w ++ evs)%list /\ Forall Q evs.

(** Events of a read loop. *)
Definition readEvent (e : Event) : bool :=
  match e with
  | EvRecv _ | EvSleep _ => true
  | _ => false
  end.

(** Reads, writes, pauses and warnings: what happens on an open
    session. *)
Definition ioEvent (e : Event) : bool :=
  readEvent e ||
  match e with
  | EvSend _ _ => true
  | EvLog LevelWarn _ _ => true
  | _ => false
  end.

(** Opening a session: the announcement, the dial, the handshake and the
    warnings on the way. *)
Definition setupEvent (e : Event) : bool :=
  match e with
  | EvDial _ _ | EvHandshake _ => true
  | EvLog LevelWarn _ _ => true
  | EvLog LevelInfo msg _ =>
      String.eqb msg "conectando via telnet" || String.eqb msg "conectando via ssh"
  | _ => false
  end.

(** What happens before anything is closed. *)
Definition openEvent (e : Event) : bool := ioEvent e || setupEvent e.

Definition sessionEvent (e : Event) : bool :=
  openEvent e || match e with EvClose _ => true | _ => false end.

Definition fileEvent (e : Event) : bool :=
  match e with
  | EvCreateTemp _ | EvRemoveTemp _ | EvRename _ _ => true
  | _ => false
  end.

(** What the executor can do, and what the retry controller adds. *)
Definition executorEvent (e : Event) : bool := sessionEvent e || fileEvent e.

Definition controllerEvent (e : Event) : bool :=
  executorEvent e ||
  match e with
  | EvLog LevelInfo msg _ => String.eqb msg "tentando novamente"
  | _ => false
  end.

(** A computation that ends by closing [cl], in this order, after events
    that satisfy [Q]. *)
Definition releases {A} (Q : Event -> Prop) (cl : list string) (m : M A) : Prop :=
  forall w r w', m w = Some (r, w') ->
    exists evs, trace w' = (trace w ++ evs ++ map EvClose cl)%list /\ Forall Q evs.

(** What an SSH session has opened when its setup stops, in the order of
    opening. *)
Definition opened (s : Setup) : list string :=
  match dialErr s with
  | Some _ => []
  | None =>
      "conn" ::
      match handshakeErr s with
      | Some _ => []
      | None =>
          "client" :: match newSessionErr s with Some _ => [] | None => ["session"] end
      end
  end.

Definition isNone {A} (o : option A) : bool :=
  match o with None => true | Some _ => false end.

(** The interactive shell of an SSH session was started. *)
Definition shellStarted (s : Setup) : bool :=
  isNone (dialErr s) && isNone (handshakeErr s) && isNone (newSessionErr s) &&
  isNone (requestPtyErr s) && isNone (stdinPipeErr s) && isNone (stdoutPipeErr s) &&
  isNone (shellErr s).

(** The commands a command loop acts on: trimmed, blank ones dropped. *)
Definition effective (cmds : list string) : list string :=
  filter (fun c => negb (String.eqb c "")) (map TrimSpace cmds).

Definition line (s : string) : string := s ++ nl.

(** Everything a complete Telnet session writes, and a complete SSH
    session. *)
Definition telnetScript (job : Job) (cmds : list string) : list string :=
  (line (Job_Username job) :: line (Job_Password job) :: map line (effective cmds)
   ++ [line "quit"])%list.

Definition sshScript (cmds : list string) : list string :=
  (map line (effective cmds) ++ [line "quit"])%list.

(** The blocks of a transcript: for each command its header and the
    output captured for it, which is what the reads taken for this
    command delivered. *)
Fixpoint transcriptOf (blocks : list (string * list ReadEv)) : string :=
  match blocks with
  | [] => ""
  | (cmd, reads) :: rest => cmdHeader cmd ++ received reads ++ transcriptOf rest
  end.

(** The log lines with which a worker reports the outcome of a job, and
    the job attributes such a line starts with. *)
Definition outcomeEvent (e : Event) : bool :=
  match e with
  | EvLog LevelError msg _ => String.eqb msg "job falhou"
  | EvLog LevelInfo msg _ => String.eqb msg "job concluído"
  | _ => false
  end.

Definition reportedJob (e : Event) : list (string * LogVal) :=
  match e with
  | EvLog _ _ attrs => firstn 4 attrs
  | _ => []
  end.

Definition cancelledEvent (e : Event) : bool :=
  match e with
  | EvLog LevelWarn msg _ => String.eqb msg "worker cancelado"
  | _ => false
  end.

End Coverage.

(** ** Concrete scenarios used to exercise the statements *)

Definition utc : Platform :=
  {| Getenv := fun _ => "";
     zoneOffset := 0;
     formatRFC3339 := fun _ => "1970-01-01T00:00:00Z" |}.

Definition okSetup : Setup := mkSetup None None None None None None None.
Definition okFs : FsOutcome := mkFsOutcome None None None None None.

Definition demoAsset : Asset :=
  mkAsset "core sw/01" "10.0.0.1" 22 "ssh" "" "" "" None.

Definition demoJob (vendor protocol : string) : Job :=
  mkJob vendor "admin" "secret" demoAsset protocol (30 * GoTime.Second) "./coletas/2024-01-01" None.

(** A quiet world: nothing to read, every write succeeds, no
    cancellation. *)
Definition quietWorld : World :=
  mkWorld 0 None [] (fun _ => None) 0 okSetup okFs [].

Definition cancelledWorld : World :=
  mkWorld 5 (Some 3) [] (fun _ => None) 0 okSetup okFs [].

Definition brokenPipe : error := lib_error "write: broken pipe".
Definition refused : error := lib_error "connect: connection refused".

(** The banner can be read, every write fails. *)
Definition brokenPipeWorld : World :=
  mkWorld 0 None [mkReadEv "sw#" None 0] (fun _ => Some brokenPipe) 0 okSetup okFs [].

(** A Telnet peer that lets the login through and then fails every
    write. *)
Definition telnetBrokenWorld : World :=
  mkWorld 0 None [mkReadEv "Username:" None 0; mkReadEv "Password:" None 0]
          (fun k => if (k <? 2)%nat then None else Some brokenPipe) 0 okSetup okFs [].

(** Dialling is refused and the context is cancelled one second after
    the start. *)
Definition refusedSetup : Setup := mkSetup (Some refused) None None None None None None.

Definition refusedThenCancelled : World :=
  mkWorld 0 (Some (1 * GoTime.Second)) [] (fun _ => None) 0 refusedSetup okFs [].

(** An executor that fails at once, whatever the world. *)
Definition refusing : M (option error) := fun w => Some (Some refused, w).

(** A prompt that arrives in two chunks. *)
Definition chunk1 : ReadEv := mkReadEv "motd vxworks-" None (10 * GoTime.Millisecond).
Definition chunk2 : ReadEv := mkReadEv "> " None (10 * GoTime.Millisecond).
Definition twoChunkWorld : World :=
  mkWorld 0 None [chunk1; chunk2] (fun _ => None) 0 okSetup okFs [].

(** Output, then the peer closes. *)
Definition lastBytes : ReadEv := mkReadEv "put" (Some io_EOF) 0.
Definition closingWorld : World :=
  mkWorld 0 None [mkReadEv "partial out" None 0; lastBytes] (fun _ => None) 0 okSetup okFs [].

(** A banner that starts with a letter above ASCII (U+00E1, in UTF-8). *)
Definition accentedBanner : string :=
  String "195"%char (String "161"%char "PASSWORD: ").

Definition loginBanner : ReadEv := mkReadEv "PASSWORD: " None 0.
Definition loginWorld : World :=
  mkWorld 0 None [loginBanner] (fun _ => None) 0 okSetup okFs [].

Definition demoConfig : Config :=
  mkConfig "" 30 5 0 "" None
    [mkGroup " ZTE " "admin" "pw" ""
       [mkAsset "a" "10.0.0.1" 0 "Telnet" "" "" "" None;
        mkAsset "b" "10.0.0.2" 0 "" "" "" "" (Some false);
        mkAsset "c" "10.0.0.3" 0 "" "" "" "" None;
        mkAsset "d" "10.0.0.4" 2222 "ssh" "" "" "" (Some true)]].

Definition demoQueuedJob : Job :=
  mkJob "zte" "admin" "pw" (mkAsset "a" "10.0.0.1" 23 "Telnet" "" "" "" None)
        "telnet" (30 * GoTime.Second) "out" None.

(** A resolver without name service: an address is accepted when it is
    written with digits and dots. *)
Fixpoint dotted (s : string) : bool :=
  match s with
  | EmptyString => true
  | String c r =>
      (Ascii.eqb c "." || ((48 <=? nat_of_ascii c)%nat && (nat_of_ascii c <=? 57)%nat))
      && dotted r
  end.

Definition numericHosts : Resolver :=
  {| parsesAsIP := fun s => negb (String.eqb s "") && dotted s;
     lookupHostOk := fun _ => false |}.



(** A device that answers two commands, each answer ending in its
    prompt. *)
Definition surveyCommands : list string := [" display version "; "  "; "display clock"].
Definition answeringWorld : World :=
  mkWorld 0 None
          [mkReadEv ("V200R005" ++ nl ++ "<sw>") None 0;
           mkReadEv ("2024-01-01 10:00:00" ++ nl ++ "<sw>") None 0]
          (fun _ => None) 0 okSetup okFs [].

Definition huaweiPrompts : list string := promptsForVendor "huawei".
Definition ztePrompts : list string := promptsForVendor "zte".

Definition sends (tr : list Event) : list string :=
  flat_map (fun ev => match ev with EvSend d _ => [d] | _ => [] end) tr.

Definition dials (tr : list Event) : list string :=
  flat_map (fun ev => match ev with EvDial _ a => [a] | _ => [] end) tr.

Section Dialogue.
Context {U : Unicode}.

(** What a command loop leaves behind, started with [result] written so
    far: blocks for an initial part of the commands, in their order,
    each of them sent once, and each with the reads taken for it, which
    follow one another in the stream of the device. *)
Definition commandLoopPost (cmds : list string) (result : string) (w : World)
    (r : string * option error) (w' : World) : Prop :=
  exists (blocks : list (string * list ReadEv)) (remaining : list string),
    effective cmds = (map fst blocks ++ remaining)%list /\
    fst r = result ++ transcriptOf blocks /\
    sends (trace w') = (sends (trace w) ++ map line (map fst blocks))%list /\
    inbound w = (List.concat (map snd blocks) ++ inbound w')%list /\
    (snd r = None -> remaining = []).

(** Why a command loop returned the error [e]: the run was cancelled, or
    the write of a command failed and was the last thing the loop did. *)
Definition stoppedBy (cmds : list string) (e : error) (w' : World) : Prop :=
  (e = ctx_Canceled /\ isDone w' = true) \/
  (exists cmd e0 pre,
     In cmd (effective cmds) /\
     e = fmt_Errorf "write cmd %q: %w" [ArgStr cmd; ArgErr e0] /\
     trace w' = (pre ++ [EvSend (line cmd) (Some e0)])%list).

End Dialogue.

(** * Properties *)

(** ** Machine integers *)

Lemma wrap64_small (z : Z) : Int64.in_range z -> Int64.wrap64 z = z.
Proof.
  unfold Int64.in_range, Int64.min_int, Int64.max_int, Int64.wrap64. intros H.
  rewrite Z.mod_small; lia.
Qed.


(** ** Facts about byte strings *)

Section Properties.
Context {U : Unicode} {P : Platform}.

Lemma hasByte_app (c : ascii) (a b : string) :
  hasByte c (a ++ b) = hasByte c a || hasByte c b.
Proof.
  induction a as [|x a IH]; simpl; [reflexivity|].
  rewrite IH. now rewrite orb_assoc.
Qed.

Lemma hasByte_mapBytes_none (c : ascii) (f : ascii -> ascii) (s : string) :
  (forall x, f x <> c) -> hasByte c (mapBytes f s) = false.
Proof.
  intros Hf. induction s as [|x s IH]; simpl; [reflexivity|].
  rewrite IH, orb_false_r. apply Ascii.eqb_neq, Hf.
Qed.

Lemma mapBytes_mapBytes (f g : ascii -> ascii) (s : string) :
  mapBytes f (mapBytes g s) = mapBytes (fun c => f (g c)) s.
Proof. induction s as [|x s IH]; simpl; [reflexivity | now rewrite IH]. Qed.

Lemma mapBytes_ext (f g : ascii -> ascii) (s : string) :
  (forall c, f c = g c) -> mapBytes f s = mapBytes g s.
Proof. intros H. induction s as [|x s IH]; simpl; [reflexivity | now rewrite H, IH]. Qed.

Lemma HasPrefix_iff (s p : string) :
  HasPrefix s p = true <-> exists post, s = p ++ post.
Proof.
  revert s. induction p as [|a p IH]; intros s; simpl.
  - split; [intros _; now exists s | reflexivity].
  - destruct s as [|b s]; simpl.
    + split; [discriminate | intros [post H]; discriminate].
    + rewrite andb_true_iff, Ascii.eqb_eq, IH. split.
      * intros [-> [post ->]]. now exists post.
      * intros [post H]. injection H as -> ->. split; [reflexivity | now exists post].
Qed.

Lemma Contains_iff (s sub : string) :
  Contains s sub = true <-> exists pre post, s = pre ++ sub ++ post.
Proof.
  induction s as [|c s IH].
  - simpl. rewrite orb_false_r, HasPrefix_iff. split.
    + intros [post H]. now exists "", post.
    + intros [pre [post H]]. destruct pre; simpl in H; [now exists post | discriminate].
  - change (Contains (String c s) sub)
      with (HasPrefix (String c s) sub || Contains s sub).
    rewrite orb_true_iff, HasPrefix_iff, IH. split.
    + intros [[post H] | [pre [post H]]].
      * now exists "", post.
      * exists (String c pre), post. simpl. now rewrite H.
    + intros [pre [post H]]. destruct pre as [|x pre]; simpl in H.
      * left. now exists post.
      * right. injection H as -> ->. now exists pre, post.
Qed.

Lemma promptFound_iff (output : string) (prompts : list string) :
  promptFound output prompts = true <->
  exists p pre post, In p prompts /\ output = pre ++ p ++ post.
Proof.
  unfold promptFound. rewrite existsb_exists. split.
  - intros [p [Hin Hc]]. apply Contains_iff in Hc as [pre [post H]].
    now exists p, pre, post.
  - intros [p [pre [post [Hin H]]]]. exists p. split; [assumption|].
    apply Contains_iff. now exists pre, post.
Qed.

Lemma patternFound_iff (output : string) (patterns : list string) :
  patternFound output patterns = true <->
  exists p pre post, In p patterns /\ ToLower output = pre ++ ToLower p ++ post.
Proof.
  unfold patternFound. rewrite existsb_exists. split.
  - intros [p [Hin Hc]]. apply Contains_iff in Hc as [pre [post H]].
    now exists p, pre, post.
  - intros [p [pre [post [Hin H]]]]. exists p. split; [assumption|].
    apply Contains_iff. now exists pre, post.
Qed.

(** ** Vendor command profile *)

Lemma commandsForVendor_known (v : string) :
  v = "huawei" \/ v = "zte" ->
  exists cmds, commandsForVendor v = (cmds, None) /\ cmds <> [].
Proof.
  intros [-> | ->]; eexists; (split; [reflexivity | discriminate]).
Qed.

Lemma commandsForVendor_unknown (v : string) :
  v <> "huawei" -> v <> "zte" ->
  commandsForVendor v =
    ([], Some (fmt_Errorf "vendor desconhecido: %q (use huawei/zte)" [ArgStr v])).
Proof.
  intros H1 H2. unfold commandsForVendor.
  apply String.eqb_neq in H1, H2. now rewrite H1, H2.
Qed.

Lemma commandsForVendor_ok_inv (v : string) (cmds : list string) :
  commandsForVendor v = (cmds, None) -> v = "huawei" \/ v = "zte".
Proof.
  unfold commandsForVendor.
  destruct (String.eqb_spec v "huawei") as [->|_]; [now left|].
  destruct (String.eqb_spec v "zte") as [->|_]; [now right|].
  discriminate.
Qed.

Lemma promptsForVendor_nonempty (v : string) : promptsForVendor v <> [].
Proof.
  unfold promptsForVendor.
  destruct (String.eqb v "huawei"); [discriminate|].
  destruct (String.eqb v "zte"); discriminate.
Qed.

(** An unknown vendor stops [runJob] at the lookup: the world is left as
    it was, nothing was dialled. *)
Lemma runJob_unknown_vendor (job : Job) (w : World) :
  isDone w = false ->
  Job_Vendor job <> "huawei" -> Job_Vendor job <> "zte" ->
  runJob job w =
    Some (Some (fmt_Errorf "vendor desconhecido: %q (use huawei/zte)"
                           [ArgStr (Job_Vendor job)]), w).
Proof.
  intros Hd H1 H2. unfold runJob, bind, ctxDone. rewrite Hd.
  now rewrite (commandsForVendor_unknown _ H1 H2).
Qed.

(** C2 (amended). For a vendor of the closed enumeration both lookups
    give non-empty results.  For any other string [commandsForVendor]
    fails with the unknown-vendor error, and [runJob] returns that error
    with the world untouched, so before any connection is attempted;
    [promptsForVendor] has no failure: it answers with the fallback
    prompts [">"], ["#"], ["$"]. *)
Theorem vendor_profile_lookup (v : string) :
  (v = "huawei" \/ v = "zte" ->
     (exists cmds, commandsForVendor v = (cmds, None) /\ cmds <> []) /\
     promptsForVendor v <> []) /\
  (v <> "huawei" -> v <> "zte" ->
     let e := fmt_Errorf "vendor desconhecido: %q (use huawei/zte)" [ArgStr v] in
     commandsForVendor v = ([], Some e) /\
     (forall job w, Job_Vendor job = v -> isDone w = false ->
        runJob job w = Some (Some e, w)) /\
     promptsForVendor v = [">"; "#"; "$"]).
Proof.
  split.
  - intros Hv. split; [now apply commandsForVendor_known | apply promptsForVendor_nonempty].
  - intros H1 H2 e. split; [|split].
    + now apply commandsForVendor_unknown.
    + intros job w <- Hd. now apply runJob_unknown_vendor.
    + unfold promptsForVendor. apply String.eqb_neq in H1, H2. now rewrite H1, H2.
Qed.

(** ** Job producer *)

Lemma fold_left_preserves {A B : Type} (f : A -> B -> A) (Q : A -> Prop) (l : list B) :
  forall a, Q a -> (forall acc x, In x l -> Q acc -> Q (f acc x)) -> Q (fold_left f l a).
Proof.
  induction l as [|x l IH]; intros a Ha Hstep; simpl; [assumption|].
  apply IH.
  - apply Hstep; [now left | assumption].
  - intros acc y Hy. apply Hstep. now right.
Qed.

Lemma enqueueAsset_resolved (cfg : Config) (outDir v pw : string) (g : Group)
    (acc : Produced) (a : Asset) :
  In g (Groups cfg) -> In a (Group_Assets g) ->
  Forall (resolvedFrom cfg) (queued acc) ->
  Forall (resolvedFrom cfg) (queued (enqueueAsset cfg outDir v pw g acc a)).
Proof.
  intros Hg Ha Hacc. unfold enqueueAsset.
  destruct (IsActive a) eqn:Hact; simpl; [|assumption].
  destruct (String.eqb _ ""); simpl; [assumption|].
  apply Forall_app. split; [assumption|].
  constructor; [|constructor].
  exists g, a. simpl. repeat split; assumption.
Qed.

Lemma enqueueJobs_resolved (cfg : Config) (outDir : string) :
  Forall (resolvedFrom cfg) (queued (enqueueJobs cfg outDir)).
Proof.
  unfold enqueueJobs.
  apply fold_left_preserves; [constructor|].
  intros acc g Hg Hacc. unfold enqueueGroup.
  apply fold_left_preserves; [assumption|].
  intros acc' a Ha Hacc'. now apply enqueueAsset_resolved.
Qed.

Lemma resolvePort_cases (a : Asset) (protocol : string) :
  resolvePort a protocol <> 0 /\
  (Asset_Port a = 0 -> protocol = "telnet" -> resolvePort a protocol = 23) /\
  (Asset_Port a = 0 -> protocol <> "telnet" -> resolvePort a protocol = 22) /\
  (Asset_Port a <> 0 -> resolvePort a protocol = Asset_Port a).
Proof.
  unfold resolvePort.
  destruct (Z.eqb_spec (Asset_Port a) 0) as [H0|H0];
    destruct (String.eqb_spec protocol "telnet") as [Hp|Hp];
    repeat split; intros; try congruence; try lia.
Qed.

(** C9. Every job that reaches the queue carries a port different from
    0: a configured port of 0 has been replaced by 23 when the resolved
    protocol is telnet and by 22 otherwise, and any other configured port
    is carried unchanged. *)
Theorem queued_job_port_resolved (cfg : Config) (outDir : string) (job : Job) :
  In job (queued (enqueueJobs cfg outDir)) ->
  Asset_Port (Job_Asset job) <> 0 /\
  exists g a,
    In g (Groups cfg) /\ In a (Group_Assets g) /\
    Job_Protocol job = resolveProtocol a /\
    Job_Asset job = withPort a (Asset_Port (Job_Asset job)) /\
    (Asset_Port a = 0 -> Job_Protocol job = "telnet" ->
       Asset_Port (Job_Asset job) = 23) /\
    (Asset_Port a = 0 -> Job_Protocol job <> "telnet" ->
       Asset_Port (Job_Asset job) = 22) /\
    (Asset_Port a <> 0 -> Asset_Port (Job_Asset job) = Asset_Port a).
Proof.
  intros Hin.
  pose proof (enqueueJobs_resolved cfg outDir) as Hall.
  rewrite Forall_forall in Hall.
  destruct (Hall job Hin) as [g [a [Hg [Ha [_ [Hp Hj]]]]]].
  destruct (resolvePort_cases a (resolveProtocol a)) as [Hnz [H23 [H22 Hkeep]]].
  rewrite Hj, Hp. simpl. split; [assumption|].
  exists g, a. repeat split; assumption.
Qed.

(** ** Transcript paths *)

Lemma sanitize_bytewise (s : string) :
  sanitize s = mapBytes sanitizeByte (TrimSpace s).
Proof.
  unfold sanitize, ReplaceAllByte. rewrite !mapBytes_mapBytes.
  apply mapBytes_ext. intros c. unfold sanitizeByte.
  destruct (Ascii.eqb_spec c ":") as [->|H1]; [reflexivity|].
  destruct (Ascii.eqb_spec c "/") as [->|H2]; [reflexivity|].
  destruct (Ascii.eqb_spec c "\") as [->|H3]; [reflexivity|].
  destruct (Ascii.eqb_spec c " ") as [->|H4]; reflexivity.
Qed.

Lemma sanitizeByte_avoids (c x : ascii) :
  In c [":"; "/"; "\"; " "]%char -> sanitizeByte x <> c.
Proof.
  intros Hc. unfold sanitizeByte.
  destruct (Ascii.eqb_spec x ":") as [->|H1]; simpl.
  { destruct Hc as [<-|[<-|[<-|[<-|[]]]]]; discriminate. }
  destruct (Ascii.eqb_spec x "/") as [->|H2]; simpl.
  { destruct Hc as [<-|[<-|[<-|[<-|[]]]]]; discriminate. }
  destruct (Ascii.eqb_spec x "\") as [->|H3]; simpl.
  { destruct Hc as [<-|[<-|[<-|[<-|[]]]]]; discriminate. }
  destruct (Ascii.eqb_spec x " ") as [->|H4]; simpl.
  { destruct Hc as [<-|[<-|[<-|[<-|[]]]]]; discriminate. }
  destruct Hc as [<-|[<-|[<-|[<-|[]]]]]; assumption.
Qed.

Lemma sanitize_avoids (c : ascii) (s : string) :
  In c [":"; "/"; "\"; " "]%char -> hasByte c (sanitize s) = false.
Proof.
  intros Hc. rewrite sanitize_bytewise.
  apply hasByte_mapBytes_none. intros x. now apply sanitizeByte_avoids.
Qed.

Lemma digitChar_digit (d : nat) :
  In (digitChar d) ["0"; "1"; "2"; "3"; "4"; "5"; "6"; "7"; "8"; "9"]%char.
Proof.
  do 9 (destruct d as [|d]; [simpl; tauto|]). simpl; tauto.
Qed.

Lemma hasByte_twoDigits (c : ascii) (n : Z) :
  ~ In c ["0"; "1"; "2"; "3"; "4"; "5"; "6"; "7"; "8"; "9"]%char ->
  hasByte c (twoDigits n) = false.
Proof.
  intros Hc. unfold twoDigits. simpl.
  rewrite orb_false_r. apply orb_false_iff.
  split; apply Ascii.eqb_neq; intros E; apply Hc; rewrite <- E; apply digitChar_digit.
Qed.

Lemma hasByte_formatHHMMSS (c : ascii) (t : Z) :
  ~ In c ["0"; "1"; "2"; "3"; "4"; "5"; "6"; "7"; "8"; "9"]%char ->
  hasByte c (formatHHMMSS t) = false.
Proof.
  intros Hc. unfold formatHHMMSS.
  now rewrite !hasByte_app, !hasByte_twoDigits.
Qed.

Lemma transcriptFilename_plain (job : Job) (t : Z) :
  Job_Vendor job = "huawei" \/ Job_Vendor job = "zte" ->
  Job_Protocol job = "telnet" \/ Job_Protocol job = "ssh" ->
  plainElem (transcriptFilename job t).
Proof.
  intros Hv Hp. unfold plainElem, transcriptFilename.
  assert (Hsep : forall c, In c ["/"; "\"]%char ->
            hasByte c (Job_Vendor job) = false /\ hasByte c (Job_Protocol job) = false /\
            hasByte c (formatHHMMSS t) = false /\
            hasByte c (sanitize (Asset_Name (Job_Asset job))) = false /\
            hasByte c (sanitize (Asset_Address (Job_Asset job))) = false).
  { intros c Hc. repeat split.
    - destruct Hv as [-> | ->]; destruct Hc as [<-|[<-|[]]]; reflexivity.
    - destruct Hp as [-> | ->]; destruct Hc as [<-|[<-|[]]]; reflexivity.
    - apply hasByte_formatHHMMSS.
      destruct Hc as [<-|[<-|[]]]; simpl; intuition discriminate.
    - apply sanitize_avoids. destruct Hc as [<-|[<-|[]]]; simpl; tauto.
    - apply sanitize_avoids. destruct Hc as [<-|[<-|[]]]; simpl; tauto. }
  assert (Ht : hasByte "t" (sanitize (Asset_Name (Job_Asset job)) ++ "__" ++
                 sanitize (Asset_Address (Job_Asset job)) ++ "__" ++ Job_Vendor job ++ "__" ++
                 Job_Protocol job ++ "__" ++ formatHHMMSS t ++ ".txt") = true).
  { rewrite !hasByte_app. simpl. now rewrite !orb_true_r. }
  repeat split.
  - destruct (Hsep "/"%char) as [H1 [H2 [H3 [H4 H5]]]]; [simpl; tauto|].
    rewrite !hasByte_app, H1, H2, H3, H4, H5. reflexivity.
  - destruct (Hsep "\"%char) as [H1 [H2 [H3 [H4 H5]]]]; [simpl; tauto|].
    rewrite !hasByte_app, H1, H2, H3, H4, H5. reflexivity.
  - intros E. rewrite E in Ht. discriminate.
  - intros E. rewrite E in Ht. discriminate.
  - intros E. rewrite E in Ht. discriminate.
Qed.

Lemma splitSlash_nonempty (s : string) : filepath.splitSlash s <> [].
Proof.
  destruct s as [|c s]; simpl; [discriminate|].
  destruct (Ascii.eqb c "/"); [discriminate|].
  destruct (filepath.splitSlash s); discriminate.
Qed.

Lemma splitSlash_plain (f : string) :
  hasByte "/" f = false -> filepath.splitSlash f = [f].
Proof.
  induction f as [|c f IH]; simpl; [reflexivity|].
  intros H. apply orb_false_iff in H as [Hc Hf].
  rewrite Hc, (IH Hf). reflexivity.
Qed.

Lemma splitSlash_app (base f : string) :
  hasByte "/" f = false ->
  filepath.splitSlash (base ++ "/" ++ f) = (filepath.splitSlash base ++ [f])%list.
Proof.
  intros Hf. induction base as [|c base IH]; simpl.
  - now rewrite (splitSlash_plain f Hf).
  - destruct (Ascii.eqb c "/").
    + simpl in IH. now rewrite IH.
    + simpl in IH. rewrite IH.
      pose proof (splitSlash_nonempty base) as Hne.
      destruct (filepath.splitSlash base) as [|h t]; [contradiction|reflexivity].
Qed.

Lemma cleanStep_plain (r : bool) (kept : list string) (f : string) :
  plainElem f -> filepath.cleanStep r kept f = (kept ++ [f])%list.
Proof.
  intros [_ [_ [H0 [H1 H2]]]]. unfold filepath.cleanStep.
  apply String.eqb_neq in H0, H1, H2. now rewrite H0, H1, H2.
Qed.

Lemma rooted_cons (c : ascii) (s : string) :
  filepath.rooted (String c s) = Ascii.eqb "/" c.
Proof. unfold filepath.rooted. cbn [HasPrefix]. apply andb_true_r. Qed.

Lemma rooted_app (base x : string) :
  base <> "" -> filepath.rooted (base ++ x) = filepath.rooted base.
Proof.
  destruct base as [|c base]; [contradiction|]. intros _.
  change (String c base ++ x) with (String c (base ++ x)). now rewrite !rooted_cons.
Qed.

(** Joining a directory with a plain element adds that element, and
    nothing else, below the cleaned directory. *)
Lemma Join_plain (base f : string) :
  plainElem f ->
  filepath.Join [base; f] =
    filepath.renderPath (filepath.rooted base) (filepath.pathElems base ++ [f]).
Proof.
  intros Hf. pose proof Hf as [Hsl [_ [H0 _]]].
  unfold filepath.Join. simpl.
  apply String.eqb_neq in H0. rewrite H0. simpl.
  destruct base as [|c base]; simpl.
  - unfold filepath.Clean, filepath.pathElems.
    rewrite (splitSlash_plain f Hsl). simpl.
    rewrite (cleanStep_plain _ [] f Hf).
    replace (filepath.rooted f) with false; [reflexivity|].
    destruct f as [|x f]; [reflexivity|]. simpl in Hsl.
    apply orb_false_iff in Hsl as [Hx _].
    rewrite rooted_cons, Ascii.eqb_sym. now rewrite Hx.
  - change (String c (base ++ String "/" f)) with (String c base ++ "/" ++ f).
    unfold filepath.Clean, filepath.pathElems.
    rewrite (rooted_app (String c base) ("/" ++ f)) by discriminate.
    rewrite (splitSlash_app (String c base) f Hsl), fold_left_app.
    cbn [fold_left]. now rewrite cleanStep_plain.
Qed.

(** [runJob] gets to the transcript path only with a vendor of the
    enumeration and the protocol telnet or ssh; otherwise it returns an
    error and leaves the world as it was. *)
Lemma runJob_stops_before_path (job : Job) (w : World) :
  ~ ((Job_Vendor job = "huawei" \/ Job_Vendor job = "zte") /\
     (Job_Protocol job = "telnet" \/ Job_Protocol job = "ssh")) ->
  exists e, runJob job w = Some (Some e, w).
Proof.
  intros H. unfold runJob, bind, ctxDone.
  destruct (isDone w); [eexists; reflexivity|].
  unfold commandsForVendor.
  destruct (String.eqb_spec (Job_Vendor job) "huawei") as [Hh|Hh];
    [|destruct (String.eqb_spec (Job_Vendor job) "zte") as [Hz|Hz]];
    try (eexists; reflexivity);
    (destruct (String.eqb_spec (Job_Protocol job) "telnet") as [Ht|Ht];
       [exfalso; apply H; auto|];
     destruct (String.eqb_spec (Job_Protocol job) "ssh") as [Hs|Hs];
       [exfalso; apply H; auto|];
     eexists; reflexivity).
Qed.

(** C10. For arbitrary asset name and address, [sanitize] leaves none of
    [:], [/], [\] and space in its result (what survives the trimming is
    mapped byte by byte, those four to [_]).  [runJob] builds the
    transcript path only for a known vendor and the protocol telnet or
    ssh (otherwise it returns an error with the world untouched); the
    file name then holds no path separator and is not [.] or [..], and
    the path joined from it is the cleaned output directory plus exactly
    that one element. *)
Theorem transcript_path_inside_basedir (job : Job) (t : Z) :
  (forall s, sanitize s = mapBytes sanitizeByte (TrimSpace s) /\
             forall c, In c [":"; "/"; "\"; " "]%char -> hasByte c (sanitize s) = false) /\
  ((Job_Vendor job = "huawei" \/ Job_Vendor job = "zte") /\
   (Job_Protocol job = "telnet" \/ Job_Protocol job = "ssh") ->
     plainElem (transcriptFilename job t) /\
     transcriptPath job t =
       filepath.renderPath (filepath.rooted (Job_BaseDir job))
         (filepath.pathElems (Job_BaseDir job) ++ [transcriptFilename job t])) /\
  (~ ((Job_Vendor job = "huawei" \/ Job_Vendor job = "zte") /\
      (Job_Protocol job = "telnet" \/ Job_Protocol job = "ssh")) ->
     forall w, exists e, runJob job w = Some (Some e, w)).
Proof.
  split; [|split].
  - intros s. split; [apply sanitize_bytewise|]. intros c Hc. now apply sanitize_avoids.
  - intros [Hv Hp]. split.
    + now apply transcriptFilename_plain.
    + unfold transcriptPath. apply Join_plain. now apply transcriptFilename_plain.
  - intros H w. now apply runJob_stops_before_path.
Qed.

(** ** Read loops *)

Lemma appendChunk_app (buf data : string) : appendChunk buf data = buf ++ data.
Proof.
  unfold appendChunk. destruct (String.eqb_spec data "") as [->|_]; [|reflexivity].
  induction buf as [|c buf IH]; simpl; [reflexivity | now rewrite <- IH].
Qed.

Lemma append_assoc (a b c : string) : (a ++ b) ++ c = a ++ b ++ c.
Proof. induction a as [|x a IH]; simpl; [reflexivity | now rewrite IH]. Qed.

Lemma passTime_nonneg (ev : ReadEv) : 0 <= passTime ev.
Proof. unfold passTime, GoTime.Millisecond. destruct (rerr ev); lia. Qed.

Lemma elapsed_nonneg (evs : list ReadEv) : 0 <= elapsed evs.
Proof.
  induction evs as [|ev r IH]; simpl; [lia|].
  pose proof (passTime_nonneg ev). lia.
Qed.

Lemma liveUntil_isDone (w : World) (t : Z) :
  liveUntil w t -> now w <= t -> isDone w = false.
Proof.
  unfold liveUntil, isDone. destruct (cancelAt w) as [tc|]; [|reflexivity].
  intros H1 H2. apply Z.leb_gt. lia.
Qed.

Lemma liveUntil_afterPass (w : World) (ev : ReadEv) (t : Z) :
  liveUntil w t -> liveUntil (afterPass w ev) t.
Proof. unfold liveUntil. simpl. auto. Qed.

(** The budget of passes is never what ends a loop: any two budgets
    larger than the number of answers left give the same run. *)
Ltac fuel_irrelevant IH :=
  unfold bind, ctxDone, timeNow, connRead, ret, timeSleep;
  repeat match goal with
  | |- context [if isDone ?w then _ else _] => destruct (isDone w); [reflexivity|]
  | |- context [if (?d <? now ?w) then _ else _] => destruct (d <? now w); [reflexivity|]
  end;
  match goal with
  | H1 : (List.length (inbound ?w) < _)%nat, H2 : (List.length (inbound ?w) < _)%nat |- _ =>
      destruct (inbound w) as [|ev rest]; [reflexivity|];
      cbn [rdata rerr List.length] in *;
      destruct (gotBytes (rdata ev) && _); [reflexivity|];
      destruct (rerr ev) as [e|];
      [ try (destruct (isEOF e); [reflexivity|]);
        destruct (isNetTimeout e); [apply IH; cbn [inbound]; lia | reflexivity]
      | apply IH; cbn [inbound]; lia ]
  end.

Lemma readUntilPrompt_loop_fuel (prompts : list string) (deadline : Z) :
  forall (fuel n : nat) (buf : string) (w : World),
    (List.length (inbound w) < fuel)%nat -> (List.length (inbound w) < n)%nat ->
    readUntilPrompt_loop fuel deadline prompts buf w =
    readUntilPrompt_loop n deadline prompts buf w.
Proof.
  induction fuel as [|fuel IH]; intros n buf w Hf Hn; [lia|].
  destruct n as [|n]; [lia|]. cbn [readUntilPrompt_loop]. fuel_irrelevant IH.
Qed.

Lemma readTelnetOutput_loop_fuel (prompts : list string) (deadline : Z) :
  forall (fuel n : nat) (buf : string) (w : World),
    (List.length (inbound w) < fuel)%nat -> (List.length (inbound w) < n)%nat ->
    readTelnetOutput_loop fuel deadline prompts buf w =
    readTelnetOutput_loop n deadline prompts buf w.
Proof.
  induction fuel as [|fuel IH]; intros n buf w Hf Hn; [lia|].
  destruct n as [|n]; [lia|]. cbn [readTelnetOutput_loop]. fuel_irrelevant IH.
Qed.

Lemma waitForString_loop_fuel (patterns : list string) (deadline : Z) :
  forall (fuel n : nat) (buf : string) (w : World),
    (List.length (inbound w) < fuel)%nat -> (List.length (inbound w) < n)%nat ->
    waitForString_loop fuel deadline patterns buf w =
    waitForString_loop n deadline patterns buf w.
Proof.
  induction fuel as [|fuel IH]; intros n buf w Hf Hn; [lia|].
  destruct n as [|n]; [lia|]. cbn [waitForString_loop]. fuel_irrelevant IH.
Qed.

Lemma passTime_err (ev : ReadEv) (e : error) :
  rerr ev = Some e -> passTime ev = Z.max 0 (rtook ev).
Proof. intros H. unfold passTime. rewrite H. lia. Qed.

Lemma passTime_ok (ev : ReadEv) :
  rerr ev = None -> passTime ev = Z.max 0 (rtook ev) + 100 * GoTime.Millisecond.
Proof. intros H. unfold passTime. now rewrite H. Qed.

(** One benign pass without a match, for any of the three loops: the
    checks at the top of the loop pass, the read is taken from the
    script, and the induction hypothesis [IH] covers the rest. *)
Ltac benign_pass IH Hin Hb Hnm Hrest Hdl Herr fuel buf ev rest :=
  unfold bind at 1; unfold timeNow at 1; rewrite Hdl;
  unfold bind at 1; unfold connRead at 1; rewrite Hin; cbn [app rdata rerr];
  rewrite appendChunk_app, Hnm;
  rewrite <- append_assoc;
  unfold benign in Hb;
  destruct (rerr ev) as [e|] eqn:Herr;
  [ destruct e; try discriminate; cbn [isEOF isNetTimeout];
    pose proof (passTime_err ev _ Herr);
    erewrite (IH fuel (buf ++ rdata ev) _ rest);
    [ f_equal; unfold afterPass, passTime; rewrite Herr, Hin; cbn [tl app];
      rewrite Z.add_0_r; reflexivity
    | reflexivity | assumption | cbn [now]; lia | .. ]
  | unfold bind at 1; unfold timeSleep at 1;
    cbn [now cancelAt inbound writeOutcome writeCount setup fsOutcome trace];
    replace (Z.max 0 (100 * GoTime.Millisecond)) with (100 * GoTime.Millisecond)
      by reflexivity;
    pose proof (passTime_ok ev Herr);
    erewrite (IH fuel (buf ++ rdata ev) _ rest);
    [ f_equal; unfold afterPass, passTime; rewrite Herr, Hin; cbn [tl app];
      rewrite <- app_assoc; cbn [app]; rewrite Z.add_assoc; reflexivity
    | reflexivity | assumption | cbn [now]; lia | .. ] ].

Ltac split_silent Hs Hb Hnm Hrest :=
  cbn [silent] in Hs; apply andb_true_iff in Hs as [Hs Hrest];
  apply andb_true_iff in Hs as [Hb Hnm]; apply negb_true_iff in Hnm.

Lemma append_empty_r (s : string) : s ++ "" = s.
Proof. induction s as [|c s IH]; simpl; [reflexivity | now rewrite IH]. Qed.

Lemma readUntilPrompt_loop_skip (prompts : list string) (deadline : Z) :
  forall (evs : list ReadEv) (fuel : nat) (buf : string) (w : World) (rest : list ReadEv),
    inbound w = (evs ++ rest)%list ->
    silent (fun b => promptFound b prompts) buf evs = true ->
    now w + elapsed evs <= deadline ->
    liveUntil w (now w + elapsed evs) ->
    readUntilPrompt_loop (List.length evs + fuel) deadline prompts buf w =
    readUntilPrompt_loop fuel deadline prompts (buf ++ received evs) (afterPasses w evs).
Proof.
  induction evs as [|ev evs IH]; intros fuel buf w rest Hin Hs Ht Hl.
  - simpl. now rewrite append_empty_r.
  - split_silent Hs Hb Hnm Hrest.
    cbn [elapsed] in Ht, Hl.
    pose proof (passTime_nonneg ev) as Hp. pose proof (elapsed_nonneg evs) as He'.
    change (afterPasses w (ev :: evs)) with (afterPasses (afterPass w ev) evs).
    cbn [List.length Nat.add readUntilPrompt_loop received].
    assert (Hd : isDone w = false) by (apply (liveUntil_isDone _ _ Hl); lia).
    assert (Hdl : (deadline <? now w) = false) by (apply Z.ltb_ge; lia).
    unfold bind at 1. unfold ctxDone at 1. rewrite Hd.
    benign_pass IH Hin Hb Hnm Hrest Hdl Herr fuel buf ev rest;
      (unfold liveUntil in *; cbn [cancelAt now]; destruct (cancelAt w); [lia | exact I]).
Qed.

Lemma readTelnetOutput_loop_skip (prompts : list string) (deadline : Z) :
  forall (evs : list ReadEv) (fuel : nat) (buf : string) (w : World) (rest : list ReadEv),
    inbound w = (evs ++ rest)%list ->
    silent (fun b => promptFound b prompts) buf evs = true ->
    now w + elapsed evs <= deadline ->
    readTelnetOutput_loop (List.length evs + fuel) deadline prompts buf w =
    readTelnetOutput_loop fuel deadline prompts (buf ++ received evs) (afterPasses w evs).
Proof.
  induction evs as [|ev evs IH]; intros fuel buf w rest Hin Hs Ht.
  - simpl. now rewrite append_empty_r.
  - split_silent Hs Hb Hnm Hrest.
    cbn [elapsed] in Ht.
    pose proof (passTime_nonneg ev) as Hp. pose proof (elapsed_nonneg evs) as He'.
    change (afterPasses w (ev :: evs)) with (afterPasses (afterPass w ev) evs).
    cbn [List.length Nat.add readTelnetOutput_loop received].
    assert (Hdl : (deadline <? now w) = false) by (apply Z.ltb_ge; lia).
    benign_pass IH Hin Hb Hnm Hrest Hdl Herr fuel buf ev rest.
Qed.

Lemma waitForString_loop_skip (patterns : list string) (deadline : Z) :
  forall (evs : list ReadEv) (fuel : nat) (buf : string) (w : World) (rest : list ReadEv),
    inbound w = (evs ++ rest)%list ->
    silent (fun b => patternFound b patterns) buf evs = true ->
    now w + elapsed evs <= deadline ->
    waitForString_loop (List.length evs + fuel) deadline patterns buf w =
    waitForString_loop fuel deadline patterns (buf ++ received evs) (afterPasses w evs).
Proof.
  induction evs as [|ev evs IH]; intros fuel buf w rest Hin Hs Ht.
  - simpl. now rewrite append_empty_r.
  - split_silent Hs Hb Hnm Hrest.
    cbn [elapsed] in Ht.
    pose proof (passTime_nonneg ev) as Hp. pose proof (elapsed_nonneg evs) as He'.
    change (afterPasses w (ev :: evs)) with (afterPasses (afterPass w ev) evs).
    cbn [List.length Nat.add waitForString_loop received].
    assert (Hdl : (deadline <? now w) = false) by (apply Z.ltb_ge; lia).
    benign_pass IH Hin Hb Hnm Hrest Hdl Herr fuel buf ev rest.
Qed.

Lemma afterPasses_facts (evs : list ReadEv) :
  forall (w : World) (rest : list ReadEv),
    inbound w = (evs ++ rest)%list ->
    inbound (afterPasses w evs) = rest /\
    now (afterPasses w evs) = now w + elapsed evs /\
    cancelAt (afterPasses w evs) = cancelAt w.
Proof.
  induction evs as [|ev evs IH]; intros w rest Hin.
  - simpl. repeat split; [assumption | lia].
  - change (afterPasses w (ev :: evs)) with (afterPasses (afterPass w ev) evs).
    destruct (IH (afterPass w ev) rest) as [H1 [H2 H3]].
    { simpl. now rewrite Hin. }
    rewrite H1, H2, H3. simpl. repeat split. lia.
Qed.

Lemma readUntilPrompt_unfold (timeout : Z) (prompts : list string) (w : World) :
  readUntilPrompt timeout prompts w =
  readUntilPrompt_loop (S (List.length (inbound w))) (now w + timeout) prompts "" w.
Proof. reflexivity. Qed.

Lemma readTelnetOutput_unfold (timeout : Z) (prompts : list string) (w : World) :
  readTelnetOutput timeout prompts w =
  readTelnetOutput_loop (S (List.length (inbound w))) (now w + timeout) prompts "" w.
Proof. reflexivity. Qed.

Lemma waitForString_unfold (timeout : Z) (patterns : list string) (w : World) :
  waitForString timeout patterns w =
  waitForString_loop (S (List.length (inbound w))) (now w + timeout) patterns "" w.
Proof. reflexivity. Qed.

Lemma budget_split (evs : list ReadEv) (ev : ReadEv) (rest : list ReadEv) :
  S (List.length (evs ++ ev :: rest)) = (List.length evs + S (S (List.length rest)))%nat.
Proof. rewrite length_app. simpl. lia. Qed.

Lemma afterRead_eq (w : World) (ev : ReadEv) (rest : list ReadEv) :
  inbound w = ev :: rest ->
  mkWorld (now w + Z.max 0 (rtook ev)) (cancelAt w) rest (writeOutcome w)
          (writeCount w) (setup w) (fsOutcome w) (trace w ++ [EvRecv ev]) = afterRead w ev.
Proof. intros H. unfold afterRead. now rewrite H. Qed.

Lemma readTelnetOutput_returns_on (timeout : Z) (prompts : list string) (w : World)
    (evs : list ReadEv) (ev : ReadEv) (rest : list ReadEv) :
  inbound w = (evs ++ ev :: rest)%list ->
  silent (fun b => promptFound b prompts) "" evs = true ->
  elapsed evs <= timeout ->
  (gotBytes (rdata ev) && promptFound (received evs ++ rdata ev) prompts = true) \/
  (exists e, rerr ev = Some e /\ isNetTimeout e = false) ->
  readTelnetOutput timeout prompts w =
    Some ((received evs ++ rdata ev, None), afterRead (afterPasses w evs) ev).
Proof.
  intros Hin Hs Ht Hret.
  rewrite readTelnetOutput_unfold, Hin, budget_split.
  rewrite (readTelnetOutput_loop_skip prompts _ evs _ "" w (ev :: rest) Hin Hs)
    by (apply Z.add_le_mono_l, Ht).
  cbn [readTelnetOutput_loop append].
  destruct (afterPasses_facts evs w (ev :: rest) Hin) as [Hi [Hn Hc]].
  assert (Hdl : (now w + timeout <? now (afterPasses w evs)) = false)
    by (apply Z.ltb_ge; rewrite Hn; apply Z.add_le_mono_l, Ht).
  unfold bind at 1. unfold timeNow at 1. rewrite Hdl.
  unfold bind at 1. unfold connRead at 1. rewrite Hi. cbn [rdata rerr].
  rewrite appendChunk_app, (afterRead_eq _ _ _ Hi).
  destruct Hret as [Hm | [e [He Hne]]].
  - now rewrite Hm.
  - destruct (gotBytes (rdata ev) && promptFound _ prompts); [reflexivity|].
    now rewrite He, Hne.
Qed.

Lemma readUntilPrompt_returns_on (timeout : Z) (prompts : list string) (w : World)
    (evs : list ReadEv) (ev : ReadEv) (rest : list ReadEv) :
  inbound w = (evs ++ ev :: rest)%list ->
  silent (fun b => promptFound b prompts) "" evs = true ->
  elapsed evs <= timeout ->
  liveUntil w (now w + elapsed evs) ->
  (gotBytes (rdata ev) && promptFound (received evs ++ rdata ev) prompts = true) \/
  rerr ev = Some io_EOF ->
  readUntilPrompt timeout prompts w =
    Some ((received evs ++ rdata ev, None), afterRead (afterPasses w evs) ev).
Proof.
  intros Hin Hs Ht Hl Hret.
  rewrite readUntilPrompt_unfold, Hin, budget_split.
  rewrite (readUntilPrompt_loop_skip prompts _ evs _ "" w (ev :: rest) Hin Hs)
    by (try apply Z.add_le_mono_l; assumption).
  cbn [readUntilPrompt_loop append].
  destruct (afterPasses_facts evs w (ev :: rest) Hin) as [Hi [Hn Hc]].
  assert (Hd : isDone (afterPasses w evs) = false).
  { unfold isDone. rewrite Hc, Hn. unfold liveUntil in Hl.
    destruct (cancelAt w); [apply Z.leb_gt; lia | reflexivity]. }
  assert (Hdl : (now w + timeout <? now (afterPasses w evs)) = false)
    by (apply Z.ltb_ge; rewrite Hn; apply Z.add_le_mono_l, Ht).
  unfold bind at 1. unfold ctxDone at 1. rewrite Hd.
  unfold bind at 1. unfold timeNow at 1. rewrite Hdl.
  unfold bind at 1. unfold connRead at 1. rewrite Hi. cbn [rdata rerr].
  rewrite appendChunk_app, (afterRead_eq _ _ _ Hi).
  destruct Hret as [Hm | He].
  - now rewrite Hm.
  - destruct (gotBytes (rdata ev) && promptFound _ prompts); [reflexivity|].
    now rewrite He.
Qed.

Lemma waitForString_returns_on (timeout : Z) (patterns : list string) (w : World)
    (evs : list ReadEv) (ev : ReadEv) (rest : list ReadEv) :
  inbound w = (evs ++ ev :: rest)%list ->
  silent (fun b => patternFound b patterns) "" evs = true ->
  elapsed evs <= timeout ->
  gotBytes (rdata ev) && patternFound (received evs ++ rdata ev) patterns = true ->
  waitForString timeout patterns w = Some (None, afterRead (afterPasses w evs) ev).
Proof.
  intros Hin Hs Ht Hm.
  rewrite waitForString_unfold, Hin, budget_split.
  rewrite (waitForString_loop_skip patterns _ evs _ "" w (ev :: rest) Hin Hs)
    by (apply Z.add_le_mono_l, Ht).
  cbn [waitForString_loop append].
  destruct (afterPasses_facts evs w (ev :: rest) Hin) as [Hi [Hn Hc]].
  assert (Hdl : (now w + timeout <? now (afterPasses w evs)) = false)
    by (apply Z.ltb_ge; rewrite Hn; apply Z.add_le_mono_l, Ht).
  unfold bind at 1. unfold timeNow at 1. rewrite Hdl.
  unfold bind at 1. unfold connRead at 1. rewrite Hi. cbn [rdata rerr].
  rewrite appendChunk_app, (afterRead_eq _ _ _ Hi). now rewrite Hm.
Qed.

(** C5. In both per-command read loops the prompts are looked for in the
    whole buffer accumulated since the call began: when, after reads that
    completed no match, a read delivers bytes that complete an occurrence
    of a prompt anywhere in the accumulation (possibly begun in earlier
    chunks), the loop returns at once, without error, everything
    accumulated, the prompt's text included. *)
Theorem prompt_searched_in_whole_buffer (timeout : Z) (prompts : list string) (w : World)
    (evs : list ReadEv) (ev : ReadEv) (rest : list ReadEv) :
  inbound w = (evs ++ ev :: rest)%list ->
  silent (fun b => promptFound b prompts) "" evs = true ->
  elapsed evs <= timeout ->
  rdata ev <> "" ->
  promptFound (received evs ++ rdata ev) prompts = true ->
  let out := received evs ++ rdata ev in
  let w' := afterRead (afterPasses w evs) ev in
  readTelnetOutput timeout prompts w = Some ((out, None), w') /\
  (liveUntil w (now w + elapsed evs) ->
     readUntilPrompt timeout prompts w = Some ((out, None), w')) /\
  exists p pre post, In p prompts /\ out = pre ++ p ++ post.
Proof.
  intros Hin Hs Ht Hne Hm out w'.
  assert (Hgot : gotBytes (rdata ev) && promptFound (received evs ++ rdata ev) prompts = true).
  { unfold gotBytes. apply String.eqb_neq in Hne. now rewrite Hne, Hm. }
  split; [|split].
  - eapply readTelnetOutput_returns_on; eauto.
  - intros Hl. eapply readUntilPrompt_returns_on; eauto.
  - now apply promptFound_iff.
Qed.

(** C6. In both per-command read loops a read that reports the end of the
    stream ends the call successfully: the loop returns what was
    accumulated, including the bytes that came with that read, and no
    error. *)
Theorem end_of_stream_returns_partial_data (timeout : Z) (prompts : list string) (w : World)
    (evs : list ReadEv) (ev : ReadEv) (rest : list ReadEv) :
  inbound w = (evs ++ ev :: rest)%list ->
  silent (fun b => promptFound b prompts) "" evs = true ->
  elapsed evs <= timeout ->
  rerr ev = Some io_EOF ->
  let out := received evs ++ rdata ev in
  let w' := afterRead (afterPasses w evs) ev in
  readTelnetOutput timeout prompts w = Some ((out, None), w') /\
  (liveUntil w (now w + elapsed evs) ->
     readUntilPrompt timeout prompts w = Some ((out, None), w')).
Proof.
  intros Hin Hs Ht He out w'. split.
  - eapply readTelnetOutput_returns_on; eauto.
  - intros Hl. eapply readUntilPrompt_returns_on; eauto.
Qed.

(** By contrast, the login handshake reports the end of the stream as an
    error. *)
Lemma waitForString_end_of_stream (timeout : Z) (patterns : list string) (w : World)
    (ev : ReadEv) (rest : list ReadEv) :
  inbound w = ev :: rest -> 0 <= timeout ->
  rerr ev = Some io_EOF ->
  gotBytes (rdata ev) && patternFound (rdata ev) patterns = false ->
  waitForString timeout patterns w = Some (Some io_EOF, afterRead w ev).
Proof.
  intros Hin Ht He Hnm.
  rewrite waitForString_unfold, Hin. cbn [List.length waitForString_loop].
  assert (Hdl : (now w + timeout <? now w) = false) by (apply Z.ltb_ge; lia).
  unfold bind at 1. unfold timeNow at 1. rewrite Hdl.
  unfold bind at 1. unfold connRead at 1. rewrite Hin. cbn [rdata rerr].
  rewrite appendChunk_app. cbn [append]. rewrite Hnm, He. cbn [isNetTimeout].
  unfold ret. now rewrite <- (afterRead_eq w ev rest Hin).
Qed.

(** *** Letter case *)

Lemma isByteASCII_upperByte (c : ascii) : isByteASCII (upperByte c) = isByteASCII c.
Proof. destruct c as [[] [] [] [] [] [] [] []]; reflexivity. Qed.

Lemma lowerByte_upperByte (c : ascii) : lowerByte (upperByte c) = lowerByte c.
Proof. destruct c as [[] [] [] [] [] [] [] []]; reflexivity. Qed.

Lemma isASCII_upper (s : string) : isASCII (mapBytes upperByte s) = isASCII s.
Proof.
  induction s as [|c s IH]; simpl; [reflexivity|].
  now rewrite isByteASCII_upperByte, IH.
Qed.

Lemma lowerByte_cases (b : ascii) :
  lowerByte b = b \/ (isByteASCII b = true /\ isByteASCII (lowerByte b) = true).
Proof.
  destruct b as [[] [] [] [] [] [] [] []];
    first [left; reflexivity | right; split; reflexivity].
Qed.

Lemma lowerByte_high (b : ascii) : isByteASCII b = false -> lowerByte b = b.
Proof. destruct (lowerByte_cases b) as [H|[H _]]; [auto | congruence]. Qed.

Lemma isByteASCII_lowerByte (b : ascii) : isByteASCII (lowerByte b) = isByteASCII b.
Proof. destruct (lowerByte_cases b) as [->|[-> ->]]; reflexivity. Qed.

Lemma lowerByte_idem (b : ascii) : lowerByte (lowerByte b) = lowerByte b.
Proof. destruct b as [[] [] [] [] [] [] [] []]; reflexivity. Qed.

Lemma isASCII_lower (s : string) : isASCII (mapBytes lowerByte s) = isASCII s.
Proof.
  induction s as [|c s IH]; simpl; [reflexivity|].
  now rewrite isByteASCII_lowerByte, IH.
Qed.

Lemma byteVal_ascii (b : ascii) : isByteASCII b = true -> byteVal b < 128.
Proof.
  destruct b as [[] [] [] [] [] [] [] []]; intros H; try discriminate H; reflexivity.
Qed.

Lemma byteIn_ascii (lo hi : Z) (b : ascii) :
  128 <= lo -> isByteASCII b = true -> byteIn lo hi b = false.
Proof.
  intros Hlo Hb. unfold byteIn. apply andb_false_iff. left. apply Z.leb_gt.
  pose proof (byteVal_ascii b Hb). lia.
Qed.

Lemma byteIn_lower (lo hi : Z) (b : ascii) :
  128 <= lo -> byteIn lo hi (lowerByte b) = byteIn lo hi b.
Proof.
  intros Hlo. destruct (lowerByte_cases b) as [->|[H1 H2]]; [reflexivity|].
  now rewrite !byteIn_ascii.
Qed.

Lemma byteIn_high (lo hi : Z) (b : ascii) :
  128 <= lo -> byteIn lo hi b = true -> lowerByte b = b.
Proof.
  intros Hlo Hin. apply lowerByte_high.
  destruct (isByteASCII b) eqn:Hb; [|reflexivity].
  rewrite (byteIn_ascii lo hi b Hlo Hb) in Hin. discriminate.
Qed.

Lemma second3_lower (b0 b1 : ascii) : second3 b0 (lowerByte b1) = second3 b0 b1.
Proof. unfold second3. now rewrite !byteIn_lower by lia. Qed.

Lemma second4_lower (b0 b1 : ascii) : second4 b0 (lowerByte b1) = second4 b0 b1.
Proof. unfold second4. now rewrite !byteIn_lower by lia. Qed.

Lemma second3_high (b0 b1 : ascii) : second3 b0 b1 = true -> lowerByte b1 = b1.
Proof.
  unfold second3. destruct (byteIn 224 224 b0); [|destruct (byteIn 237 237 b0)];
    apply byteIn_high; lia.
Qed.

Lemma second4_high (b0 b1 : ascii) : second4 b0 b1 = true -> lowerByte b1 = b1.
Proof.
  unfold second4. destruct (byteIn 240 240 b0); [|destruct (byteIn 244 244 b0)];
    apply byteIn_high; lia.
Qed.

Lemma runes_cons (b0 : ascii) (r0 : string) :
  runes (String b0 r0) =
    if isByteASCII b0 then byteVal b0 :: runes r0
    else
      match r0 with
      | EmptyString => RuneError :: runes r0
      | String b1 r1 =>
          if byteIn 194 223 b0 then
            if byteIn 128 191 b1
            then (byteVal b0 mod 32 * 64 + byteVal b1 mod 64) :: runes r1
            else RuneError :: runes r0
          else if byteIn 224 239 b0 then
            match r1 with
            | String b2 r2 =>
                if second3 b0 b1 && byteIn 128 191 b2
                then (byteVal b0 mod 16 * 4096 + byteVal b1 mod 64 * 64
                      + byteVal b2 mod 64) :: runes r2
                else RuneError :: runes r0
            | EmptyString => RuneError :: runes r0
            end
          else if byteIn 240 244 b0 then
            match r1 with
            | String b2 (String b3 r3) =>
                if second4 b0 b1 && byteIn 128 191 b2 && byteIn 128 191 b3
                then (byteVal b0 mod 8 * 262144 + byteVal b1 mod 64 * 4096
                      + byteVal b2 mod 64 * 64 + byteVal b3 mod 64) :: runes r3
                else RuneError :: runes r0
            | _ => RuneError :: runes r0
            end
          else RuneError :: runes r0
      end.
Proof. reflexivity. Qed.

Lemma unicode_ToLower_lowerByte (b : ascii) :
  isByteASCII b = true ->
  unicode_ToLower (byteVal (lowerByte b)) = unicode_ToLower (byteVal b).
Proof.
  destruct b as [[] [] [] [] [] [] [] []]; intros H; try discriminate H; reflexivity.
Qed.

Lemma write_lower_ascii (b : ascii) :
  isByteASCII b = true ->
  writeRunes [unicode_ToLower (byteVal b)] = String (lowerByte b) EmptyString.
Proof.
  destruct b as [[] [] [] [] [] [] [] []]; intros H; try discriminate H; reflexivity.
Qed.

(** Changing the case of ASCII letters changes no character above
    ASCII, and no byte that is read as [RuneError]. *)
Lemma runes_lowerByte (n : nat) :
  forall s, (String.length s <= n)%nat ->
    map unicode_ToLower (runes (mapBytes lowerByte s)) = map unicode_ToLower (runes s).
Proof.
  induction n as [|n IH]; intros s Hlen.
  { destruct s; [reflexivity | cbn in Hlen; lia]. }
  destruct s as [|b0 r0]; [reflexivity|]. cbn [String.length] in Hlen.
  assert (Hbad : map unicode_ToLower (RuneError :: runes (mapBytes lowerByte r0)) =
                 map unicode_ToLower (RuneError :: runes r0)).
  { cbn [map]. f_equal. apply IH. lia. }
  cbn [mapBytes]. rewrite (runes_cons (lowerByte b0)), (runes_cons b0).
  rewrite isByteASCII_lowerByte.
  destruct (isByteASCII b0) eqn:Hb0.
  { cbn [map]. f_equal; [now apply unicode_ToLower_lowerByte | apply IH; lia]. }
  rewrite (lowerByte_high b0 Hb0).
  destruct r0 as [|b1 r1]; [reflexivity|].
  cbn [String.length] in Hlen. cbn [mapBytes] in *.
  rewrite byteIn_lower, second3_lower, second4_lower by lia.
  destruct (byteIn 194 223 b0).
  { destruct (byteIn 128 191 b1) eqn:H1; [|exact Hbad].
    rewrite (byteIn_high 128 191 b1 ltac:(lia) H1). cbn [map]. f_equal. apply IH. lia. }
  destruct (byteIn 224 239 b0).
  { destruct r1 as [|b2 r2]; [exact Hbad|].
    cbn [String.length] in Hlen. cbn [mapBytes] in *.
    rewrite byteIn_lower by lia.
    destruct (second3 b0 b1) eqn:H1; [|exact Hbad].
    destruct (byteIn 128 191 b2) eqn:H2; [|exact Hbad]. cbn [andb].
    rewrite (second3_high _ _ H1), (byteIn_high 128 191 b2 ltac:(lia) H2).
    cbn [map]. f_equal. apply IH. lia. }
  destruct (byteIn 240 244 b0); [|exact Hbad].
  destruct r1 as [|b2 r2]; [exact Hbad|].
  destruct r2 as [|b3 r3]; [exact Hbad|].
  cbn [String.length] in Hlen. cbn [mapBytes] in *.
  rewrite !byteIn_lower by lia.
  destruct (second4 b0 b1) eqn:H1; [|exact Hbad].
  destruct (byteIn 128 191 b2) eqn:H2; [|exact Hbad].
  destruct (byteIn 128 191 b3) eqn:H3; [|exact Hbad]. cbn [andb].
  rewrite (second4_high _ _ H1), (byteIn_high 128 191 b2 ltac:(lia) H2),
    (byteIn_high 128 191 b3 ltac:(lia) H3).
  cbn [map]. f_equal. apply IH. lia.
Qed.

Lemma writeRunes_cons (r : Z) (rs : list Z) :
  writeRunes (r :: rs) = writeRunes [r] ++ writeRunes rs.
Proof. cbn [writeRunes]. now rewrite append_empty_r. Qed.

(** On ASCII-only strings the byte-wise path of [strings.ToLower] gives
    what [Map(unicode.ToLower, s)] would give. *)
Lemma Map_ToLower_ascii (s : string) :
  isASCII s = true -> Map unicode_ToLower s = mapBytes lowerByte s.
Proof.
  unfold Map. induction s as [|b s IH]; [reflexivity|]. cbn [isASCII].
  intros H. apply andb_true_iff in H as [Hb Hs].
  rewrite runes_cons, Hb. cbn [map mapBytes].
  rewrite writeRunes_cons, (write_lower_ascii b Hb), (IH Hs). reflexivity.
Qed.

Lemma ToLower_Map (s : string) : ToLower s = Map unicode_ToLower s.
Proof.
  unfold ToLower. destruct (isASCII s) eqn:H; [|reflexivity].
  symmetry. now apply Map_ToLower_ascii.
Qed.

Lemma ToLower_sameLetters (a b : string) : sameLetters a b -> ToLower a = ToLower b.
Proof. unfold sameLetters. intros H. rewrite !ToLower_Map. unfold Map. now rewrite H. Qed.

Lemma sameButASCIICase_sameLetters (a b : string) :
  sameButASCIICase a b -> sameLetters a b.
Proof.
  unfold sameButASCIICase, sameLetters. intros H.
  rewrite <- (runes_lowerByte (String.length a) a (le_n _)).
  rewrite <- (runes_lowerByte (String.length b) b (le_n _)).
  now rewrite H.
Qed.

Lemma sameButASCIICase_upper (s : string) : sameButASCIICase (mapBytes upperByte s) s.
Proof.
  unfold sameButASCIICase. rewrite mapBytes_mapBytes.
  apply mapBytes_ext, lowerByte_upperByte.
Qed.

Lemma ToLower_upper (s : string) : ToLower (mapBytes upperByte s) = ToLower s.
Proof. apply ToLower_sameLetters, sameButASCIICase_sameLetters, sameButASCIICase_upper. Qed.

Lemma patternFound_fold (out out' : string) (pats pats' : list string) :
  ToLower out = ToLower out' -> map ToLower pats = map ToLower pats' ->
  patternFound out pats = patternFound out' pats'.
Proof.
  intros Ho Hp. unfold patternFound. rewrite Ho.
  transitivity (existsb (fun q => Contains (ToLower out') q) (map ToLower pats)).
  - clear. induction pats as [|p pats IH]; simpl; [reflexivity | now rewrite IH].
  - rewrite Hp. clear. induction pats' as [|p pats IH]; simpl; [reflexivity | now rewrite IH].
Qed.

Lemma sameLetters_patterns (pats pats' : list string) :
  Forall2 sameLetters pats pats' -> map ToLower pats = map ToLower pats'.
Proof.
  induction 1 as [|p p' pats pats' Hp _ IH]; [reflexivity|].
  cbn [map]. now rewrite (ToLower_sameLetters p p' Hp), IH.
Qed.

(** C7. The per-command loops ([readTelnetOutput], [readUntilPrompt])
    detect a prompt when its exact bytes occur in the buffer, so letter
    case matters there.  The login handshake ([waitForString]) detects a
    pattern when it occurs after both the buffer and the pattern went
    through [strings.ToLower], which lowers every character of a string,
    whatever its bytes; so, for every buffer and every set of patterns,
    the verdict is the same for any other buffer and patterns with the
    same characters up to the case [unicode.ToLower] removes, and in
    particular for any that differ only in the case of ASCII letters.
    Each loop returns at the first read that brings bytes and completes
    a match of its kind. *)
Theorem prompt_case_rules (timeout : Z) (pats : list string) (w : World)
    (evs : list ReadEv) (ev : ReadEv) (rest : list ReadEv) :
  (forall output, promptFound output pats = true <->
     exists p pre post, In p pats /\ output = pre ++ p ++ post) /\
  (forall output, patternFound output pats = true <->
     exists p pre post, In p pats /\ ToLower output = pre ++ ToLower p ++ post) /\
  (forall s, ToLower s = Map unicode_ToLower s) /\
  (forall output output' pats',
     sameLetters output output' -> Forall2 sameLetters pats pats' ->
     patternFound output' pats' = patternFound output pats) /\
  (forall output output' pats',
     sameButASCIICase output output' -> Forall2 sameButASCIICase pats pats' ->
     patternFound output' pats' = patternFound output pats) /\
  (forall output,
     patternFound (mapBytes upperByte output) pats = patternFound output pats /\
     patternFound output (map (mapBytes upperByte) pats) = patternFound output pats) /\
  (inbound w = (evs ++ ev :: rest)%list -> elapsed evs <= timeout -> rdata ev <> "" ->
     let out := received evs ++ rdata ev in
     let w' := afterRead (afterPasses w evs) ev in
     (silent (fun b => promptFound b pats) "" evs = true ->
      promptFound out pats = true ->
        readTelnetOutput timeout pats w = Some ((out, None), w') /\
        (liveUntil w (now w + elapsed evs) ->
           readUntilPrompt timeout pats w = Some ((out, None), w'))) /\
     (silent (fun b => patternFound b pats) "" evs = true ->
      patternFound out pats = true ->
        waitForString timeout pats w = Some (None, w'))).
Proof.
  split; [|split; [|split; [|split; [|split; [|split]]]]].
  - intros output. apply promptFound_iff.
  - intros output. apply patternFound_iff.
  - apply ToLower_Map.
  - intros output output' pats' Ho Hp. symmetry.
    apply patternFound_fold; [now apply ToLower_sameLetters | now apply sameLetters_patterns].
  - intros output output' pats' Ho Hp. symmetry.
    apply patternFound_fold; [now apply ToLower_sameLetters, sameButASCIICase_sameLetters|].
    apply sameLetters_patterns. eapply Forall2_impl; [|exact Hp].
    apply sameButASCIICase_sameLetters.
  - intros output. split.
    + apply patternFound_fold; [apply ToLower_upper | reflexivity].
    + apply patternFound_fold; [reflexivity|].
      rewrite map_map. apply map_ext. intros p. apply ToLower_upper.
  - intros Hin Ht Hne out w'. subst out w'.
    assert (Hg : gotBytes (rdata ev) = true).
    { unfold gotBytes. apply String.eqb_neq in Hne. now rewrite Hne. }
    split.
    + intros Hs Hm. split.
      * eapply readTelnetOutput_returns_on; eauto. left. now rewrite Hg, Hm.
      * intros Hl. eapply readUntilPrompt_returns_on; eauto. left. now rewrite Hg, Hm.
    + intros Hs Hm. eapply waitForString_returns_on; eauto. now rewrite Hg, Hm.
Qed.

(** ** Retry controller *)

Lemma backoffFor_exact (i : Z) :
  0 <= i <= maxBackoffIndex -> backoffFor i = i * (2 * GoTime.Second).
Proof.
  unfold maxBackoffIndex, backoffFor, Int64.mul, GoTime.Second. intros H.
  rewrite (wrap64_small (i * 2)).
  - rewrite wrap64_small; [lia|].
    unfold Int64.in_range, Int64.min_int, Int64.max_int. lia.
  - unfold Int64.in_range, Int64.min_int, Int64.max_int. lia.
Qed.

Lemma retryLoop_pass (exec : M (option error)) (job : Job) (maxRetries : Z) (fuel : nat)
    (attempt : Z) (lastErr : option error) (calls : list Attempt) (w : World) :
  attempt <= maxRetries -> isDone w = false ->
  retryLoop exec job maxRetries (S fuel) attempt lastErr calls w =
  let w1 := beforeAttempt job maxRetries attempt w in
  match exec w1 with
  | None => None
  | Some (None, w2) =>
      Some ((None, calls ++ [mkAttempt attempt (now w) (now w1) None])%list, w2)
  | Some (Some e, w2) =>
      retryLoop exec job maxRetries fuel (Int64.add attempt 1) (Some e)
                (calls ++ [mkAttempt attempt (now w) (now w1) (Some e)])%list w2
  end.
Proof.
  intros Hle Hd. cbn [retryLoop].
  apply Z.leb_le in Hle. rewrite Hle.
  unfold bind at 1. unfold ctxDone at 1. rewrite Hd.
  unfold bind at 1. unfold timeNow at 1.
  unfold beforeAttempt. destruct (0 <? attempt).
  - unfold bind, slog, emit, timeSleep, timeNow, ret, afterBackoff.
    cbn [now cancelAt inbound writeOutcome writeCount setup fsOutcome trace].
    destruct (exec _) as [[[e|] w2]|]; reflexivity.
  - unfold bind, timeNow, ret.
    destruct (exec w) as [[[e|] w2]|]; reflexivity.
Qed.

Lemma retryLoop_cancelled (exec : M (option error)) (job : Job) (maxRetries : Z) (fuel : nat)
    (attempt : Z) (lastErr : option error) (calls : list Attempt) (w : World) :
  attempt <= maxRetries -> isDone w = true ->
  retryLoop exec job maxRetries (S fuel) attempt lastErr calls w =
    Some ((Some ctx_Canceled, calls), w).
Proof.
  intros Hle Hd. cbn [retryLoop]. apply Z.leb_le in Hle. rewrite Hle.
  unfold bind, ctxDone. now rewrite Hd.
Qed.

Lemma retryLoop_exhausted (exec : M (option error)) (job : Job) (maxRetries : Z) (fuel : nat)
    (attempt : Z) (lastErr : option error) (calls : list Attempt) (w : World) :
  maxRetries < attempt ->
  retryLoop exec job maxRetries (S fuel) attempt lastErr calls w =
    Some ((Some (fmt_Errorf "falhou após %d tentativas: %w"
                            [ArgInt (Int64.add maxRetries 1); errArg lastErr]), calls), w).
Proof.
  intros Hlt. cbn [retryLoop]. apply Z.leb_gt in Hlt. now rewrite Hlt.
Qed.

Lemma beforeAttempt_clock (job : Job) (maxRetries attempt : Z) (w : World) (res : option error) :
  waitedAsScheduled
    (mkAttempt attempt (now w) (now (beforeAttempt job maxRetries attempt w)) res).
Proof.
  unfold waitedAsScheduled, beforeAttempt. cbn [att_index att_checked att_started]. split.
  - intros ->. reflexivity.
  - intros H. destruct (Z.ltb_spec 0 attempt); [|lia].
    cbn [afterBackoff now]. rewrite backoffFor_exact by lia.
    unfold GoTime.Second. lia.
Qed.

Lemma retryLoop_calls_scheduled (exec : M (option error)) (job : Job) (maxRetries : Z) :
  forall (fuel : nat) (attempt : Z) (lastErr : option error) (calls : list Attempt)
         (w : World) r calls' w',
    Forall waitedAsScheduled calls ->
    retryLoop exec job maxRetries fuel attempt lastErr calls w = Some ((r, calls'), w') ->
    Forall waitedAsScheduled calls'.
Proof.
  induction fuel as [|fuel IH]; intros attempt lastErr calls w r calls' w' Hc Hrun.
  - discriminate.
  - destruct (Z.leb_spec attempt maxRetries) as [Hle|Hgt].
    + destruct (isDone w) eqn:Hd.
      * rewrite retryLoop_cancelled in Hrun by assumption.
        injection Hrun as _ <- _. assumption.
      * rewrite retryLoop_pass in Hrun by assumption. cbv zeta in Hrun.
        destruct (exec _) as [[[e|] w2]|]; [ | | discriminate].
        -- eapply IH; [|exact Hrun].
           apply Forall_app. split; [assumption|].
           constructor; [apply beforeAttempt_clock | constructor].
        -- injection Hrun as _ <- _.
           apply Forall_app. split; [assumption|].
           constructor; [apply beforeAttempt_clock | constructor].
    + rewrite retryLoop_exhausted in Hrun by assumption.
      injection Hrun as _ <- _. assumption.
Qed.

Lemma beforeAttempt_first (job : Job) (maxRetries : Z) (w : World) :
  beforeAttempt job maxRetries 0 w = w.
Proof. reflexivity. Qed.

Lemma beforeAttempt_retry (job : Job) (maxRetries attempt : Z) (w : World) :
  0 < attempt <= maxBackoffIndex ->
  now (beforeAttempt job maxRetries attempt w) = now w + attempt * (2 * GoTime.Second) /\
  cancelAt (beforeAttempt job maxRetries attempt w) = cancelAt w /\
  In (EvSleep (attempt * (2 * GoTime.Second)))
     (trace (beforeAttempt job maxRetries attempt w)).
Proof.
  intros H. unfold beforeAttempt. destruct (Z.ltb_spec 0 attempt); [|lia].
  cbn [afterBackoff now cancelAt trace]. rewrite backoffFor_exact by lia.
  repeat split.
  - unfold GoTime.Second. lia.
  - apply in_or_app. right. now left.
Qed.

(** C3 (amended). Before retry attempt [i > 0] (with [i * 2 s] within a
    64-bit duration) the controller sleeps [i * 2] seconds, and it does
    not sleep before attempt 0.  Cancellation is looked at only when an
    iteration begins: if it is signalled by then, the controller returns
    the cancellation error without entering a wait and without calling
    the executor; a wait that was entered lasts its full time whenever
    cancellation is signalled, and the executor is called after it. *)
Theorem backoff_schedule (exec : M (option error)) (job : Job) (maxRetries : Z) :
  (forall attempt lastErr calls0 w0 fuel0,
     attempt <= maxRetries -> isDone w0 = false ->
     let w1 := beforeAttempt job maxRetries attempt w0 in
     retryLoop exec job maxRetries (S fuel0) attempt lastErr calls0 w0 =
       match exec w1 with
       | None => None
       | Some (None, w2) =>
           Some ((None, calls0 ++ [mkAttempt attempt (now w0) (now w1) None])%list, w2)
       | Some (Some e, w2) =>
           retryLoop exec job maxRetries fuel0 (Int64.add attempt 1) (Some e)
                     (calls0 ++ [mkAttempt attempt (now w0) (now w1) (Some e)])%list w2
       end /\
     (attempt = 0 -> w1 = w0) /\
     (0 < attempt <= maxBackoffIndex ->
        now w1 = now w0 + attempt * (2 * GoTime.Second) /\
        cancelAt w1 = cancelAt w0 /\
        In (EvSleep (attempt * (2 * GoTime.Second))) (trace w1))) /\
  (forall attempt lastErr calls0 w0 fuel0,
     attempt <= maxRetries -> isDone w0 = true ->
     retryLoop exec job maxRetries (S fuel0) attempt lastErr calls0 w0 =
       Some ((Some ctx_Canceled, calls0), w0)) /\
  (forall fuel w r calls w',
     retryWith exec fuel job maxRetries w = Some ((r, calls), w') ->
     Forall waitedAsScheduled calls).
Proof.
  split; [|split].
  - intros attempt lastErr calls0 w0 fuel0 Hle Hd w1. split; [|split].
    + now apply retryLoop_pass.
    + intros ->. apply beforeAttempt_first.
    + intros H. now apply beforeAttempt_retry.
  - intros. now apply retryLoop_cancelled.
  - intros fuel w r calls w' Hrun.
    eapply retryLoop_calls_scheduled; [|exact Hrun]. constructor.
Qed.


Lemma isDone_never (w : World) : cancelAt w = None -> isDone w = false.
Proof. unfold isDone. now intros ->. Qed.




(** C8. With cancellation signalled before the job starts, the executor
    returns the cancellation error itself and leaves the world untouched
    (no lookup, no dial, no I/O), and so does the controller, for the
    retry count the program passes to it, without calling the executor. *)
Theorem cancelled_before_start (job : Job) (cfg : Config) (fuel : nat) (w : World) :
  isDone w = true ->
  runJob job w = Some (Some ctx_Canceled, w) /\
  runJobWithRetry (S fuel) job (MaxRetries (applyDefaults cfg)) w =
    Some (Some ctx_Canceled, w) /\
  forall exec,
    retryWith exec (S fuel) job (MaxRetries (applyDefaults cfg)) w =
      Some ((Some ctx_Canceled, []), w).
Proof.
  intros Hd.
  assert (H0 : 0 <= MaxRetries (applyDefaults cfg)).
  { unfold applyDefaults. cbn [MaxRetries].
    destruct (Z.ltb_spec (MaxRetries cfg) 0); lia. }
  split; [|split].
  - unfold runJob, bind, ctxDone. now rewrite Hd.
  - unfold runJobWithRetry, retryWith, bind.
    now rewrite retryLoop_cancelled.
  - intros exec. unfold retryWith. now rewrite retryLoop_cancelled.
Qed.

(** ** Command loops *)

Lemma telnetCommandLoop_write_failure (job : Job) (prompts : list string) (cmd : string)
    (rest : list string) (result : string) (w : World) (e : error) :
  isDone w = false -> TrimSpace cmd <> "" ->
  writeOutcome w (writeCount w) = Some e ->
  telnetCommandLoop job prompts (cmd :: rest) result w =
  telnetCommandLoop job prompts rest (result ++ cmdHeader (TrimSpace cmd))
                    (afterFailedSend w (TrimSpace cmd) e true).
Proof.
  intros Hd Hne Hw. cbn [telnetCommandLoop].
  unfold bind at 1. unfold ctxDone at 1. rewrite Hd.
  apply String.eqb_neq in Hne. rewrite Hne.
  unfold bind at 1. unfold connWrite at 1. rewrite Hw.
  unfold bind at 1. unfold slog, emit. reflexivity.
Qed.

Lemma sshCommandLoop_write_failure (job : Job) (prompts : list string) (cmd : string)
    (rest : list string) (result : string) (w : World) (e : error) :
  isDone w = false -> TrimSpace cmd <> "" ->
  writeOutcome w (writeCount w) = Some e ->
  sshCommandLoop job prompts (cmd :: rest) result w =
    Some ((result ++ cmdHeader (TrimSpace cmd),
           Some (fmt_Errorf "write cmd %q: %w" [ArgStr (TrimSpace cmd); ArgErr e])),
          afterFailedSend w (TrimSpace cmd) e false).
Proof.
  intros Hd Hne Hw. cbn [sshCommandLoop].
  unfold bind at 1. unfold ctxDone at 1. rewrite Hd.
  apply String.eqb_neq in Hne. rewrite Hne.
  unfold bind at 1. unfold connWrite at 1. rewrite Hw. reflexivity.
Qed.

(** On the Telnet path, even if every write fails the loop runs through
    all the commands and ends without error. *)
Lemma telnetCommandLoop_all_writes_fail (job : Job) (prompts : list string) :
  forall (cmds : list string) (result : string) (w : World),
    cancelAt w = None ->
    (forall k, writeOutcome w k <> None) ->
    exists out w',
      telnetCommandLoop job prompts cmds result w = Some ((out, None), w') /\
      Z.of_nat (writeCount w') - Z.of_nat (writeCount w) =
        Z.of_nat (List.length (filter (fun c => negb (String.eqb (TrimSpace c) "")) cmds)).
Proof.
  induction cmds as [|cmd cmds IH]; intros result w Hc Hw.
  - exists result, w. split; [reflexivity | simpl; lia].
  - destruct (String.eqb_spec (TrimSpace cmd) "") as [He|Hne].
    + destruct (IH result w Hc Hw) as [out [w' [Hrun Hcount]]].
      exists out, w'. split.
      * cbn [telnetCommandLoop]. unfold bind at 1. unfold ctxDone at 1.
        rewrite (isDone_never w Hc), He. exact Hrun.
      * cbn [filter]. rewrite He. exact Hcount.
    + destruct (writeOutcome w (writeCount w)) as [e|] eqn:Hwk; [|now apply Hw in Hwk].
      destruct (IH (result ++ cmdHeader (TrimSpace cmd))
                   (afterFailedSend w (TrimSpace cmd) e true) Hc Hw)
        as [out [w' [Hrun Hcount]]].
      exists out, w'. split.
      * rewrite (telnetCommandLoop_write_failure job prompts cmd cmds result w e);
          auto using isDone_never.
      * cbn [filter]. apply String.eqb_neq in Hne. rewrite Hne.
        cbn [negb List.length]. cbn [afterFailedSend writeCount] in Hcount. lia.
Qed.

(** C1 (amended). When the send of a command fails in the command loop,
    the Telnet path logs the failure, skips that command and goes on
    with the remaining commands (so that write failures alone never end
    the job on that path); the SSH path returns at once with the
    transcript built so far and an error wrapping the write error. *)
Theorem write_failure_in_command_loop (job : Job) (prompts : list string) (cmd : string)
    (rest : list string) (result : string) (w : World) (e : error) :
  isDone w = false -> TrimSpace cmd <> "" ->
  writeOutcome w (writeCount w) = Some e ->
  telnetCommandLoop job prompts (cmd :: rest) result w =
    telnetCommandLoop job prompts rest (result ++ cmdHeader (TrimSpace cmd))
                      (afterFailedSend w (TrimSpace cmd) e true) /\
  (cancelAt w = None -> (forall k, writeOutcome w k <> None) ->
     exists out w',
       telnetCommandLoop job prompts (cmd :: rest) result w = Some ((out, None), w')) /\
  sshCommandLoop job prompts (cmd :: rest) result w =
    Some ((result ++ cmdHeader (TrimSpace cmd),
           Some (fmt_Errorf "write cmd %q: %w" [ArgStr (TrimSpace cmd); ArgErr e])),
          afterFailedSend w (TrimSpace cmd) e false).
Proof.
  intros Hd Hne Hw. split; [|split].
  - now apply telnetCommandLoop_write_failure.
  - intros Hc Hall.
    destruct (telnetCommandLoop_all_writes_fail job prompts (cmd :: rest) result w Hc Hall)
      as [out [w' [Hrun _]]].
    now exists out, w'.
  - now apply sshCommandLoop_write_failure.
Qed.

(** ** Configuration validation *)

Lemma validateAsset_accepts `{R : Resolver} (i j : Z) (a : Asset) :
  validateAsset i j a = None <-> validAsset a.
Proof.
  unfold validateAsset, validAsset.
  destruct (String.eqb_spec (Asset_Name a) "") as [Hn|Hn].
  { split; [discriminate | intros [H _]; contradiction]. }
  destruct (parsesAsIP (Asset_Address a)) eqn:Hip;
    destruct (lookupHostOk (Asset_Address a)) eqn:Hlk; cbn [negb andb];
    try (split; [discriminate | intros [_ [[H|H] _]]; discriminate]);
    (destruct (Z.ltb_spec (Asset_Port a) 0) as [Hp0|Hp0]; cbn [orb];
       [split; [discriminate | intros [_ [_ [H _]]]; lia]|];
     destruct (Z.ltb_spec 65535 (Asset_Port a)) as [Hp1|Hp1];
       [split; [discriminate | intros [_ [_ [H _]]]; lia]|];
     destruct (String.eqb_spec (Asset_Protocol a) "") as [Hpr|Hpr]; cbn [negb andb];
       [split; [intros _; repeat split; auto; lia | reflexivity]|];
     destruct (knownProtocol (ToLower (TrimSpace (Asset_Protocol a)))) eqn:Hk; cbn [negb];
       [split; [intros _; repeat split; auto; lia | reflexivity]
       |split; [discriminate | intros [_ [_ [_ [H|H]]]]; [contradiction | discriminate]]]).
Qed.

Lemma validateAssets_accepts `{R : Resolver} (assets : list Asset) :
  forall i j, validateAssets i j assets = None <-> Forall validAsset assets.
Proof.
  induction assets as [|a rest IH]; intros i j; cbn [validateAssets].
  - split; [constructor | reflexivity].
  - destruct (validateAsset i j a) as [e|] eqn:Ha.
    + split; [discriminate|]. intros H. inversion H as [|? ? Hv _]; subst.
      apply (validateAsset_accepts i j) in Hv. congruence.
    + rewrite IH. split.
      * intros H. constructor; [now apply (validateAsset_accepts i j) | assumption].
      * intros H. now inversion H.
Qed.

Lemma validateGroup_accepts `{R : Resolver} (i : Z) (g : Group) :
  validateGroup i g = None <-> validGroup g.
Proof.
  unfold validateGroup, validGroup.
  destruct (knownVendor (ToLower (TrimSpace (Group_Vendor g)))) eqn:Hv; cbn [negb];
    [|split; [discriminate | intros [H _]; discriminate]].
  destruct (String.eqb_spec (Group_Username g) "") as [Hu|Hu];
    [split; [discriminate | intros [_ [H _]]; contradiction]|].
  destruct (String.eqb_spec (Group_Password g) "") as [Hp|Hp];
    destruct (String.eqb_spec (Group_PasswordEnv g) "") as [He|He]; cbn [andb];
    try (split; [discriminate | intros [_ [_ [[H|H] _]]]; contradiction]);
    (destruct (Group_Assets g) as [|a rest] eqn:Hassets;
       [split; [discriminate | intros [_ [_ [_ [H _]]]]; contradiction]|];
     rewrite (validateAssets_accepts (a :: rest) i 0);
     split; [intros H; repeat split; auto; discriminate | intros [_ [_ [_ [_ H]]]]; exact H]).
Qed.

Lemma validateGroups_accepts `{R : Resolver} (groups : list Group) :
  forall i, validateGroups i groups = None <-> Forall validGroup groups.
Proof.
  induction groups as [|g rest IH]; intros i; cbn [validateGroups].
  - split; [constructor | reflexivity].
  - destruct (validateGroup i g) as [e|] eqn:Hg.
    + split; [discriminate|]. intros H. inversion H as [|? ? Hv _]; subst.
      apply (validateGroup_accepts i) in Hv. congruence.
    + rewrite IH. split.
      * intros H. constructor; [now apply (validateGroup_accepts i) | assumption].
      * intros H. now inversion H.
Qed.

Lemma Validate_accepts `{R : Resolver} (c : Config) :
  Validate c = None <->
  Concurrency c <= 50 /\ TimeoutSeconds c <= 300 /\ Forall validGroup (Groups c).
Proof.
  unfold Validate.
  destruct (Z.ltb_spec 50 (Concurrency c)) as [Hc|Hc];
    [split; [discriminate | intros [H _]; lia]|].
  destruct (Z.ltb_spec 300 (TimeoutSeconds c)) as [Ht|Ht];
    [split; [discriminate | intros [_ [H _]]; lia]|].
  rewrite validateGroups_accepts. tauto.
Qed.

(** X1. [Validate] accepts a configuration exactly when the concurrency
    is at most 50, the timeout at most 300 seconds, and every group has
    a known vendor, a user name, a password or password variable, at
    least one asset, and only assets with a name, an address that parses
    or resolves, a port in 0..65535 and no or a known protocol. *)
Theorem Validate_accepts_iff `{R : Resolver} (c : Config) :
  Validate c = None <->
  Concurrency c <= 50 /\ TimeoutSeconds c <= 300 /\ Forall validGroup (Groups c).
Proof. apply Validate_accepts. Qed.

(** ** The enqueue loop as a whole *)

Lemma enqueueAsset_step (cfg : Config) (outDir : string) (g : Group) (acc : Produced)
    (a : Asset) :
  let r := enqueueAsset cfg outDir (ToLower (TrimSpace (Group_Vendor g)))
                        (Group_GetPassword g) g acc a in
  queued r = (queued acc ++ if eligible (g, a) then [jobOf cfg outDir (g, a)] else [])%list /\
  totalAssets r = totalAssets acc + 1 /\
  activeAssets r = activeAssets acc + (if IsActive a then 1 else 0) /\
  inactiveAssets r = inactiveAssets acc + (if IsActive a then 0 else 1).
Proof.
  unfold enqueueAsset, eligible, jobOf, resolvedPassword, resolvedUsername.
  cbn [fst snd].
  destruct (IsActive a); cbn [negb andb].
  - destruct (String.eqb (Asset_GetPassword a) "");
      destruct (String.eqb _ "") eqn:Hpw; cbn [negb queued totalAssets activeAssets inactiveAssets];
      rewrite ?app_nil_r; repeat split; try reflexivity; lia.
  - cbn [queued totalAssets activeAssets inactiveAssets].
    rewrite app_nil_r. repeat split; try reflexivity; lia.
Qed.

Lemma enqueueAssets_fold (cfg : Config) (outDir : string) (g : Group) (assets : list Asset) :
  forall acc,
    let r := fold_left (enqueueAsset cfg outDir (ToLower (TrimSpace (Group_Vendor g)))
                                     (Group_GetPassword g) g) assets acc in
    queued r = (queued acc ++
                  map (jobOf cfg outDir) (filter eligible (map (pair g) assets)))%list /\
    totalAssets r = totalAssets acc + Z.of_nat (List.length assets) /\
    activeAssets r = activeAssets acc + countIf IsActive assets /\
    inactiveAssets r = inactiveAssets acc + countIf (fun a => negb (IsActive a)) assets.
Proof.
  induction assets as [|a rest IH]; intros acc.
  - cbn. unfold countIf. cbn. rewrite app_nil_r. repeat split; try reflexivity; lia.
  - cbn [fold_left].
    destruct (enqueueAsset_step cfg outDir g acc a) as [Hq [Ht [Ha Hi]]].
    destruct (IH (enqueueAsset cfg outDir (ToLower (TrimSpace (Group_Vendor g)))
                               (Group_GetPassword g) g acc a)) as [Hq' [Ht' [Ha' Hi']]].
    cbv zeta in *. rewrite Hq', Ht', Ha', Hi', Hq, Ht, Ha, Hi.
    unfold countIf. cbn [map filter List.length].
    destruct (eligible (g, a)); destruct (IsActive a);
      cbn [negb map List.length app]; rewrite <- ?app_assoc; cbn [app];
      rewrite ?app_nil_r; repeat split; try reflexivity; lia.
Qed.

Lemma filter_snd_pair {A B : Type} (g : A) (f : B -> bool) (l : list B) :
  List.length (filter (fun ga : A * B => f (snd ga)) (map (pair g) l)) =
  List.length (filter f l).
Proof.
  induction l as [|x xs IH]; cbn; [reflexivity|].
  destruct (f x); cbn; now rewrite IH.
Qed.

Lemma enqueueGroups_fold (cfg : Config) (outDir : string) (groups : list Group) :
  forall acc,
    let r := fold_left (enqueueGroup cfg outDir) groups acc in
    let pairs := flat_map (fun g => map (pair g) (Group_Assets g)) groups in
    queued r = (queued acc ++ map (jobOf cfg outDir) (filter eligible pairs))%list /\
    totalAssets r = totalAssets acc + Z.of_nat (List.length pairs) /\
    activeAssets r = activeAssets acc + countIf (fun ga => IsActive (snd ga)) pairs /\
    inactiveAssets r =
      inactiveAssets acc + countIf (fun ga => negb (IsActive (snd ga))) pairs.
Proof.
  induction groups as [|g rest IH]; intros acc.
  - cbn. unfold countIf. cbn. rewrite app_nil_r. repeat split; try reflexivity; lia.
  - cbn [fold_left flat_map]. unfold enqueueGroup at 2 4 6 8.
    destruct (enqueueAssets_fold cfg outDir g (Group_Assets g) acc) as [Hq [Ht [Ha Hi]]].
    destruct (IH (fold_left (enqueueAsset cfg outDir (ToLower (TrimSpace (Group_Vendor g)))
                                          (Group_GetPassword g) g) (Group_Assets g) acc))
      as [Hq' [Ht' [Ha' Hi']]].
    cbv zeta in *. rewrite Hq', Ht', Ha', Hi', Hq, Ht, Ha, Hi.
    unfold countIf. rewrite !filter_app, !map_app, !length_app, !length_map.
    rewrite (filter_snd_pair g IsActive), (filter_snd_pair g (fun a => negb (IsActive a))).
    rewrite <- app_assoc. repeat split; try reflexivity; lia.
Qed.

Lemma enqueueJobs_queued (cfg : Config) (outDir : string) :
  queued (enqueueJobs cfg outDir) =
    map (jobOf cfg outDir) (filter eligible (assetsInOrder cfg)).
Proof.
  unfold enqueueJobs, assetsInOrder.
  destruct (enqueueGroups_fold cfg outDir (Groups cfg) (mkProduced [] [] 0 0 0)) as [Hq _].
  exact Hq.
Qed.

Lemma queued_job_source (cfg : Config) (outDir : string) (job : Job) :
  In job (queued (enqueueJobs cfg outDir)) ->
  exists g a,
    In g (Groups cfg) /\ In a (Group_Assets g) /\ eligible (g, a) = true /\
    job = jobOf cfg outDir (g, a).
Proof.
  rewrite enqueueJobs_queued. intros Hin.
  apply in_map_iff in Hin as [[g a] [Hjob Hin]].
  apply filter_In in Hin as [Hin Hel].
  unfold assetsInOrder in Hin. apply in_flat_map in Hin as [g' [Hg Hin]].
  apply in_map_iff in Hin as [a' [Heq Ha]]. injection Heq as <- <-.
  exists g', a'. repeat split; auto.
Qed.

(** *** The same loop when the channel fills up *)

Lemma prepareJob_spec (cfg : Config) (outDir : string) (g : Group) (acc : Produced)
    (a : Asset) :
  let v := ToLower (TrimSpace (Group_Vendor g)) in
  let r := prepareJob cfg outDir v (Group_GetPassword g) g acc a in
  queued (fst r) = queued acc /\
  snd r = (if eligible (g, a) then Some (jobOf cfg outDir (g, a)) else None) /\
  enqueueAsset cfg outDir v (Group_GetPassword g) g acc a =
    match snd r with
    | None => fst r
    | Some job => mkProduced (queued (fst r) ++ [job]) (logged (fst r)) (totalAssets (fst r))
                             (activeAssets (fst r)) (inactiveAssets (fst r))
    end.
Proof.
  unfold prepareJob, enqueueAsset, eligible, jobOf, resolvedPassword, resolvedUsername.
  cbn [fst snd].
  destruct (IsActive a); cbn [negb andb fst snd queued]; [|repeat split].
  destruct (String.eqb (Asset_GetPassword a) "");
    destruct (String.eqb _ "") eqn:Hpw; cbn [negb fst snd queued logged totalAssets
      activeAssets inactiveAssets]; repeat split.
Qed.

Lemma enqueueAssetOn_blocked (room : nat) (cfg : Config) (outDir v gp : string) (g : Group)
    (assets : list Asset) (p : Produced) (job : Job) :
  fold_left (enqueueAssetOn room cfg outDir v gp g) assets (Blocked p job) = Blocked p job.
Proof. induction assets as [|a rest IH]; [reflexivity | exact IH]. Qed.

Lemma enqueueGroupOn_blocked (room : nat) (cfg : Config) (outDir : string)
    (groups : list Group) (p : Produced) (job : Job) :
  fold_left (enqueueGroupOn room cfg outDir) groups (Blocked p job) = Blocked p job.
Proof.
  induction groups as [|g rest IH]; [reflexivity|].
  cbn [fold_left]. unfold enqueueGroupOn at 2. now rewrite enqueueAssetOn_blocked.
Qed.

(** What a run on a channel with [room] places amounts to, for a loop
    that would add the jobs [new] to the state [acc] and end in [full]
    if every send returned: it ends in [full] when the jobs fit, and
    otherwise stays in the send of the first job that does not. *)
Definition runsInto (room : nat) (acc : Produced) (new : list Job) (full : Produced)
    (st : Enqueue) : Prop :=
  ((List.length (queued acc) + List.length new <= room)%nat -> st = Enqueuing full) /\
  ((room < List.length (queued acc) + List.length new)%nat ->
   exists p job,
     st = Blocked p job /\
     queued p = firstn room (queued acc ++ new) /\
     nth_error (queued acc ++ new) room = Some job).

Lemma enqueueAssetsOn_fold (room : nat) (cfg : Config) (outDir : string) (g : Group)
    (assets : list Asset) :
  forall acc,
    (List.length (queued acc) <= room)%nat ->
    runsInto room acc
      (map (jobOf cfg outDir) (filter eligible (map (pair g) assets)))
      (fold_left (enqueueAsset cfg outDir (ToLower (TrimSpace (Group_Vendor g)))
                               (Group_GetPassword g) g) assets acc)
      (fold_left (enqueueAssetOn room cfg outDir (ToLower (TrimSpace (Group_Vendor g)))
                                 (Group_GetPassword g) g) assets (Enqueuing acc)).
Proof.
  induction assets as [|a rest IH]; intros acc Hacc.
  - cbn. split; [reflexivity | intros H; rewrite Nat.add_0_r in H; lia].
  - cbn [fold_left map filter]. unfold enqueueAssetOn at 2.
    destruct (prepareJob_spec cfg outDir g acc a) as (Hq & Hj & Hpure).
    cbv zeta in Hq, Hj, Hpure.
    destruct (prepareJob cfg outDir (ToLower (TrimSpace (Group_Vendor g)))
                         (Group_GetPassword g) g acc a) as [acc1 oj].
    cbn [fst snd] in Hq, Hj, Hpure. rewrite Hpure.
    destruct (eligible (g, a)); subst oj.
    + cbn [map List.length]. unfold sendJob. rewrite Hq.
      destruct (Nat.ltb_spec (List.length (queued acc)) room) as [Hlt|Hge].
      * match goal with
        | |- runsInto _ _ _ (fold_left _ _ ?acc') _ =>
            specialize (IH acc'); cbn [queued] in IH
        end.
        unfold runsInto in *. cbn [queued] in IH.
        rewrite length_app in IH. cbn [List.length] in IH.
        destruct (IH ltac:(lia)) as [Hfit Hblock]. split.
        -- intros H. cbn [List.length] in H. apply Hfit. lia.
        -- intros H. cbn [List.length] in H.
           destruct (Hblock ltac:(lia)) as (p & job & Hst & Hp & Hn).
           exists p, job. rewrite <- app_assoc in Hp, Hn. now split.
      * rewrite enqueueAssetOn_blocked.
        split; [intros H; cbn [List.length] in H; lia|]. intros _.
        exists acc1, (jobOf cfg outDir (g, a)). split; [reflexivity|].
        assert (Hroom : room = List.length (queued acc)) by lia.
        split.
        -- rewrite Hq, Hroom, firstn_app, Nat.sub_diag, firstn_all. cbn [firstn].
           now rewrite app_nil_r.
        -- rewrite Hroom, nth_error_app2, Nat.sub_diag by lia. reflexivity.
    + destruct (IH acc1 ltac:(rewrite Hq; exact Hacc)) as [Hfit Hblock].
      rewrite Hq in Hfit, Hblock. now split.
Qed.

Lemma enqueueGroupsOn_fold (room : nat) (cfg : Config) (outDir : string)
    (groups : list Group) :
  forall acc,
    (List.length (queued acc) <= room)%nat ->
    runsInto room acc
      (map (jobOf cfg outDir)
           (filter eligible (flat_map (fun g => map (pair g) (Group_Assets g)) groups)))
      (fold_left (enqueueGroup cfg outDir) groups acc)
      (fold_left (enqueueGroupOn room cfg outDir) groups (Enqueuing acc)).
Proof.
  induction groups as [|g rest IH]; intros acc Hacc.
  - cbn. split; [reflexivity | intros H; rewrite Nat.add_0_r in H; lia].
  - cbn [fold_left flat_map]. unfold enqueueGroupOn at 2. unfold enqueueGroup at 2.
    rewrite filter_app, map_app.
    set (newG := map (jobOf cfg outDir) (filter eligible (map (pair g) (Group_Assets g)))).
    set (newR := map (jobOf cfg outDir)
                     (filter eligible
                        (flat_map (fun g0 => map (pair g0) (Group_Assets g0)) rest))).
    destruct (enqueueAssetsOn_fold room cfg outDir g (Group_Assets g) acc Hacc)
      as [Hfit Hblock]. fold newG in Hfit, Hblock.
    destruct (enqueueAssets_fold cfg outDir g (Group_Assets g) acc) as [Hq _].
    cbv zeta in Hq. fold newG in Hq.
    unfold runsInto in *. rewrite length_app.
    destruct (Nat.le_gt_cases (List.length (queued acc) + List.length newG) room)
      as [Hle|Hgt].
    + rewrite (Hfit Hle).
      match goal with
      | |- (_ -> fold_left _ _ _ = Enqueuing (fold_left _ _ ?acc')) /\ _ =>
          specialize (IH acc')
      end.
      rewrite Hq, length_app in IH. destruct (IH Hle) as [Hfit' Hblock'].
      fold newR in Hfit', Hblock'.
      split.
      * intros H. apply Hfit'. lia.
      * intros H. destruct (Hblock' ltac:(lia)) as (p & job & Hst & Hp & Hn).
        exists p, job. rewrite <- app_assoc in Hp, Hn. now split.
    + destruct (Hblock Hgt) as (p & job & -> & Hp & Hn).
      rewrite enqueueGroupOn_blocked. split; [intros H; lia|]. intros _.
      exists p, job. split; [reflexivity|].
      rewrite app_assoc. split.
      * rewrite firstn_app. rewrite length_app.
        replace (room - (List.length (queued acc) + List.length newG))%nat with 0%nat by lia.
        cbn [firstn]. now rewrite app_nil_r.
      * rewrite nth_error_app1 by (rewrite length_app; lia). exact Hn.
Qed.

(** X2. In every run the jobs sent to the queue are an initial part of
    one list: one job for every asset that is active and has a password,
    in the order of the configuration file, and nothing else.  With a
    channel that takes [room] jobs in the run, the loop sends the first
    [room] of them; when they all fit it runs to its end and has sent
    exactly this list; otherwise it stays for ever in the send of the
    next job of the list. *)
Theorem queued_jobs_in_config_order (room : nat) (cfg : Config) (outDir : string) :
  let all := map (jobOf cfg outDir) (filter eligible (assetsInOrder cfg)) in
  sent (enqueueJobsOn room cfg outDir) = firstn room all /\
  ((List.length all <= room)%nat ->
     enqueueJobsOn room cfg outDir = Enqueuing (enqueueJobs cfg outDir) /\
     queued (enqueueJobs cfg outDir) = all) /\
  ((room < List.length all)%nat ->
     exists p job, enqueueJobsOn room cfg outDir = Blocked p job /\
                   nth_error all room = Some job).
Proof.
  intros all.
  destruct (enqueueGroupsOn_fold room cfg outDir (Groups cfg) (mkProduced [] [] 0 0 0)
              ltac:(cbn; lia)) as [Hfit Hblock].
  cbn [queued List.length app Nat.add] in Hfit, Hblock.
  fold (assetsInOrder cfg) in Hfit, Hblock. fold all in Hfit, Hblock.
  fold (enqueueJobs cfg outDir) in Hfit. fold (enqueueJobsOn room cfg outDir) in Hfit, Hblock.
  pose proof (enqueueJobs_queued cfg outDir) as Hall. fold all in Hall.
  split; [|split].
  - destruct (Nat.le_gt_cases (List.length all) room) as [Hle|Hgt].
    + rewrite (Hfit Hle). cbn [sent]. rewrite Hall. symmetry. now apply firstn_all2.
    + destruct (Hblock Hgt) as (p & job & -> & Hp & _). exact Hp.
  - intros Hle. split; [now apply Hfit | exact Hall].
  - intros Hgt. destruct (Hblock Hgt) as (p & job & Hst & _ & Hn). now exists p, job.
Qed.

Lemma filter_split_length {A : Type} (f : A -> bool) (l : list A) :
  (List.length (filter f l) + List.length (filter (fun x => negb (f x)) l)
   = List.length l)%nat.
Proof.
  induction l as [|x xs IH]; cbn; [reflexivity|].
  destruct (f x); cbn; lia.
Qed.

Lemma eligible_le_active (l : list (Group * Asset)) :
  (List.length (filter eligible l) <=
   List.length (filter (fun ga : Group * Asset => IsActive (snd ga)) l))%nat.
Proof.
  induction l as [|x xs IH]; cbn; [lia|].
  unfold eligible at 1. destruct (IsActive (snd x)); cbn [andb].
  - destruct (negb _); cbn; lia.
  - exact IH.
Qed.

(** X3. The three counters reported after the enqueue loop: the total is
    the number of assets in the configuration, it splits into active and
    inactive ones, and no more jobs are queued than assets are active. *)
Theorem asset_counters (cfg : Config) (outDir : string) :
  let r := enqueueJobs cfg outDir in
  totalAssets r = Z.of_nat (List.length (assetsInOrder cfg)) /\
  activeAssets r = countIf (fun ga => IsActive (snd ga)) (assetsInOrder cfg) /\
  inactiveAssets r = countIf (fun ga => negb (IsActive (snd ga))) (assetsInOrder cfg) /\
  totalAssets r = activeAssets r + inactiveAssets r /\
  Z.of_nat (List.length (queued r)) <= activeAssets r.
Proof.
  unfold enqueueJobs, assetsInOrder.
  destruct (enqueueGroups_fold cfg outDir (Groups cfg) (mkProduced [] [] 0 0 0))
    as [Hq [Ht [Ha Hi]]].
  cbv zeta in *. cbn [queued totalAssets activeAssets inactiveAssets app] in *.
  set (pairs := flat_map (fun g => map (pair g) (Group_Assets g)) (Groups cfg)) in *.
  rewrite Hq, Ht, Ha, Hi. unfold countIf. rewrite length_map.
  pose proof (filter_split_length (fun ga : Group * Asset => IsActive (snd ga)) pairs).
  pose proof (eligible_le_active pairs).
  repeat split; lia.
Qed.

Lemma GetPassword_precedence (a : Asset) (g : Group) :
  Asset_GetPassword a = firstNonEmpty [envValue (Asset_PasswordEnv a); Asset_Password a] /\
  Group_GetPassword g = firstNonEmpty [envValue (Group_PasswordEnv g); Group_Password g].
Proof.
  unfold Asset_GetPassword, Group_GetPassword, envValue. cbn [firstNonEmpty].
  split.
  - destruct (String.eqb_spec (Asset_PasswordEnv a) "") as [He|He]; cbn [negb].
    + cbn. destruct (String.eqb_spec (Asset_Password a) ""); congruence.
    + destruct (String.eqb (Getenv (Asset_PasswordEnv a)) ""); cbn [negb]; [|reflexivity].
      destruct (String.eqb_spec (Asset_Password a) ""); congruence.
  - destruct (String.eqb_spec (Group_PasswordEnv g) "") as [He|He]; cbn [negb].
    + cbn. destruct (String.eqb_spec (Group_Password g) ""); congruence.
    + destruct (String.eqb (Getenv (Group_PasswordEnv g)) ""); cbn [negb]; [|reflexivity].
      destruct (String.eqb_spec (Group_Password g) ""); congruence.
Qed.

Lemma firstNonEmpty_app (l1 l2 : list string) :
  firstNonEmpty (l1 ++ l2) =
    if String.eqb (firstNonEmpty l1) "" then firstNonEmpty l2 else firstNonEmpty l1.
Proof.
  induction l1 as [|c l1 IH]; cbn; [reflexivity|].
  destruct (String.eqb_spec c "") as [->|Hc]; [exact IH|].
  apply String.eqb_neq in Hc. now rewrite Hc.
Qed.

(** X4. The credentials of a queued job are those of its own asset:
    the job carries an active asset [a] of a group [g] of the
    configuration, with the port resolved and nothing else changed, and
    the vendor of [g]; its password is the first non-empty value among
    the password variable of [a], the password of [a], the password
    variable of [g] and the password of [g], and it is never empty; its
    user name is that of [a] when set, that of [g] otherwise. *)
Theorem queued_job_credentials (cfg : Config) (outDir : string) (job : Job) :
  In job (queued (enqueueJobs cfg outDir)) ->
  Job_Password job <> "" /\
  exists g a,
    In g (Groups cfg) /\ In a (Group_Assets g) /\ IsActive a = true /\
    Job_Asset job = withPort a (resolvePort a (resolveProtocol a)) /\
    Job_Vendor job = ToLower (TrimSpace (Group_Vendor g)) /\
    Job_Password job =
      firstNonEmpty [envValue (Asset_PasswordEnv a); Asset_Password a;
                     envValue (Group_PasswordEnv g); Group_Password g] /\
    Job_Username job = firstNonEmpty [Asset_Username a; Group_Username g].
Proof.
  intros Hin. destruct (queued_job_source cfg outDir job Hin) as [g [a [Hg [Ha [Hel ->]]]]].
  unfold eligible in Hel. cbn [fst snd] in Hel.
  apply andb_true_iff in Hel as [Hact Hpw]. apply negb_true_iff in Hpw.
  cbn [jobOf Job_Password Job_Username Job_Asset Job_Vendor]. split.
  - now apply String.eqb_neq.
  - exists g, a. repeat split; auto.
    + change [envValue (Asset_PasswordEnv a); Asset_Password a;
              envValue (Group_PasswordEnv g); Group_Password g]
        with ([envValue (Asset_PasswordEnv a); Asset_Password a] ++
              [envValue (Group_PasswordEnv g); Group_Password g])%list.
      rewrite firstNonEmpty_app.
      destruct (GetPassword_precedence a g) as [<- <-]. reflexivity.
    + unfold resolvedUsername. cbn [firstNonEmpty].
      destruct (String.eqb_spec (Asset_Username a) ""); [|reflexivity].
      destruct (String.eqb_spec (Group_Username g) ""); congruence.
Qed.

Lemma knownVendor_commands (v : string) :
  knownVendor v = true -> snd (commandsForVendor v) = None.
Proof.
  unfold knownVendor, commandsForVendor.
  destruct (String.eqb v "huawei"); [reflexivity|].
  destruct (String.eqb v "zte"); [reflexivity | discriminate].
Qed.

Lemma ToLower_TrimSpace_empty : ToLower (TrimSpace "") = "".
Proof. reflexivity. Qed.

(** X5. Validation and the enqueue loop together: in a configuration
    that [Validate] accepts, every job that is queued (after the
    defaults) has a vendor whose commands are known, the protocol ssh or
    telnet, a port in 1..65535 and a timeout between 1 and 300 seconds,
    so [runJob] cannot fail on it with an unknown vendor or protocol. *)
Theorem validated_jobs_are_runnable `{R : Resolver} (cfg : Config) (outDir : string)
    (job : Job) :
  Validate cfg = None ->
  In job (queued (enqueueJobs (applyDefaults cfg) outDir)) ->
  snd (commandsForVendor (Job_Vendor job)) = None /\
  (Job_Protocol job = "ssh" \/ Job_Protocol job = "telnet") /\
  1 <= Asset_Port (Job_Asset job) <= 65535 /\
  1 * GoTime.Second <= Job_Timeout job <= 300 * GoTime.Second.
Proof.
  intros Hval Hin.
  apply Validate_accepts in Hval as [_ [Hts Hgroups]].
  destruct (queued_job_source _ outDir job Hin) as [g [a [Hg [Ha [_ ->]]]]].
  cbn [applyDefaults Groups] in Hg.
  rewrite Forall_forall in Hgroups. destruct (Hgroups g Hg) as [Hv [_ [_ [_ Hassets]]]].
  rewrite Forall_forall in Hassets. destruct (Hassets a Ha) as [_ [_ [Hport Hproto]]].
  cbn [jobOf Job_Vendor Job_Protocol Job_Asset Job_Timeout withPort Asset_Port].
  assert (Hp : resolveProtocol a = "ssh" \/ resolveProtocol a = "telnet").
  { unfold resolveProtocol. destruct Hproto as [He|Hk].
    - rewrite He, ToLower_TrimSpace_empty. now left.
    - unfold knownProtocol in Hk. apply orb_true_iff in Hk as [Hk|Hk];
        apply String.eqb_eq in Hk; rewrite Hk; [now left | now right]. }
  split; [now apply knownVendor_commands|]. split; [exact Hp|]. split.
  - unfold resolvePort. destruct (Z.eqb_spec (Asset_Port a) 0); [|lia].
    destruct (String.eqb _ "telnet"); lia.
  - cbn [applyDefaults TimeoutSeconds]. unfold Int64.mul, GoTime.Second.
    destruct (Z.leb_spec (TimeoutSeconds cfg) 0).
    + rewrite wrap64_small; [lia|].
      unfold Int64.in_range, Int64.min_int, Int64.max_int. lia.
    + rewrite wrap64_small; [lia|].
      unfold Int64.in_range, Int64.min_int, Int64.max_int. lia.
Qed.

(** ** How a run of the retry controller ends *)

Lemma lastResult_snoc (calls : list Attempt) (c : Attempt) :
  lastResult (calls ++ [c]) = att_result c.
Proof. unfold lastResult. now rewrite rev_unit. Qed.

Lemma retryLoop_outcome (exec : M (option error)) (job : Job) (maxRetries : Z) :
  forall (fuel : nat) (attempt : Z) (lastErr : option error) (calls : list Attempt)
         (w : World) r calls' w',
    Forall failed calls -> lastErr = lastResult calls ->
    retryLoop exec job maxRetries fuel attempt lastErr calls w = Some ((r, calls'), w') ->
    retryOutcome maxRetries r calls'.
Proof.
  induction fuel as [|fuel IH]; intros attempt lastErr calls w r calls' w' Hf Hl Hrun.
  - discriminate.
  - destruct (Z.leb_spec attempt maxRetries) as [Hle|Hgt].
    + destruct (isDone w) eqn:Hd.
      * rewrite retryLoop_cancelled in Hrun by assumption.
        injection Hrun as <- <- _. right. left. now split.
      * rewrite retryLoop_pass in Hrun by assumption. cbv zeta in Hrun.
        destruct (exec _) as [[[e|] w2]|]; [ | | discriminate].
        -- eapply IH; [ | | exact Hrun].
           ++ apply Forall_app. split; [assumption|].
              constructor; [discriminate | constructor].
           ++ now rewrite lastResult_snoc.
        -- injection Hrun as <- <- _. left. split; [reflexivity|].
           eexists _, _. split; [reflexivity|]. now split.
    + rewrite retryLoop_exhausted in Hrun by assumption.
      injection Hrun as <- <- _. right. right. subst lastErr. now split.
Qed.

Lemma retryLoop_bounded (exec : M (option error)) (job : Job) (maxRetries : Z) :
  maxRetries < Int64.max_int ->
  forall (fuel : nat) (attempt : Z) (lastErr : option error) (calls : list Attempt)
         (w : World) r calls' w',
    0 <= attempt <= maxRetries + 1 ->
    retryLoop exec job maxRetries fuel attempt lastErr calls w = Some ((r, calls'), w') ->
    exists made,
      calls' = (calls ++ made)%list /\
      attempt + Z.of_nat (List.length made) <= maxRetries + 1 /\
      map att_index made = countFrom attempt (List.length made).
Proof.
  intros Hmax. induction fuel as [|fuel IH];
    intros attempt lastErr calls w r calls' w' Ha Hrun.
  - discriminate.
  - destruct (Z.leb_spec attempt maxRetries) as [Hle|Hgt].
    + destruct (isDone w) eqn:Hd.
      * rewrite retryLoop_cancelled in Hrun by assumption.
        injection Hrun as _ <- _. exists []. rewrite app_nil_r. cbn. repeat split. lia.
      * rewrite retryLoop_pass in Hrun by assumption. cbv zeta in Hrun.
        destruct (exec _) as [[[e|] w2]|]; [ | | discriminate].
        -- unfold Int64.add in Hrun. rewrite wrap64_small in Hrun
             by (unfold Int64.in_range, Int64.min_int, Int64.max_int in *; lia).
           destruct (IH (attempt + 1) _ _ _ _ _ _ ltac:(lia) Hrun) as [made [Hc [Hlen Hidx]]].
           eexists (_ :: made). rewrite Hc, <- app_assoc. cbn [app List.length map countFrom].
           repeat split; [lia | now rewrite Hidx].
        -- injection Hrun as _ <- _. eexists [_]. cbn. repeat split. lia.
    + rewrite retryLoop_exhausted in Hrun by assumption.
      injection Hrun as _ <- _. exists []. rewrite app_nil_r. cbn. repeat split. lia.
Qed.

(** X6. However a run of the retry controller ends, it ends in one of
    three ways: with success, and then the last call of the executor
    succeeded and all earlier ones failed; with the cancellation error,
    all calls having failed; or with the aggregate error wrapping the
    error of the last call, all calls having failed.  The executor is
    never called again after a success, and for [0 <= maxRetries] below
    the largest [int] it is called at most [maxRetries + 1] times, with
    attempt indices 0, 1, 2, ... *)
Theorem retry_run_outcome (exec : M (option error)) (job : Job) (maxRetries : Z)
    (fuel : nat) (w : World) (r : option error) (calls : list Attempt) (w' : World) :
  retryWith exec fuel job maxRetries w = Some ((r, calls), w') ->
  retryOutcome maxRetries r calls /\
  (0 <= maxRetries < Int64.max_int ->
     Z.of_nat (List.length calls) <= maxRetries + 1 /\
     map att_index calls = countFrom 0 (List.length calls)).
Proof.
  intros Hrun. split.
  - eapply retryLoop_outcome; [ | | exact Hrun]; [constructor | reflexivity].
  - intros [H0 Hmax].
    destruct (retryLoop_bounded exec job maxRetries Hmax fuel 0 None [] w r calls w'
                ltac:(lia) Hrun)
      as [made [Hc [Hlen Hidx]]].
    cbn [app] in Hc. subst calls. split; [lia | exact Hidx].
Qed.

(** ** A job that cannot succeed *)






(** ** What a return of a read loop means *)

Lemma gotBytes_true (data : string) : gotBytes data = true -> data <> "".
Proof. unfold gotBytes. intros H. apply String.eqb_neq. now apply negb_true_iff. Qed.

Lemma endsWith_cons (ev0 : ReadEv) (consumed : list ReadEv) (ev : ReadEv) :
  endsWith consumed ev -> endsWith (ev0 :: consumed) ev.
Proof. intros [init ->]. now exists (ev0 :: init). Qed.

Lemma endsWith_one (ev : ReadEv) : endsWith [ev] ev.
Proof. now exists []. Qed.

(** Opening of a postcondition once the consumed reads are known: the
    split of the script, the text and the clock. *)
Ltac post_open cs :=
  unfold readUntilPromptPost, readTelnetOutputPost, waitForStringPost;
  exists cs; cbn [app received inbound now];
  rewrite ?append_empty_r;
  (split; [first [reflexivity | assumption] | ]).

Lemma readUntilPrompt_loop_post (prompts : list string) (deadline : Z) :
  forall (fuel : nat) (buf : string) (w : World) out err w',
    readUntilPrompt_loop fuel deadline prompts buf w = Some ((out, err), w') ->
    readUntilPromptPost deadline prompts buf w out err w'.
Proof.
  induction fuel as [|fuel IH]; intros buf w out err w' Hrun; [discriminate|].
  cbn [readUntilPrompt_loop] in Hrun. unfold bind at 1 in Hrun. unfold ctxDone at 1 in Hrun.
  destruct (isDone w) eqn:Hd.
  { injection Hrun as <- <- <-. post_open (@nil ReadEv). split; [reflexivity|]. split; [lia|].
    left. now split. }
  unfold bind at 1 in Hrun. unfold timeNow at 1 in Hrun.
  destruct (Z.ltb_spec deadline (now w)) as [Hdl|Hdl].
  { injection Hrun as <- <- <-. post_open (@nil ReadEv). split; [reflexivity|]. split; [lia|].
    right. left. now split. }
  unfold bind at 1 in Hrun. unfold connRead at 1 in Hrun.
  destruct (inbound w) as [|ev rest] eqn:Hin; [discriminate|].
  cbn [rdata rerr] in Hrun. rewrite appendChunk_app in Hrun.
  destruct (gotBytes (rdata ev) && promptFound (buf ++ rdata ev) prompts) eqn:Hm.
  { injection Hrun as <- <- <-. post_open [ev]. split; [reflexivity|]. split; [lia|].
    exists ev. split; [apply endsWith_one|]. left.
    apply andb_true_iff in Hm as [Hg Hf]. split; [now apply gotBytes_true | exact Hf]. }
  destruct (rerr ev) as [e|] eqn:He.
  - destruct (isEOF e) eqn:Heof.
    { injection Hrun as <- <- <-. post_open [ev]. split; [reflexivity|]. split; [lia|].
      exists ev. split; [apply endsWith_one|]. right.
      destruct e; try discriminate. exact He. }
    destruct (isNetTimeout e) eqn:Hto.
    + apply IH in Hrun as [consumed [Hc [Ho [Hn Hk]]]]. cbn [inbound now] in Hc, Hn.
      exists (ev :: consumed). cbn [app received]. rewrite <- append_assoc.
      split; [rewrite Hin, Hc; reflexivity|]. split; [exact Ho|]. split; [lia|].
      destruct err as [e'|].
      * destruct Hk as [Hk|[Hk|[ev' [Hk1 Hk2]]]]; auto.
        right. right. exists ev'. split; [now apply endsWith_cons | exact Hk2].
      * destruct Hk as [ev' [Hk1 Hk2]]. exists ev'. split; [now apply endsWith_cons | exact Hk2].
    + injection Hrun as <- <- <-. post_open [ev]. split; [reflexivity|]. split; [lia|].
      right. right. exists ev. split; [apply endsWith_one|]. now split.
  - unfold bind at 1 in Hrun. unfold timeSleep at 1 in Hrun.
    apply IH in Hrun as [consumed [Hc [Ho [Hn Hk]]]]. cbn [inbound now] in Hc, Hn.
    exists (ev :: consumed). cbn [app received]. rewrite <- append_assoc.
    split; [rewrite Hin, Hc; reflexivity|]. split; [exact Ho|].
    split; [unfold GoTime.Millisecond in Hn; lia|].
    destruct err as [e'|].
    * destruct Hk as [Hk|[Hk|[ev' [Hk1 Hk2]]]]; auto.
      right. right. exists ev'. split; [now apply endsWith_cons | exact Hk2].
    * destruct Hk as [ev' [Hk1 Hk2]]. exists ev'. split; [now apply endsWith_cons | exact Hk2].
Qed.

Lemma readTelnetOutput_loop_post (prompts : list string) (deadline : Z) :
  forall (fuel : nat) (buf : string) (w : World) out err w',
    readTelnetOutput_loop fuel deadline prompts buf w = Some ((out, err), w') ->
    readTelnetOutputPost deadline prompts buf w out err w'.
Proof.
  induction fuel as [|fuel IH]; intros buf w out err w' Hrun; [discriminate|].
  cbn [readTelnetOutput_loop] in Hrun.
  unfold bind at 1 in Hrun. unfold timeNow at 1 in Hrun.
  destruct (Z.ltb_spec deadline (now w)) as [Hdl|Hdl].
  { injection Hrun as <- <- <-. post_open (@nil ReadEv). split; [reflexivity|]. split; [lia|].
    now split. }
  unfold bind at 1 in Hrun. unfold connRead at 1 in Hrun.
  destruct (inbound w) as [|ev rest] eqn:Hin; [discriminate|].
  cbn [rdata rerr] in Hrun. rewrite appendChunk_app in Hrun.
  destruct (gotBytes (rdata ev) && promptFound (buf ++ rdata ev) prompts) eqn:Hm.
  { injection Hrun as <- <- <-. post_open [ev]. split; [reflexivity|]. split; [lia|].
    exists ev. split; [apply endsWith_one|]. left.
    apply andb_true_iff in Hm as [Hg Hf]. split; [now apply gotBytes_true | exact Hf]. }
  destruct (rerr ev) as [e|] eqn:He.
  - destruct (isNetTimeout e) eqn:Hto.
    + apply IH in Hrun as [consumed [Hc [Ho [Hn Hk]]]]. cbn [inbound now] in Hc, Hn.
      exists (ev :: consumed). cbn [app received]. rewrite <- append_assoc.
      split; [rewrite Hin, Hc; reflexivity|]. split; [exact Ho|]. split; [lia|].
      destruct err as [e'|]; [exact Hk|].
      destruct Hk as [ev' [Hk1 Hk2]]. exists ev'. split; [now apply endsWith_cons | exact Hk2].
    + injection Hrun as <- <- <-. post_open [ev]. split; [reflexivity|]. split; [lia|].
      exists ev. split; [apply endsWith_one|]. right. now exists e.
  - unfold bind at 1 in Hrun. unfold timeSleep at 1 in Hrun.
    apply IH in Hrun as [consumed [Hc [Ho [Hn Hk]]]]. cbn [inbound now] in Hc, Hn.
    exists (ev :: consumed). cbn [app received]. rewrite <- append_assoc.
    split; [rewrite Hin, Hc; reflexivity|]. split; [exact Ho|].
    split; [unfold GoTime.Millisecond in Hn; lia|].
    destruct err as [e'|]; [exact Hk|].
    destruct Hk as [ev' [Hk1 Hk2]]. exists ev'. split; [now apply endsWith_cons | exact Hk2].
Qed.

Lemma waitForString_loop_post (patterns : list string) (deadline : Z) :
  forall (fuel : nat) (buf : string) (w : World) err w',
    waitForString_loop fuel deadline patterns buf w = Some (err, w') ->
    waitForStringPost deadline patterns buf w err w'.
Proof.
  induction fuel as [|fuel IH]; intros buf w err w' Hrun; [discriminate|].
  cbn [waitForString_loop] in Hrun.
  unfold bind at 1 in Hrun. unfold timeNow at 1 in Hrun.
  destruct (Z.ltb_spec deadline (now w)) as [Hdl|Hdl].
  { injection Hrun as <- <-. post_open (@nil ReadEv). split; [lia|]. left. now split. }
  unfold bind at 1 in Hrun. unfold connRead at 1 in Hrun.
  destruct (inbound w) as [|ev rest] eqn:Hin; [discriminate|].
  cbn [rdata rerr] in Hrun. rewrite appendChunk_app in Hrun.
  destruct (gotBytes (rdata ev) && patternFound (buf ++ rdata ev) patterns) eqn:Hm.
  { injection Hrun as <- <-. post_open [ev]. split; [lia|].
    apply andb_true_iff in Hm as [Hg Hf]. exists ev. split; [apply endsWith_one|].
    split; [now apply gotBytes_true | exact Hf]. }
  destruct (rerr ev) as [e|] eqn:He.
  - destruct (isNetTimeout e) eqn:Hto.
    + apply IH in Hrun as [consumed [Hc [Hn Hk]]]. cbn [inbound now] in Hc, Hn.
      exists (ev :: consumed). cbn [app received]. rewrite <- append_assoc.
      split; [rewrite Hin, Hc; reflexivity|]. split; [lia|].
      destruct err as [e'|].
      * destruct Hk as [Hk|[ev' [Hk1 Hk2]]]; [now left|].
        right. exists ev'. split; [now apply endsWith_cons | exact Hk2].
      * destruct Hk as [ev' [Hk1 Hk2]]. exists ev'. split; [now apply endsWith_cons | exact Hk2].
    + injection Hrun as <- <-. post_open [ev]. split; [lia|].
      right. exists ev. split; [apply endsWith_one|]. now split.
  - unfold bind at 1 in Hrun. unfold timeSleep at 1 in Hrun.
    apply IH in Hrun as [consumed [Hc [Hn Hk]]]. cbn [inbound now] in Hc, Hn.
    exists (ev :: consumed). cbn [app received]. rewrite <- append_assoc.
    split; [rewrite Hin, Hc; reflexivity|].
    split; [unfold GoTime.Millisecond in Hn; lia|].
    destruct err as [e'|].
    * destruct Hk as [Hk|[ev' [Hk1 Hk2]]]; [now left|].
      right. exists ev'. split; [now apply endsWith_cons | exact Hk2].
    * destruct Hk as [ev' [Hk1 Hk2]]. exists ev'. split; [now apply endsWith_cons | exact Hk2].
Qed.

(** X8. Whenever [readUntilPrompt] returns, the text it returns is
    exactly what the reads it took delivered, in order, and the rest of
    the stream is untouched.  Without error, the last read either
    completed a prompt in that text or reported the end of the stream.
    An error is the cancellation error (the context being cancelled by
    then), the timeout error (the deadline being passed), or the error
    of the last read, which then is neither end of stream nor a read
    timeout. *)
Theorem readUntilPrompt_postcondition (timeout : Z) (prompts : list string) (w : World)
    (out : string) (err : option error) (w' : World) :
  readUntilPrompt timeout prompts w = Some ((out, err), w') ->
  readUntilPromptPost (now w + timeout) prompts "" w out err w'.
Proof.
  intros Hrun. rewrite readUntilPrompt_unfold in Hrun.
  now apply readUntilPrompt_loop_post in Hrun.
Qed.

(** X9. Whenever [readTelnetOutput] returns, the text is exactly what
    the reads it took delivered.  Its only error is the timeout error,
    returned once the deadline is passed; a read error that is not a
    read timeout (end of stream, reset, anything) ends the call without
    error, just as a prompt in the text does. *)
Theorem readTelnetOutput_postcondition (timeout : Z) (prompts : list string) (w : World)
    (out : string) (err : option error) (w' : World) :
  readTelnetOutput timeout prompts w = Some ((out, err), w') ->
  readTelnetOutputPost (now w + timeout) prompts "" w out err w'.
Proof.
  intros Hrun. rewrite readTelnetOutput_unfold in Hrun.
  now apply readTelnetOutput_loop_post in Hrun.
Qed.

(** X10. [waitForString] reports success only after a read that
    delivered bytes and left one of the patterns in what it has received
    so far, the text and the pattern both taken through
    [strings.ToLower]; otherwise it returns the timeout error, once the
    deadline is passed, or the error of the last read, end of stream
    included. *)
Theorem waitForString_postcondition (timeout : Z) (patterns : list string) (w : World)
    (err : option error) (w' : World) :
  waitForString timeout patterns w = Some (err, w') ->
  waitForStringPost (now w + timeout) patterns "" w err w'.
Proof.
  intros Hrun. rewrite waitForString_unfold in Hrun.
  now apply waitForString_loop_post in Hrun.
Qed.

(** ** Soft timeouts and cancellation in the read loops *)









Lemma split_last_pass (evs : list ReadEv) (timeout : Z) :
  elapsed (removelast evs) <= timeout -> timeout < elapsed evs ->
  exists init last, evs = (init ++ [last])%list /\ elapsed init <= timeout.
Proof.
  intros H1 H2. destruct evs as [|x xs] using rev_ind.
  - cbn in *. lia.
  - exists xs, x. split; [reflexivity|]. now rewrite removelast_last in H1.
Qed.









(** ** The Telnet read loops and the context *)

Lemma readTelnetOutput_loop_withCancel (prompts : list string) (deadline : Z) (c : option Z) :
  forall (fuel : nat) (buf : string) (w : World),
    readTelnetOutput_loop fuel deadline prompts buf (withCancel c w) =
    mapWorld (withCancel c) (readTelnetOutput_loop fuel deadline prompts buf w).
Proof.
  induction fuel as [|fuel IH]; intros buf w; [reflexivity|].
  destruct w as [t ca ib wo wc st fs tr].
  cbn [readTelnetOutput_loop]. unfold bind, timeNow, connRead, ret, timeSleep, withCancel.
  cbn [now inbound cancelAt writeOutcome writeCount setup fsOutcome trace].
  destruct (deadline <? t); [reflexivity|].
  cbn [now inbound cancelAt writeOutcome writeCount setup fsOutcome trace].
  destruct ib as [|ev rest]; [reflexivity|].
  cbn [rdata rerr now inbound cancelAt writeOutcome writeCount setup fsOutcome trace].
  destruct (gotBytes (rdata ev) && _); [reflexivity|].
  destruct (rerr ev) as [e|].
  - destruct (isNetTimeout e); [|reflexivity].
    exact (IH _ (mkWorld _ ca _ _ _ _ _ _)).
  - exact (IH _ (mkWorld _ ca _ _ _ _ _ _)).
Qed.

Lemma waitForString_loop_withCancel (patterns : list string) (deadline : Z) (c : option Z) :
  forall (fuel : nat) (buf : string) (w : World),
    waitForString_loop fuel deadline patterns buf (withCancel c w) =
    mapWorld (withCancel c) (waitForString_loop fuel deadline patterns buf w).
Proof.
  induction fuel as [|fuel IH]; intros buf w; [reflexivity|].
  destruct w as [t ca ib wo wc st fs tr].
  cbn [waitForString_loop]. unfold bind, timeNow, connRead, ret, timeSleep, withCancel.
  cbn [now inbound cancelAt writeOutcome writeCount setup fsOutcome trace].
  destruct (deadline <? t); [reflexivity|].
  cbn [now inbound cancelAt writeOutcome writeCount setup fsOutcome trace].
  destruct ib as [|ev rest]; [reflexivity|].
  cbn [rdata rerr now inbound cancelAt writeOutcome writeCount setup fsOutcome trace].
  destruct (gotBytes (rdata ev) && _); [reflexivity|].
  destruct (rerr ev) as [e|].
  - destruct (isNetTimeout e); [|reflexivity].
    exact (IH _ (mkWorld _ ca _ _ _ _ _ _)).
  - exact (IH _ (mkWorld _ ca _ _ _ _ _ _)).
Qed.

(** X13. The two read loops of the Telnet path never look at the
    context: whether and when cancellation is signalled changes nothing
    in what [readTelnetOutput] and [waitForString] read, return or how
    long they take. *)
Theorem telnet_reads_ignore_cancellation (timeout : Z) (pats : list string) (w : World)
    (c : option Z) :
  readTelnetOutput timeout pats (withCancel c w) =
    mapWorld (withCancel c) (readTelnetOutput timeout pats w) /\
  waitForString timeout pats (withCancel c w) =
    mapWorld (withCancel c) (waitForString timeout pats w).
Proof.
  split.
  - rewrite !readTelnetOutput_unfold. apply readTelnetOutput_loop_withCancel.
  - rewrite !waitForString_unfold. apply waitForString_loop_withCancel.
Qed.

(** ** How long a read loop can take *)

Lemma readUntilPrompt_loop_bounded (prompts : list string) (deadline : Z) :
  forall (fuel : nat) (buf : string) (w : World) r w',
    readsWithinDeadline (inbound w) ->
    now w <= deadline + 600 * GoTime.Millisecond ->
    readUntilPrompt_loop fuel deadline prompts buf w = Some (r, w') ->
    now w' <= deadline + 600 * GoTime.Millisecond.
Proof.
  unfold readsWithinDeadline, GoTime.Millisecond.
  induction fuel as [|fuel IH]; intros buf w r w' Hall Hn Hrun; [discriminate|].
  cbn [readUntilPrompt_loop] in Hrun. unfold bind at 1 in Hrun. unfold ctxDone at 1 in Hrun.
  destruct (isDone w); [injection Hrun as _ <-; exact Hn|].
  unfold bind at 1 in Hrun. unfold timeNow at 1 in Hrun.
  destruct (Z.ltb_spec deadline (now w)); [injection Hrun as _ <-; exact Hn|].
  unfold bind at 1 in Hrun. unfold connRead at 1 in Hrun.
  destruct (inbound w) as [|ev rest] eqn:Hin; [discriminate|].
  inversion Hall as [|? ? Hev Hrest]; subst.
  cbn [rdata rerr] in Hrun.
  destruct (gotBytes (rdata ev) && _); [injection Hrun as _ <-; cbn [now]; lia|].
  destruct (rerr ev) as [e|].
  - destruct (isEOF e); [injection Hrun as _ <-; cbn [now]; lia|].
    destruct (isNetTimeout e); [|injection Hrun as _ <-; cbn [now]; lia].
    eapply IH; [ | | exact Hrun]; cbn [inbound now];
      [assumption | unfold GoTime.Millisecond; lia].
  - unfold bind at 1 in Hrun. unfold timeSleep at 1 in Hrun.
    eapply IH; [ | | exact Hrun]; cbn [inbound now];
      [assumption | unfold GoTime.Millisecond; lia].
Qed.

Lemma readTelnetOutput_loop_bounded (prompts : list string) (deadline : Z) :
  forall (fuel : nat) (buf : string) (w : World) r w',
    readsWithinDeadline (inbound w) ->
    now w <= deadline + 600 * GoTime.Millisecond ->
    readTelnetOutput_loop fuel deadline prompts buf w = Some (r, w') ->
    now w' <= deadline + 600 * GoTime.Millisecond.
Proof.
  unfold readsWithinDeadline, GoTime.Millisecond.
  induction fuel as [|fuel IH]; intros buf w r w' Hall Hn Hrun; [discriminate|].
  cbn [readTelnetOutput_loop] in Hrun.
  unfold bind at 1 in Hrun. unfold timeNow at 1 in Hrun.
  destruct (Z.ltb_spec deadline (now w)); [injection Hrun as _ <-; exact Hn|].
  unfold bind at 1 in Hrun. unfold connRead at 1 in Hrun.
  destruct (inbound w) as [|ev rest] eqn:Hin; [discriminate|].
  inversion Hall as [|? ? Hev Hrest]; subst.
  cbn [rdata rerr] in Hrun.
  destruct (gotBytes (rdata ev) && _); [injection Hrun as _ <-; cbn [now]; lia|].
  destruct (rerr ev) as [e|].
  - destruct (isNetTimeout e); [|injection Hrun as _ <-; cbn [now]; lia].
    eapply IH; [ | | exact Hrun]; cbn [inbound now];
      [assumption | unfold GoTime.Millisecond; lia].
  - unfold bind at 1 in Hrun. unfold timeSleep at 1 in Hrun.
    eapply IH; [ | | exact Hrun]; cbn [inbound now];
      [assumption | unfold GoTime.Millisecond; lia].
Qed.

Lemma waitForString_loop_bounded (patterns : list string) (deadline : Z) :
  forall (fuel : nat) (buf : string) (w : World) r w',
    readsWithinDeadline (inbound w) ->
    now w <= deadline + 600 * GoTime.Millisecond ->
    waitForString_loop fuel deadline patterns buf w = Some (r, w') ->
    now w' <= deadline + 600 * GoTime.Millisecond.
Proof.
  unfold readsWithinDeadline, GoTime.Millisecond.
  induction fuel as [|fuel IH]; intros buf w r w' Hall Hn Hrun; [discriminate|].
  cbn [waitForString_loop] in Hrun.
  unfold bind at 1 in Hrun. unfold timeNow at 1 in Hrun.
  destruct (Z.ltb_spec deadline (now w)); [injection Hrun as _ <-; exact Hn|].
  unfold bind at 1 in Hrun. unfold connRead at 1 in Hrun.
  destruct (inbound w) as [|ev rest] eqn:Hin; [discriminate|].
  inversion Hall as [|? ? Hev Hrest]; subst.
  cbn [rdata rerr] in Hrun.
  destruct (gotBytes (rdata ev) && _); [injection Hrun as _ <-; cbn [now]; lia|].
  destruct (rerr ev) as [e|].
  - destruct (isNetTimeout e); [|injection Hrun as _ <-; cbn [now]; lia].
    eapply IH; [ | | exact Hrun]; cbn [inbound now];
      [assumption | unfold GoTime.Millisecond; lia].
  - unfold bind at 1 in Hrun. unfold timeSleep at 1 in Hrun.
    eapply IH; [ | | exact Hrun]; cbn [inbound now];
      [assumption | unfold GoTime.Millisecond; lia].
Qed.

(** With reads that answer, or time out, until the deadline has passed,
    a loop returns: the reads are the only place where it can wait for
    ever. *)
Lemma readUntilPrompt_loop_returns (prompts : list string) (deadline : Z) :
  forall (fuel : nat) (buf : string) (w : World),
    (List.length (inbound w) < fuel)%nat ->
    deadline - now w < elapsed (inbound w) ->
    exists r w', readUntilPrompt_loop fuel deadline prompts buf w = Some (r, w').
Proof.
  induction fuel as [|fuel IH]; intros buf w Hf He; [lia|].
  cbn [readUntilPrompt_loop]. unfold bind at 1. unfold ctxDone at 1.
  destruct (isDone w); [eexists; eexists; reflexivity|].
  unfold bind at 1. unfold timeNow at 1.
  destruct (Z.ltb_spec deadline (now w)); [eexists; eexists; reflexivity|].
  unfold bind at 1. unfold connRead at 1.
  destruct (inbound w) as [|ev rest] eqn:Hin; [cbn [elapsed] in He; lia|].
  cbn [rdata rerr List.length elapsed] in *. unfold passTime in He.
  destruct (gotBytes (rdata ev) && _); [eexists; eexists; reflexivity|].
  destruct (rerr ev) as [e|].
  - destruct (isEOF e); [eexists; eexists; reflexivity|].
    destruct (isNetTimeout e); [|eexists; eexists; reflexivity].
    apply IH; cbn [inbound now]; lia.
  - unfold bind at 1. unfold timeSleep at 1.
    apply IH; cbn [inbound now]; unfold GoTime.Millisecond in *; lia.
Qed.

Lemma readTelnetOutput_loop_returns (prompts : list string) (deadline : Z) :
  forall (fuel : nat) (buf : string) (w : World),
    (List.length (inbound w) < fuel)%nat ->
    deadline - now w < elapsed (inbound w) ->
    exists r w', readTelnetOutput_loop fuel deadline prompts buf w = Some (r, w').
Proof.
  induction fuel as [|fuel IH]; intros buf w Hf He; [lia|].
  cbn [readTelnetOutput_loop]. unfold bind at 1. unfold timeNow at 1.
  destruct (Z.ltb_spec deadline (now w)); [eexists; eexists; reflexivity|].
  unfold bind at 1. unfold connRead at 1.
  destruct (inbound w) as [|ev rest] eqn:Hin; [cbn [elapsed] in He; lia|].
  cbn [rdata rerr List.length elapsed] in *. unfold passTime in He.
  destruct (gotBytes (rdata ev) && _); [eexists; eexists; reflexivity|].
  destruct (rerr ev) as [e|].
  - destruct (isNetTimeout e); [|eexists; eexists; reflexivity].
    apply IH; cbn [inbound now]; lia.
  - unfold bind at 1. unfold timeSleep at 1.
    apply IH; cbn [inbound now]; unfold GoTime.Millisecond in *; lia.
Qed.

Lemma waitForString_loop_returns (patterns : list string) (deadline : Z) :
  forall (fuel : nat) (buf : string) (w : World),
    (List.length (inbound w) < fuel)%nat ->
    deadline - now w < elapsed (inbound w) ->
    exists r w', waitForString_loop fuel deadline patterns buf w = Some (r, w').
Proof.
  induction fuel as [|fuel IH]; intros buf w Hf He; [lia|].
  cbn [waitForString_loop]. unfold bind at 1. unfold timeNow at 1.
  destruct (Z.ltb_spec deadline (now w)); [eexists; eexists; reflexivity|].
  unfold bind at 1. unfold connRead at 1.
  destruct (inbound w) as [|ev rest] eqn:Hin; [cbn [elapsed] in He; lia|].
  cbn [rdata rerr List.length elapsed] in *. unfold passTime in He.
  destruct (gotBytes (rdata ev) && _); [eexists; eexists; reflexivity|].
  destruct (rerr ev) as [e|].
  - destruct (isNetTimeout e); [|eexists; eexists; reflexivity].
    apply IH; cbn [inbound now]; lia.
  - unfold bind at 1. unfold timeSleep at 1.
    apply IH; cbn [inbound now]; unfold GoTime.Millisecond in *; lia.
Qed.

(** X14. When the reads of the stream go on answering, or timing out,
    until the timeout has passed, each of them within the 500 ms read
    deadline, a read loop called with timeout [t >= 0] returns, and it
    returns no later than [t] plus 600 ms after it was called (one read
    and one 100 ms pause past the deadline at most). *)
Theorem read_loops_return_in_time (timeout : Z) (pats : list string) (w : World) :
  0 <= timeout ->
  readsWithinDeadline (inbound w) ->
  timeout < elapsed (inbound w) ->
  (exists r w', readTelnetOutput timeout pats w = Some (r, w') /\
                now w' <= now w + timeout + 600 * GoTime.Millisecond) /\
  (exists r w', readUntilPrompt timeout pats w = Some (r, w') /\
                now w' <= now w + timeout + 600 * GoTime.Millisecond) /\
  (exists r w', waitForString timeout pats w = Some (r, w') /\
                now w' <= now w + timeout + 600 * GoTime.Millisecond).
Proof.
  intros Ht Hall He. split; [|split].
  - rewrite readTelnetOutput_unfold.
    destruct (readTelnetOutput_loop_returns pats (now w + timeout)
                (S (List.length (inbound w))) "" w) as (r & w' & Hrun); [lia | lia |].
    exists r, w'. split; [exact Hrun|].
    eapply readTelnetOutput_loop_bounded in Hrun; unfold GoTime.Millisecond in *;
      [lia | exact Hall | lia].
  - rewrite readUntilPrompt_unfold.
    destruct (readUntilPrompt_loop_returns pats (now w + timeout)
                (S (List.length (inbound w))) "" w) as (r & w' & Hrun); [lia | lia |].
    exists r, w'. split; [exact Hrun|].
    eapply readUntilPrompt_loop_bounded in Hrun; unfold GoTime.Millisecond in *;
      [lia | exact Hall | lia].
  - rewrite waitForString_unfold.
    destruct (waitForString_loop_returns pats (now w + timeout)
                (S (List.length (inbound w))) "" w) as (r & w' & Hrun); [lia | lia |].
    exists r, w'. split; [exact Hrun|].
    eapply waitForString_loop_bounded in Hrun; unfold GoTime.Millisecond in *;
      [lia | exact Hall | lia].
Qed.

(** ** What each part of the program can add to the trace *)

Lemma emitsOnly_weaken {A} (Q Q' : Event -> Prop) (m : M A) :
  (forall e, Q e -> Q' e) -> emitsOnly Q m -> emitsOnly Q' m.
Proof.
  intros Himp Hm w r w' Hrun. destruct (Hm w r w' Hrun) as [evs [Ht Hall]].
  exists evs. split; [exact Ht|]. eapply Forall_impl; eauto.
Qed.

Lemma emitsOnly_ret {A} (Q : Event -> Prop) (a : A) : emitsOnly Q (ret a).
Proof.
  intros w r w' H. injection H as _ <-. exists []. now rewrite app_nil_r.
Qed.

Lemma emitsOnly_none {A} (Q : Event -> Prop) : emitsOnly Q (fun _ : World => @None (A * World)).
Proof. intros w r w' H. discriminate. Qed.

Lemma emitsOnly_bind {A B} (Q : Event -> Prop) (m : M A) (k : A -> M B) :
  emitsOnly Q m -> (forall a, emitsOnly Q (k a)) -> emitsOnly Q (bind m k).
Proof.
  intros Hm Hk w r w' Hrun. unfold bind in Hrun.
  destruct (m w) as [[a w1]|] eqn:Hmw; [|discriminate].
  destruct (Hm w a w1 Hmw) as [evs1 [Ht1 Ha1]].
  destruct (Hk a w1 r w' Hrun) as [evs2 [Ht2 Ha2]].
  exists (evs1 ++ evs2)%list. split.
  - now rewrite Ht2, Ht1, app_assoc.
  - apply Forall_app. now split.
Qed.

Lemma emitsOnly_emit (Q : Event -> Prop) (e : Event) : Q e -> emitsOnly Q (emit e).
Proof.
  intros HQ w r w' H. injection H as _ <-. exists [e]. split; [reflexivity|].
  now constructor.
Qed.

Lemma emitsOnly_slog (Q : Event -> Prop) lvl msg attrs :
  Q (EvLog lvl msg attrs) -> emitsOnly Q (slog lvl msg attrs).
Proof. apply emitsOnly_emit. Qed.

Lemma emitsOnly_timeSleep (Q : Event -> Prop) (d : Z) :
  Q (EvSleep d) -> emitsOnly Q (timeSleep d).
Proof.
  intros HQ w r w' H. injection H as _ <-. exists [EvSleep d]. split; [reflexivity|].
  now constructor.
Qed.

Lemma emitsOnly_connWrite (Q : Event -> Prop) (data : string) :
  (forall res, Q (EvSend data res)) -> emitsOnly Q (connWrite data).
Proof.
  intros HQ w r w' H. injection H as _ <-. eexists [_]. split; [reflexivity|].
  constructor; [apply HQ | constructor].
Qed.

Lemma emitsOnly_connRead (Q : Event -> Prop) :
  (forall ev, Q (EvRecv ev)) -> emitsOnly Q connRead.
Proof.
  intros HQ w r w' H. unfold connRead in H.
  destruct (inbound w) as [|ev rest]; [discriminate|]. injection H as _ <-.
  exists [EvRecv ev]. split; [reflexivity|]. constructor; [apply HQ | constructor].
Qed.

Lemma emitsOnly_ctxDone (Q : Event -> Prop) : emitsOnly Q ctxDone.
Proof. intros w r w' H. injection H as _ <-. exists []. now rewrite app_nil_r. Qed.

Lemma emitsOnly_timeNow (Q : Event -> Prop) : emitsOnly Q timeNow.
Proof. intros w r w' H. injection H as _ <-. exists []. now rewrite app_nil_r. Qed.

Lemma emitsOnly_getSetup (Q : Event -> Prop) : emitsOnly Q getSetup.
Proof. intros w r w' H. injection H as _ <-. exists []. now rewrite app_nil_r. Qed.

Lemma emitsOnly_getFs (Q : Event -> Prop) : emitsOnly Q getFs.
Proof. intros w r w' H. injection H as _ <-. exists []. now rewrite app_nil_r. Qed.

Lemma emitsOnly_readBudget (Q : Event -> Prop) : emitsOnly Q readBudget.
Proof. intros w r w' H. injection H as _ <-. exists []. now rewrite app_nil_r. Qed.

(** Going through a computation built from the operations above. *)
Ltac emits_step :=
  first
    [ apply emitsOnly_ret
    | apply emitsOnly_none
    | apply emitsOnly_ctxDone
    | apply emitsOnly_timeNow
    | apply emitsOnly_getSetup
    | apply emitsOnly_getFs
    | apply emitsOnly_readBudget
    | apply emitsOnly_timeSleep; reflexivity
    | apply emitsOnly_slog; reflexivity
    | apply emitsOnly_emit; reflexivity
    | apply emitsOnly_connWrite; intros; reflexivity
    | apply emitsOnly_connRead; intros; reflexivity
    | assumption
    | apply emitsOnly_bind; [ | intros ? ]
    | match goal with
      | |- emitsOnly _ (if ?c then _ else _) => destruct c
      | |- emitsOnly _ (match ?x with _ => _ end) => destruct x
      | |- emitsOnly _ (let (_, _) := ?x in _) => destruct x
      end ].

Ltac emits := repeat emits_step.

Ltac emits_using tac := repeat first [ tac | emits_step ].

Lemma readEvent_io (e : Event) : readEvent e = true -> ioEvent e = true.
Proof. unfold ioEvent. now intros ->. Qed.

Lemma ioEvent_open (e : Event) : ioEvent e = true -> openEvent e = true.
Proof. unfold openEvent. now intros ->. Qed.

Lemma setupEvent_open (e : Event) : setupEvent e = true -> openEvent e = true.
Proof. unfold openEvent. intros ->. apply orb_true_r. Qed.

Lemma openEvent_session (e : Event) : openEvent e = true -> sessionEvent e = true.
Proof. unfold sessionEvent. now intros ->. Qed.

Lemma sessionEvent_executor (e : Event) : sessionEvent e = true -> executorEvent e = true.
Proof. unfold executorEvent. now intros ->. Qed.

Lemma executorEvent_controller (e : Event) :
  executorEvent e = true -> controllerEvent e = true.
Proof. unfold controllerEvent. now intros ->. Qed.

Lemma readUntilPrompt_loop_emits (prompts : list string) (deadline : Z) :
  forall (fuel : nat) (buf : string),
    emitsOnly (fun e => readEvent e = true) (readUntilPrompt_loop fuel deadline prompts buf).
Proof.
  induction fuel as [|fuel IH]; intros buf; cbn [readUntilPrompt_loop]; emits; apply IH.
Qed.

Lemma readTelnetOutput_loop_emits (prompts : list string) (deadline : Z) :
  forall (fuel : nat) (buf : string),
    emitsOnly (fun e => readEvent e = true) (readTelnetOutput_loop fuel deadline prompts buf).
Proof.
  induction fuel as [|fuel IH]; intros buf; cbn [readTelnetOutput_loop]; emits; apply IH.
Qed.

Lemma waitForString_loop_emits (patterns : list string) (deadline : Z) :
  forall (fuel : nat) (buf : string),
    emitsOnly (fun e => readEvent e = true) (waitForString_loop fuel deadline patterns buf).
Proof.
  induction fuel as [|fuel IH]; intros buf; cbn [waitForString_loop]; emits; apply IH.
Qed.

Lemma readUntilPrompt_emits (timeout : Z) (prompts : list string) :
  emitsOnly (fun e => readEvent e = true) (readUntilPrompt timeout prompts).
Proof. unfold readUntilPrompt. emits. apply readUntilPrompt_loop_emits. Qed.

Lemma readTelnetOutput_emits (timeout : Z) (prompts : list string) :
  emitsOnly (fun e => readEvent e = true) (readTelnetOutput timeout prompts).
Proof. unfold readTelnetOutput. emits. apply readTelnetOutput_loop_emits. Qed.

Lemma waitForString_emits (timeout : Z) (patterns : list string) :
  emitsOnly (fun e => readEvent e = true) (waitForString timeout patterns).
Proof. unfold waitForString. emits. apply waitForString_loop_emits. Qed.

(** The read functions, for any class of events that contains theirs. *)
Ltac emits_reads :=
  first
    [ eapply emitsOnly_weaken; [ | apply readUntilPrompt_emits ];
      intros ? ?; auto using readEvent_io, ioEvent_open, openEvent_session,
                    sessionEvent_executor, executorEvent_controller
    | eapply emitsOnly_weaken; [ | apply readTelnetOutput_emits ];
      intros ? ?; auto using readEvent_io, ioEvent_open, openEvent_session,
                    sessionEvent_executor, executorEvent_controller
    | eapply emitsOnly_weaken; [ | apply waitForString_emits ];
      intros ? ?; auto using readEvent_io, ioEvent_open, openEvent_session,
                    sessionEvent_executor, executorEvent_controller ].

Lemma telnetCommandLoop_emits (job : Job) (prompts : list string) :
  forall (cmds : list string) (result : string),
    emitsOnly (fun e => ioEvent e = true) (telnetCommandLoop job prompts cmds result).
Proof.
  induction cmds as [|cmd rest IH]; intros result; cbn [telnetCommandLoop];
    emits_using ltac:(first [apply IH | emits_reads]).
Qed.

Lemma sshCommandLoop_emits (job : Job) (prompts : list string) :
  forall (cmds : list string) (result : string),
    emitsOnly (fun e => ioEvent e = true) (sshCommandLoop job prompts cmds result).
Proof.
  induction cmds as [|cmd rest IH]; intros result; cbn [sshCommandLoop];
    emits_using ltac:(first [apply IH | emits_reads]).
Qed.

Ltac emits_loops :=
  first
    [ emits_reads
    | eapply emitsOnly_weaken; [ | apply telnetCommandLoop_emits ];
      intros ? ?; auto using ioEvent_open, openEvent_session,
                    sessionEvent_executor, executorEvent_controller
    | eapply emitsOnly_weaken; [ | apply sshCommandLoop_emits ];
      intros ? ?; auto using ioEvent_open, openEvent_session,
                    sessionEvent_executor, executorEvent_controller ].

Lemma applySSHLegacyConfig_emits (legacy : SSHLegacy) :
  emitsOnly (fun e => setupEvent e = true) (applySSHLegacyConfig legacy).
Proof. unfold applySSHLegacyConfig. emits. Qed.

(** *** Sessions end by closing what they opened *)

Lemma releases_nil {A} (Q : Event -> Prop) (m : M A) :
  emitsOnly Q m -> releases Q [] m.
Proof.
  intros Hm w r w' Hrun. destruct (Hm w r w' Hrun) as [evs [Ht Hall]].
  exists evs. cbn [map]. now rewrite app_nil_r.
Qed.

Lemma releases_bind {A B} (Q : Event -> Prop) (cl : list string) (m : M A) (k : A -> M B) :
  emitsOnly Q m -> (forall a, releases Q cl (k a)) -> releases Q cl (bind m k).
Proof.
  intros Hm Hk w r w' Hrun. unfold bind in Hrun.
  destruct (m w) as [[a w1]|] eqn:Hmw; [|discriminate].
  destruct (Hm w a w1 Hmw) as [evs1 [Ht1 Ha1]].
  destruct (Hk a w1 r w' Hrun) as [evs2 [Ht2 Ha2]].
  exists (evs1 ++ evs2)%list. split.
  - now rewrite Ht2, Ht1, <- !app_assoc.
  - apply Forall_app. now split.
Qed.

Lemma releases_deferClose {A} (Q : Event -> Prop) (cl : list string) (what : string)
    (body : M A) :
  releases Q cl body -> releases Q (cl ++ [what]) (deferClose what body).
Proof.
  intros Hb w r w' Hrun. unfold deferClose, bind in Hrun.
  destruct (body w) as [[a w1]|] eqn:Hbw; [|discriminate].
  destruct (Hb w a w1 Hbw) as [evs [Ht Hall]].
  cbn in Hrun. injection Hrun as _ <-. exists evs. split; [|exact Hall].
  cbn [trace]. now rewrite Ht, map_app, <- !app_assoc.
Qed.

Lemma bind_inv {A B} (m : M A) (k : A -> M B) (w : World) (r : B) (w' : World) :
  bind m k w = Some (r, w') ->
  exists a w1, m w = Some (a, w1) /\ k a w1 = Some (r, w').
Proof.
  unfold bind. intros H. destruct (m w) as [[a w1]|]; [|discriminate].
  now exists a, w1.
Qed.

Lemma collectTelnet_session (job : Job) (cmds prompts : list string) :
  releases (fun e => openEvent e = true) ["conn"]
    (deferClose "conn" (
      t <- timeNow ;;
      let result := transcriptHeader job "telnet" t in
      e1 <- waitForString (Job_Timeout job) ["sername:"; "ogin:"] ;;
      match e1 with
      | Some e =>
          ret (result, Some (fmt_Errorf "timeout aguardando login prompt: %w" [ArgErr e]))
      | None =>
      e2 <- connWrite (Job_Username job ++ nl) ;;
      match e2 with
      | Some e => ret (result, Some (fmt_Errorf "erro enviando username: %w" [ArgErr e]))
      | None =>
      e3 <- waitForString (Job_Timeout job) ["assword:"] ;;
      match e3 with
      | Some e =>
          ret (result, Some (fmt_Errorf "timeout aguardando password prompt: %w" [ArgErr e]))
      | None =>
      e4 <- connWrite (Job_Password job ++ nl) ;;
      match e4 with
      | Some e => ret (result, Some (fmt_Errorf "erro enviando password: %w" [ArgErr e]))
      | None =>
      timeSleep (2 * GoTime.Second) ;;;
      r <- telnetCommandLoop job prompts cmds result ;;
      match r with
      | (result, Some e) => ret (result, Some e)
      | (result, None) =>
          connWrite ("quit" ++ nl) ;;;
          timeSleep (300 * GoTime.Millisecond) ;;;
          ret (result, None)
      end
      end end end end)).
Proof.
  apply (releases_deferClose _ []), releases_nil.
  emits_using emits_loops.
Qed.

(** X15.  A Telnet collection that returns, with a transcript or with any
    error, has closed the connection if and only if the dial succeeded:
    the close is the last thing it does, and nothing is closed before. *)
Theorem telnet_connection_released (job : Job) (cmds prompts : list string)
    (w : World) (r : string * option error) (w' : World) :
  collectTelnet job cmds prompts w = Some (r, w') ->
  exists evs,
    trace w' = (trace w ++ evs
                ++ map EvClose (if isNone (dialErr (setup w)) then ["conn"] else []))%list /\
    Forall (fun e => openEvent e = true) evs.
Proof.
  intros Hrun. unfold collectTelnet in Hrun.
  apply bind_inv in Hrun as (u1 & w1 & H1 & Hrun). injection H1 as _ <-.
  apply bind_inv in Hrun as (u2 & w2 & H2 & Hrun). injection H2 as _ <-.
  apply bind_inv in Hrun as (s & w3 & H3 & Hrun). injection H3 as <- <-.
  cbn [setup] in Hrun.
  destruct (dialErr (setup w)) as [e|].
  - injection Hrun as _ <-. cbn [trace isNone map].
    eexists [_; _]. rewrite app_nil_r, <- app_assoc. split; [reflexivity|].
    repeat constructor.
  - apply collectTelnet_session in Hrun. destruct Hrun as [evs [Ht Hall]].
    cbn [trace] in Ht. cbn [isNone].
    eexists (_ :: _ :: evs). split.
    + rewrite Ht, <- !app_assoc. reflexivity.
    + repeat constructor. exact Hall.
Qed.

(** X16.  An SSH collection that returns has closed, last of all and in
    the reverse order of opening, exactly what its setup had opened:
    nothing when the dial failed, the connection alone when the handshake
    failed, and so on; when the shell could not be started it has neither
    written to the device nor read from it. *)
Theorem ssh_session_released (job : Job) (cmds prompts : list string)
    (w : World) (r : string * option error) (w' : World) :
  collectSSH job cmds prompts w = Some (r, w') ->
  exists evs,
    trace w' = (trace w ++ evs ++ map EvClose (rev (opened (setup w))))%list /\
    Forall (fun e => openEvent e = true) evs /\
    (shellStarted (setup w) = false -> Forall (fun e => setupEvent e = true) evs).
Proof.
  intros Hrun.
  assert (Hgoal : exists evs,
    trace w' = (trace w ++ evs ++ map EvClose (rev (opened (setup w))))%list /\
    Forall (fun e => (if shellStarted (setup w) then openEvent e else setupEvent e) = true)
           evs).
  { unfold collectSSH in Hrun.
    apply bind_inv in Hrun as (u1 & w1 & H1 & Hrun). injection H1 as _ <-.
    apply bind_inv in Hrun as (u2 & w2 & H2 & Hrun).
    assert (Hpre : exists pre, trace w2 = (trace w ++ pre)%list /\
                               Forall (fun e => setupEvent e = true) pre /\
                               setup w2 = setup w).
    { destruct (Job_SSHLegacy job) as [legacy|]; [destruct (Enabled legacy)|].
      - cbn in H2. injection H2 as _ <-. cbn [trace setup]. rewrite <- app_assoc.
        eexists. split; [reflexivity|]. split; [|reflexivity]. repeat constructor.
      - injection H2 as _ <-. cbn [trace setup].
        eexists. split; [reflexivity|]. split; [|reflexivity]. repeat constructor.
      - injection H2 as _ <-. cbn [trace setup].
        eexists. split; [reflexivity|]. split; [|reflexivity]. repeat constructor. }
    destruct Hpre as (pre & Hpre & Hpall & Hsetup).
    apply bind_inv in Hrun as (u3 & w3 & H3 & Hrun). injection H3 as _ <-.
    apply bind_inv in Hrun as (s & w4 & H4 & Hrun). injection H4 as <- <-.
    cbn [setup] in Hrun. rewrite Hsetup in Hrun.
    assert (Hweak : forall e, setupEvent e = true ->
              (if shellStarted (setup w) then openEvent e else setupEvent e) = true).
    { intros e He. destruct (shellStarted (setup w)); auto using setupEvent_open. }
    unfold opened, shellStarted in *.
    destruct (setup w) as [d h n p i o sh]. cbn [dialErr handshakeErr newSessionErr
      requestPtyErr stdinPipeErr stdoutPipeErr shellErr] in *.
    destruct d as [e|].
    - injection Hrun as _ <-. cbn [trace isNone map rev andb].
      exists (pre ++ [EvDial "tcp" (dialAddr job)])%list.
      rewrite Hpre, app_nil_r, <- app_assoc. split; [reflexivity|].
      apply Forall_app. split; [|repeat constructor].
      eapply Forall_impl; [|exact Hpall]. auto.
    - assert (Hrel : exists evs,
        trace w' = (trace w2 ++ [EvDial "tcp" (dialAddr job)] ++ evs
                    ++ map EvClose (rev ("conn" :: match h with
                         | Some _ => []
                         | None => "client" :: match n with
                                                | Some _ => []
                                                | None => ["session"]
                                                end
                         end)))%list /\
        Forall (fun e => (if isNone (@None error) && isNone h && isNone n && isNone p
                             && isNone i && isNone o && isNone sh
                          then openEvent e else setupEvent e) = true) evs).
      { revert Hrun.
        match goal with
        | |- ?m ?w0 = _ -> _ =>
            intros Hrun;
            cut (releases
                   (fun e => (if isNone (@None error) && isNone h && isNone n && isNone p
                                 && isNone i && isNone o && isNone sh
                              then openEvent e else setupEvent e) = true)
                   (rev ("conn" :: match h with
                         | Some _ => []
                         | None => "client" :: match n with
                                                | Some _ => []
                                                | None => ["session"]
                                                end
                         end)) m)
        end.
        - intros Hr. destruct (Hr _ _ _ Hrun) as [evs [Ht Hall]].
          cbn [trace] in Ht. exists evs. rewrite Ht, <- !app_assoc. now split.
        - destruct h as [eh|]; [|destruct n as [en|]];
            cbn [isNone andb rev app].
          + apply (releases_deferClose _ []), releases_nil. emits.
          + apply (releases_deferClose _ ["client"]).
            apply releases_bind; [emits|intros _].
            apply (releases_deferClose _ []), releases_nil. emits.
          + apply (releases_deferClose _ ["session"; "client"]).
            destruct p, i, o, sh; cbn [isNone andb];
              (apply releases_bind; [emits|intros _]);
              apply (releases_deferClose _ ["session"]);
              apply (releases_deferClose _ []), releases_nil;
              emits_using emits_loops. }
      destruct Hrel as (evs & Ht & Hall).
      exists (pre ++ [EvDial "tcp" (dialAddr job)] ++ evs)%list. split.
      + rewrite Ht, Hpre, <- !app_assoc. reflexivity.
      + apply Forall_app. split; [eapply Forall_impl; [|exact Hpall]; auto|].
        apply Forall_app. split; [|exact Hall].
        repeat constructor. apply Hweak. reflexivity. }
  destruct Hgoal as (evs & Ht & Hall). exists evs. split; [exact Ht|]. split.
  - eapply Forall_impl; [|exact Hall]. cbn beta. intros e He.
    destruct (shellStarted (setup w)); auto using setupEvent_open.
  - intros Hs. rewrite Hs in Hall. exact Hall.
Qed.

(** *** What is written to the device, and what the transcript holds *)

Lemma sends_app (a b : list Event) : sends (a ++ b) = (sends a ++ sends b)%list.
Proof. unfold sends. apply flat_map_app. Qed.

Lemma sends_reads (evs : list Event) :
  Forall (fun e => readEvent e = true) evs -> sends evs = [].
Proof.
  induction 1 as [|e evs He _ IH]; [reflexivity|].
  destruct e; try discriminate; exact IH.
Qed.

Lemma reads_send_nothing {A} (m : M A) (w : World) (r : A) (w' : World) :
  emitsOnly (fun e => readEvent e = true) m ->
  m w = Some (r, w') -> sends (trace w') = sends (trace w).
Proof.
  intros Hm Hrun. destruct (Hm w r w' Hrun) as [evs [-> Hall]].
  now rewrite sends_app, (sends_reads evs Hall), app_nil_r.
Qed.

Lemma effective_blank (cmd : string) (rest : list string) :
  String.eqb (TrimSpace cmd) "" = true -> effective (cmd :: rest) = effective rest.
Proof. intros H. unfold effective. cbn [map filter]. now rewrite H. Qed.

Lemma effective_cons (cmd : string) (rest : list string) :
  String.eqb (TrimSpace cmd) "" = false ->
  effective (cmd :: rest) = TrimSpace cmd :: effective rest.
Proof. intros H. unfold effective. cbn [map filter]. now rewrite H. Qed.

Lemma commandLoopPost_stop (cmds : list string) (result : string) (w : World)
    (e : error) :
  commandLoopPost cmds result w (result, Some e) w.
Proof.
  exists [], (effective cmds). cbn [map app fst snd transcriptOf List.concat].
  rewrite append_empty_r, app_nil_r. repeat split. discriminate.
Qed.

Lemma commandLoopPost_blank (cmd : string) (rest : list string) (result : string)
    (w : World) (r : string * option error) (w' : World) :
  String.eqb (TrimSpace cmd) "" = true ->
  commandLoopPost rest result w r w' -> commandLoopPost (cmd :: rest) result w r w'.
Proof. intros H. unfold commandLoopPost. now rewrite (effective_blank _ _ H). Qed.

Lemma commandLoopPost_step (cmd : string) (rest : list string) (result : string)
    (reads : list ReadEv) (w w1 : World) (r : string * option error) (w' : World) :
  String.eqb (TrimSpace cmd) "" = false ->
  sends (trace w1) = (sends (trace w) ++ [line (TrimSpace cmd)])%list ->
  inbound w = (reads ++ inbound w1)%list ->
  commandLoopPost rest ((result ++ cmdHeader (TrimSpace cmd)) ++ received reads) w1 r w' ->
  commandLoopPost (cmd :: rest) result w r w'.
Proof.
  intros H Hs Hi (blocks & remaining & Heff & Hout & Hsent & Hin & Hdone).
  exists ((TrimSpace cmd, reads) :: blocks), remaining.
  rewrite (effective_cons _ _ H), Heff. cbn [map fst snd app transcriptOf List.concat].
  split; [reflexivity|]. split; [|split; [|split; [|exact Hdone]]].
  - now rewrite Hout, !append_assoc.
  - now rewrite Hsent, Hs, <- app_assoc.
  - now rewrite Hi, Hin, app_assoc.
Qed.

(** What a read function returns is what the reads it took delivered. *)
Lemma readTelnetOutput_reads (timeout : Z) (prompts : list string) (w : World)
    (out : string) (err : option error) (w' : World) :
  readTelnetOutput timeout prompts w = Some ((out, err), w') ->
  exists reads, inbound w = (reads ++ inbound w')%list /\ out = received reads.
Proof.
  intros Hrun. rewrite readTelnetOutput_unfold in Hrun.
  apply readTelnetOutput_loop_post in Hrun as (reads & Hin & Hout & _).
  exists reads. now split.
Qed.

Lemma readUntilPrompt_reads (timeout : Z) (prompts : list string) (w : World)
    (out : string) (err : option error) (w' : World) :
  readUntilPrompt timeout prompts w = Some ((out, err), w') ->
  exists reads, inbound w = (reads ++ inbound w')%list /\ out = received reads.
Proof.
  intros Hrun. rewrite readUntilPrompt_unfold in Hrun.
  apply readUntilPrompt_loop_post in Hrun as (reads & Hin & Hout & _).
  exists reads. now split.
Qed.

Lemma telnetCommandLoop_post (job : Job) (prompts : list string) :
  forall (cmds : list string) (result : string) (w : World)
         (r : string * option error) (w' : World),
    telnetCommandLoop job prompts cmds result w = Some (r, w') ->
    commandLoopPost cmds result w r w'.
Proof.
  induction cmds as [|cmd rest IH]; intros result w r w' Hrun; cbn [telnetCommandLoop] in Hrun.
  - injection Hrun as <- <-. exists [], [].
    cbn [map app fst snd transcriptOf effective filter List.concat].
    now rewrite append_empty_r, app_nil_r.
  - apply bind_inv in Hrun as (done & w0 & H0 & Hrun). injection H0 as <- <-.
    destruct (isDone w).
    { injection Hrun as <- <-. apply commandLoopPost_stop. }
    destruct (String.eqb (TrimSpace cmd) "") eqn:Hblank.
    { apply commandLoopPost_blank; [exact Hblank|]. now apply IH. }
    apply bind_inv in Hrun as (werr & w1 & H1 & Hrun). injection H1 as <- <-.
    destruct (writeOutcome w (writeCount w)) as [e|].
    + apply bind_inv in Hrun as (u & w2 & H2 & Hrun). injection H2 as _ <-.
      apply IH in Hrun. rewrite <- (append_empty_r (result ++ cmdHeader (TrimSpace cmd))) in Hrun.
      eapply (commandLoopPost_step _ _ _ []); [exact Hblank| | |exact Hrun].
      * cbn [trace]. rewrite !sends_app. cbn. now rewrite app_nil_r.
      * reflexivity.
    + apply bind_inv in Hrun as ([output err] & w2 & H2 & Hrun).
      pose proof (reads_send_nothing _ _ _ _ (readTelnetOutput_emits _ _) H2) as Hs2.
      cbn [trace] in Hs2. rewrite sends_app in Hs2. cbn in Hs2.
      apply readTelnetOutput_reads in H2 as (reads & Hin2 & ->). cbn [inbound] in Hin2.
      apply bind_inv in Hrun as (u & w3 & H3 & Hrun).
      assert (Hs3 : sends (trace w3) = sends (trace w2) /\ inbound w3 = inbound w2).
      { destruct err; injection H3 as _ <-; [|now split].
        cbn [trace inbound]. rewrite sends_app. cbn. now rewrite app_nil_r. }
      destruct Hs3 as [Hs3 Hi3].
      apply IH in Hrun.
      eapply (commandLoopPost_step _ _ _ reads); [exact Hblank| | |exact Hrun].
      * now rewrite Hs3, Hs2.
      * now rewrite Hi3.
Qed.

Lemma sshCommandLoop_post (job : Job) (prompts : list string) :
  forall (cmds : list string) (result : string) (w : World)
         (r : string * option error) (w' : World),
    sshCommandLoop job prompts cmds result w = Some (r, w') ->
    commandLoopPost cmds result w r w'.
Proof.
  induction cmds as [|cmd rest IH]; intros result w r w' Hrun; cbn [sshCommandLoop] in Hrun.
  - injection Hrun as <- <-. exists [], [].
    cbn [map app fst snd transcriptOf effective filter List.concat].
    now rewrite append_empty_r, app_nil_r.
  - apply bind_inv in Hrun as (done & w0 & H0 & Hrun). injection H0 as <- <-.
    destruct (isDone w).
    { injection Hrun as <- <-. apply commandLoopPost_stop. }
    destruct (String.eqb (TrimSpace cmd) "") eqn:Hblank.
    { apply commandLoopPost_blank; [exact Hblank|]. now apply IH. }
    apply bind_inv in Hrun as (werr & w1 & H1 & Hrun). injection H1 as <- <-.
    destruct (writeOutcome w (writeCount w)) as [e|].
    + injection Hrun as <- <-.
      eapply (commandLoopPost_step _ _ _ []);
        [exact Hblank| | |cbn [received]; rewrite append_empty_r; apply commandLoopPost_stop].
      * cbn [trace]. rewrite sends_app. reflexivity.
      * reflexivity.
    + apply bind_inv in Hrun as ([output err] & w2 & H2 & Hrun).
      pose proof (reads_send_nothing _ _ _ _ (readUntilPrompt_emits _ _) H2) as Hs2.
      cbn [trace] in Hs2. rewrite sends_app in Hs2. cbn in Hs2.
      apply readUntilPrompt_reads in H2 as (reads & Hin2 & ->). cbn [inbound] in Hin2.
      apply bind_inv in Hrun as (u & w3 & H3 & Hrun).
      assert (Hs3 : sends (trace w3) = sends (trace w2) /\ inbound w3 = inbound w2).
      { destruct err; injection H3 as _ <-; [|now split].
        cbn [trace inbound]. rewrite sends_app. cbn. now rewrite app_nil_r. }
      destruct Hs3 as [Hs3 Hi3].
      apply IH in Hrun.
      eapply (commandLoopPost_step _ _ _ reads); [exact Hblank| | |exact Hrun].
      * now rewrite Hs3, Hs2.
      * now rewrite Hi3.
Qed.

(** X17.  Both command loops build the transcript block by block: when
    one returns, with or without an error, what it appended to the
    transcript is, for each command of an initial part of the list of
    trimmed, non-blank commands and in the order of the list, a header
    and the output captured for this command, which is exactly what the
    reads taken for it delivered; these reads follow one another in the
    stream of the device, and what is left of the stream is untouched;
    exactly these commands were written to the device, once each, as a
    line; and without an error no command is left out. *)
Theorem command_loop_transcript (job : Job) (prompts cmds : list string) (result : string)
    (w : World) (r : string * option error) (w' : World) :
  telnetCommandLoop job prompts cmds result w = Some (r, w') \/
  sshCommandLoop job prompts cmds result w = Some (r, w') ->
  exists (blocks : list (string * list ReadEv)) (remaining : list string),
    effective cmds = (map fst blocks ++ remaining)%list /\
    fst r = result ++ transcriptOf blocks /\
    sends (trace w') = (sends (trace w) ++ map line (map fst blocks))%list /\
    inbound w = (List.concat (map snd blocks) ++ inbound w')%list /\
    (snd r = None -> remaining = []).
Proof.
  intros [Hrun|Hrun].
  - exact (telnetCommandLoop_post job prompts cmds result w r w' Hrun).
  - exact (sshCommandLoop_post job prompts cmds result w r w' Hrun).
Qed.

Ltac sends_norm :=
  cbn [trace]; rewrite ?sends_app; cbn [sends flat_map app]; rewrite ?app_nil_r.

Lemma script_split {A} (full written rest : list A) :
  full = (written ++ rest)%list -> rest <> [] -> written <> full.
Proof.
  intros -> Hne Heq. apply Hne.
  apply (app_inv_head written). now rewrite app_nil_r.
Qed.

Lemma deferClose_inv {A} (what : string) (body : M A) (w : World) (r : A) (w' : World) :
  deferClose what body w = Some (r, w') ->
  exists w1, body w = Some (r, w1) /\ sends (trace w') = sends (trace w1).
Proof.
  unfold deferClose. intros Hrun.
  apply bind_inv in Hrun as (a & w1 & Hbody & Hrun).
  apply bind_inv in Hrun as (u & w2 & H2 & Hrun). injection H2 as _ <-.
  injection Hrun as <- <-. exists w1. split; [exact Hbody|]. now sends_norm.
Qed.

(** X18.  What a Telnet collection writes to the device, failed writes
    included, is always an initial part of one fixed dialogue: the
    username, the password, the trimmed non-blank commands in the order
    of the vendor profile, and [quit], each as a line; and the collection
    returns without an error exactly when it has written the whole
    dialogue.  In particular the
    password is never written before the username, and no command before
    the password. *)
Theorem telnet_dialogue (job : Job) (cmds prompts : list string)
    (w : World) (out : string) (err : option error) (w' : World) :
  collectTelnet job cmds prompts w = Some ((out, err), w') ->
  exists written rest,
    sends (trace w') = (sends (trace w) ++ written)%list /\
    telnetScript job cmds = (written ++ rest)%list /\
    (err = None <-> rest = []).
Proof.
  intros Hrun. unfold collectTelnet in Hrun.
  apply bind_inv in Hrun as (u1 & w1 & H1 & Hrun). injection H1 as _ <-.
  apply bind_inv in Hrun as (u2 & w2 & H2 & Hrun). injection H2 as _ <-.
  apply bind_inv in Hrun as (s & w3 & H3 & Hrun). injection H3 as <- <-.
  cbn [setup] in Hrun.
  destruct (dialErr (setup w)) as [e|].
  { injection Hrun as _ <- <-. exists [], (telnetScript job cmds). sends_norm.
    repeat split; discriminate. }
  unfold deferClose in Hrun.
  apply bind_inv in Hrun as ([out0 err0] & wb & Hbody & Hrun).
  apply bind_inv in Hrun as (u3 & wc & H4 & Hrun). injection H4 as _ <-.
  injection Hrun as <- <- <-. sends_norm.
  apply bind_inv in Hbody as (t & w4 & H5 & Hbody). injection H5 as <- <-.
  apply bind_inv in Hbody as (e1 & w5 & H6 & Hbody).
  apply (reads_send_nothing _ _ _ _ (waitForString_emits _ _)) in H6.
  revert H6. sends_norm. intros H6.
  destruct e1 as [e|].
  { injection Hbody as _ <- <-. exists [], (telnetScript job cmds).
    rewrite H6, app_nil_r. repeat split; discriminate. }
  apply bind_inv in Hbody as (e2 & w6 & H7 & Hbody). injection H7 as <- <-.
  destruct (writeOutcome w5 (writeCount w5)) as [e|].
  { injection Hbody as _ <- <-. sends_norm. rewrite H6.
    exists [line (Job_Username job)], (tl (telnetScript job cmds)).
    repeat split; discriminate. }
  apply bind_inv in Hbody as (e3 & w7 & H8 & Hbody).
  apply (reads_send_nothing _ _ _ _ (waitForString_emits _ _)) in H8.
  revert H8. sends_norm. rewrite H6. intros H8.
  destruct e3 as [e|].
  { injection Hbody as _ <- <-. rewrite H8.
    exists [line (Job_Username job)], (tl (telnetScript job cmds)).
    repeat split; discriminate. }
  apply bind_inv in Hbody as (e4 & w8 & H9 & Hbody). injection H9 as <- <-.
  destruct (writeOutcome w7 (writeCount w7)) as [e|].
  { injection Hbody as _ <- <-. sends_norm. rewrite H8, <- app_assoc.
    exists [line (Job_Username job); line (Job_Password job)],
           (tl (tl (telnetScript job cmds))).
    split; [reflexivity|]. split; [reflexivity|].
    split; [discriminate|]. unfold telnetScript. cbn [tl].
    intros H. apply app_eq_nil in H as [_ H]. discriminate. }
  apply bind_inv in Hbody as (u4 & w9 & H10 & Hbody). injection H10 as _ <-.
  apply bind_inv in Hbody as ([res lerr] & w10 & Hloop & Hbody).
  apply telnetCommandLoop_post in Hloop.
  destruct Hloop as (blocks & remaining & Heff & _ & Hsent & _ & Hdone).
  revert Hsent. sends_norm. rewrite H8, <- app_assoc. cbn [app]. intros Hsent.
  cbn [snd] in Hdone. unfold telnetScript. rewrite Heff.
  destruct lerr as [e|].
  - injection Hbody as _ <- <-. rewrite Hsent.
    exists (line (Job_Username job) :: line (Job_Password job) :: map line (map fst blocks)),
           (map line remaining ++ [line "quit"])%list.
    split; [now rewrite <- app_assoc|]. split.
    + cbn [app]. now rewrite map_app, <- app_assoc.
    + split; [discriminate|]. intros H. apply app_eq_nil in H as [_ H]. discriminate.
  - apply bind_inv in Hbody as (q & w11 & H11 & Hbody). injection H11 as _ <-.
    apply bind_inv in Hbody as (u5 & w12 & H12 & Hbody). injection H12 as _ <-.
    injection Hbody as _ <- <-. sends_norm. rewrite Hsent, (Hdone eq_refl), app_nil_r.
    exists (line (Job_Username job) :: line (Job_Password job)
            :: map line (map fst blocks) ++ [line "quit"])%list, [].
    split; [now rewrite <- !app_assoc|]. split; [now rewrite app_nil_r|].
    split; reflexivity.
Qed.

(** X19.  What an SSH collection writes to the device, failed writes
    included, is always an initial part of the trimmed non-blank commands in the order of the
    vendor profile followed by [quit], each as a line; and the collection
    returns without an error exactly when it has written all of it. *)
Theorem ssh_dialogue (job : Job) (cmds prompts : list string)
    (w : World) (out : string) (err : option error) (w' : World) :
  collectSSH job cmds prompts w = Some ((out, err), w') ->
  exists written rest,
    sends (trace w') = (sends (trace w) ++ written)%list /\
    sshScript cmds = (written ++ rest)%list /\
    (err = None <-> rest = []).
Proof.
  intros Hrun.
  assert (Hnone : forall (e : error) (w0 : World),
    sends (trace w0) = sends (trace w) ->
    exists written rest,
      sends (trace w0) = (sends (trace w) ++ written)%list /\
      sshScript cmds = (written ++ rest)%list /\
      (Some e = None <-> rest = [])).
  { intros e w0 Hw0. exists [], (sshScript cmds). rewrite Hw0, app_nil_r.
    split; [reflexivity|]. split; [reflexivity|]. split; [discriminate|].
    unfold sshScript. intros H. apply app_eq_nil in H as [_ H]. discriminate. }
  unfold collectSSH in Hrun.
  apply bind_inv in Hrun as (u1 & w1 & H1 & Hrun). injection H1 as _ <-.
  apply bind_inv in Hrun as (u2 & w2 & H2 & Hrun).
  assert (Hs2 : sends (trace w2) = sends (trace w)).
  { destruct (Job_SSHLegacy job) as [legacy|]; [destruct (Enabled legacy)|].
    - cbn in H2. injection H2 as _ <-. now sends_norm.
    - injection H2 as _ <-. now sends_norm.
    - injection H2 as _ <-. now sends_norm. }
  apply bind_inv in Hrun as (u3 & w3 & H3 & Hrun). injection H3 as _ <-.
  apply bind_inv in Hrun as (s & w4 & H4 & Hrun). injection H4 as <- <-.
  cbn [setup] in Hrun.
  destruct (dialErr (setup w2)) as [e|].
  { injection Hrun as _ <- <-. apply Hnone. now sends_norm. }
  apply deferClose_inv in Hrun as (wa & Hrun & ->).
  apply bind_inv in Hrun as (u4 & w5 & H5 & Hrun). injection H5 as _ <-.
  destruct (handshakeErr (setup w2)) as [e|].
  { injection Hrun as _ <- <-. apply Hnone. now sends_norm. }
  apply deferClose_inv in Hrun as (wb & Hrun & ->).
  destruct (newSessionErr (setup w2)) as [e|].
  { injection Hrun as _ <- <-. apply Hnone. now sends_norm. }
  apply deferClose_inv in Hrun as (wc & Hrun & ->).
  destruct (requestPtyErr (setup w2)) as [e|].
  { injection Hrun as _ <- <-. apply Hnone. now sends_norm. }
  destruct (stdinPipeErr (setup w2)) as [e|].
  { injection Hrun as _ <- <-. apply Hnone. now sends_norm. }
  destruct (stdoutPipeErr (setup w2)) as [e|].
  { injection Hrun as _ <- <-. apply Hnone. now sends_norm. }
  destruct (shellErr (setup w2)) as [e|].
  { injection Hrun as _ <- <-. apply Hnone. now sends_norm. }
  apply bind_inv in Hrun as (t & w6 & H6 & Hrun). injection H6 as <- <-.
  apply bind_inv in Hrun as (r0 & w7 & H7 & Hrun).
  apply (reads_send_nothing _ _ _ _ (readUntilPrompt_emits _ _)) in H7.
  revert H7. sends_norm. rewrite Hs2. intros H7.
  apply bind_inv in Hrun as (u5 & w8 & H8 & Hrun).
  assert (Hs8 : sends (trace w8) = sends (trace w)).
  { destruct (snd r0); injection H8 as _ <-; [|exact H7]. sends_norm. exact H7. }
  apply bind_inv in Hrun as ([res lerr] & w9 & Hloop & Hrun).
  apply sshCommandLoop_post in Hloop.
  destruct Hloop as (blocks & remaining & Heff & _ & Hsent & _ & Hdone).
  rewrite Hs8 in Hsent. cbn [snd] in Hdone. unfold sshScript. rewrite Heff.
  destruct lerr as [e|].
  - injection Hrun as _ <- <-. rewrite Hsent.
    exists (map line (map fst blocks)), (map line remaining ++ [line "quit"])%list.
    split; [reflexivity|]. split; [now rewrite map_app, <- app_assoc|].
    split; [discriminate|]. intros H. apply app_eq_nil in H as [_ H]. discriminate.
  - apply bind_inv in Hrun as (q & w10 & H10 & Hrun). injection H10 as _ <-.
    apply bind_inv in Hrun as (u6 & w11 & H11 & Hrun). injection H11 as _ <-.
    injection Hrun as _ <- <-. sends_norm. rewrite Hsent, (Hdone eq_refl), app_nil_r.
    exists (map line (map fst blocks) ++ [line "quit"])%list, [].
    split; [now rewrite <- !app_assoc|]. split; [now rewrite app_nil_r|].
    split; reflexivity.
Qed.

Lemma stoppedBy_blank (cmd : string) (rest : list string) (e : error) (w' : World) :
  String.eqb (TrimSpace cmd) "" = true ->
  stoppedBy rest e w' -> stoppedBy (cmd :: rest) e w'.
Proof. intros H. unfold stoppedBy. now rewrite (effective_blank _ _ H). Qed.

Lemma stoppedBy_later (cmd : string) (rest : list string) (e : error) (w' : World) :
  String.eqb (TrimSpace cmd) "" = false ->
  stoppedBy rest e w' -> stoppedBy (cmd :: rest) e w'.
Proof.
  intros H [Hc|(c & e0 & pre & Hin & He & Ht)]; [now left|right].
  exists c, e0, pre. rewrite (effective_cons _ _ H). split; [now right|]. now split.
Qed.

Lemma telnetCommandLoop_stops (job : Job) (prompts : list string) :
  forall (cmds : list string) (result : string) (w : World) (out : string) (e : error)
         (w' : World),
    telnetCommandLoop job prompts cmds result w = Some ((out, Some e), w') ->
    e = ctx_Canceled /\ isDone w' = true.
Proof.
  induction cmds as [|cmd rest IH]; intros result w out e w' Hrun;
    cbn [telnetCommandLoop] in Hrun; [discriminate|].
  apply bind_inv in Hrun as (done & w0 & H0 & Hrun). injection H0 as <- <-.
  destruct (isDone w) eqn:Hdone.
  { injection Hrun as _ <- <-. now split. }
  destruct (String.eqb (TrimSpace cmd) ""); [now apply IH in Hrun|].
  apply bind_inv in Hrun as (werr & w1 & H1 & Hrun).
  destruct werr as [e1|].
  - apply bind_inv in Hrun as (u & w2 & H2 & Hrun). now apply IH in Hrun.
  - apply bind_inv in Hrun as ([output err] & w2 & H2 & Hrun).
    apply bind_inv in Hrun as (u & w3 & H3 & Hrun). now apply IH in Hrun.
Qed.

Lemma sshCommandLoop_stops (job : Job) (prompts : list string) :
  forall (cmds : list string) (result : string) (w : World) (out : string) (e : error)
         (w' : World),
    sshCommandLoop job prompts cmds result w = Some ((out, Some e), w') ->
    stoppedBy cmds e w'.
Proof.
  induction cmds as [|cmd rest IH]; intros result w out e w' Hrun;
    cbn [sshCommandLoop] in Hrun; [discriminate|].
  apply bind_inv in Hrun as (done & w0 & H0 & Hrun). injection H0 as <- <-.
  destruct (isDone w) eqn:Hdone.
  { injection Hrun as _ <- <-. left. now split. }
  destruct (String.eqb (TrimSpace cmd) "") eqn:Hblank.
  { apply stoppedBy_blank; [exact Hblank|]. now apply IH in Hrun. }
  apply bind_inv in Hrun as (werr & w1 & H1 & Hrun). injection H1 as <- <-.
  destruct (writeOutcome w (writeCount w)) as [e1|].
  - injection Hrun as _ <- <-. right. exists (TrimSpace cmd), e1, (trace w).
    rewrite (effective_cons _ _ Hblank). split; [now left|]. now split.
  - apply bind_inv in Hrun as ([output err] & w2 & H2 & Hrun).
    apply bind_inv in Hrun as (u & w3 & H3 & Hrun).
    apply stoppedBy_later; [exact Hblank|]. now apply IH in Hrun.
Qed.

(** X20.  No failed or timed-out read ends a command loop.  A loop that
    returns an error was cancelled, and returned at a moment when the
    context was done, or, for SSH only, could not write a command, and
    that failed write is the last thing it did. *)
Theorem command_loop_stops_only_by_cancellation_or_write (job : Job)
    (prompts cmds : list string) (result : string) (w : World) (out : string) (e : error)
    (w' : World) :
  telnetCommandLoop job prompts cmds result w = Some ((out, Some e), w') \/
  sshCommandLoop job prompts cmds result w = Some ((out, Some e), w') ->
  (e = ctx_Canceled /\ isDone w' = true) \/
  (sshCommandLoop job prompts cmds result w = Some ((out, Some e), w') /\
   exists cmd e0 pre,
     In cmd (effective cmds) /\
     e = fmt_Errorf "write cmd %q: %w" [ArgStr cmd; ArgErr e0] /\
     trace w' = (pre ++ [EvSend (line cmd) (Some e0)])%list).
Proof.
  intros [Hrun|Hrun].
  - left. exact (telnetCommandLoop_stops job prompts cmds result w out e w' Hrun).
  - destruct (sshCommandLoop_stops job prompts cmds result w out e w' Hrun) as [Hc|Hw].
    + now left.
    + right. now split.
Qed.

(** *** Files, and the report of a worker *)

Lemma collectTelnet_emits (job : Job) (cmds prompts : list string) :
  emitsOnly (fun e => sessionEvent e = true) (collectTelnet job cmds prompts).
Proof. unfold collectTelnet, deferClose. emits_using emits_loops. Qed.

Lemma collectSSH_emits (job : Job) (cmds prompts : list string) :
  emitsOnly (fun e => sessionEvent e = true) (collectSSH job cmds prompts).
Proof.
  unfold collectSSH, deferClose.
  emits_using ltac:(first
    [ emits_loops
    | eapply emitsOnly_weaken; [ | apply applySSHLegacyConfig_emits ];
      intros ? ?; auto using setupEvent_open, openEvent_session ]).
Qed.

Lemma writeAtomic_run (path data : string) (w : World) (r : option error) (w' : World) :
  writeAtomic path data w = Some (r, w') ->
  now w' = now w /\
  exists evs,
    trace w' = (trace w ++ evs)%list /\ Forall (fun e => fileEvent e = true) evs /\
    (r = None -> evs = [EvCreateTemp path; EvRename path data]) /\
    (forall p d, In (EvRename p d) evs ->
       p = path /\ d = data /\ tmpWriteErr (fsOutcome w) = None /\
       tmpCloseErr (fsOutcome w) = None /\ chmodErr (fsOutcome w) = None /\
       r = renameErr (fsOutcome w) /\ ~ In (EvRemoveTemp path) evs) /\
    ((forall p d, ~ In (EvRename p d) evs) ->
       r <> None /\ (createTempErr (fsOutcome w) = None -> In (EvRemoveTemp path) evs)).
Proof.
  unfold writeAtomic. intros Hrun.
  apply bind_inv in Hrun as (fs & w0 & H0 & Hrun). injection H0 as <- <-.
  apply bind_inv in Hrun as (u & w1 & H1 & Hrun). injection H1 as _ <-.
  destruct (createTempErr (fsOutcome w)) as [e|];
    [|destruct (tmpWriteErr (fsOutcome w)) as [e|];
      [|destruct (tmpCloseErr (fsOutcome w)) as [e|];
        [|destruct (chmodErr (fsOutcome w)) as [e|]]]];
    cbn in Hrun; injection Hrun as <- <-; cbn [now trace]; (split; [reflexivity|]);
    rewrite <- ?app_assoc; cbn [app];
    eexists; (split; [reflexivity|]); (split; [repeat constructor|]).
  1-4: split; [discriminate|]; split;
    [ intros p d [H|H]; [discriminate|]; try (destruct H as [H|H]; [discriminate|]);
      destruct H
    | intros _; split; [discriminate|]; intros H; first [discriminate | cbn; auto] ].
  split; [reflexivity|]. split.
  - intros p d [H|[H|[]]]; [discriminate|]. injection H as <- <-.
    repeat split. intros [H|[H|[]]]; discriminate.
  - intros H. exfalso. apply (H path data). cbn. auto.
Qed.

(** X21.  [writeAtomic] never exposes a partial file: the target is
    touched only by one rename, of the given data, after the temporary
    file was written, closed and given its mode without an error; the
    call returns without an error only when this rename was made; when
    it fails before the rename the temporary file is removed, and once
    the rename is attempted nothing is removed. *)
Theorem writeAtomic_all_or_nothing (path data : string) (w : World) (r : option error)
    (w' : World) :
  writeAtomic path data w = Some (r, w') ->
  exists evs,
    trace w' = (trace w ++ evs)%list /\
    (r = None -> evs = [EvCreateTemp path; EvRename path data]) /\
    (forall p d, In (EvRename p d) evs ->
       p = path /\ d = data /\ tmpWriteErr (fsOutcome w) = None /\
       tmpCloseErr (fsOutcome w) = None /\ chmodErr (fsOutcome w) = None /\
       r = renameErr (fsOutcome w) /\ ~ In (EvRemoveTemp path) evs) /\
    ((forall p d, ~ In (EvRename p d) evs) ->
       r <> None /\ (createTempErr (fsOutcome w) = None -> In (EvRemoveTemp path) evs)).
Proof.
  intros Hrun. destruct (writeAtomic_run path data w r w' Hrun) as (_ & evs & Ht & _ & H).
  exists evs. now split.
Qed.

Lemma runJob_files (job : Job) (w : World) (r : option error) (w' : World) :
  runJob job w = Some (r, w') ->
  exists session files,
    trace w' = (trace w ++ session ++ files)%list /\
    Forall (fun e => sessionEvent e = true) session /\
    Forall (fun e => fileEvent e = true) files /\
    (r = None ->
       exists out, files = [EvCreateTemp (transcriptPath job (now w'));
                            EvRename (transcriptPath job (now w')) out]).
Proof.
  intros Hrun. unfold runJob in Hrun.
  assert (Hnothing : forall e : error,
    exists session files,
      trace w = (trace w ++ session ++ files)%list /\
      Forall (fun e => sessionEvent e = true) session /\
      Forall (fun e => fileEvent e = true) files /\
      (Some e = None ->
         exists out, files = [EvCreateTemp (transcriptPath job (now w));
                              EvRename (transcriptPath job (now w)) out])).
  { intros e. exists [], []. rewrite app_nil_r. repeat split; try constructor.
    discriminate. }
  assert (Hfinish : forall (m : M (string * option error)),
    emitsOnly (fun e => sessionEvent e = true) m ->
    bind m (fun r0 => match r0 with
                      | (_, Some e) => ret (Some e)
                      | (out, None) =>
                          t <- timeNow ;; writeAtomic (transcriptPath job t) out
                      end) w = Some (r, w') ->
    exists session files,
      trace w' = (trace w ++ session ++ files)%list /\
      Forall (fun e => sessionEvent e = true) session /\
      Forall (fun e => fileEvent e = true) files /\
      (r = None ->
         exists out, files = [EvCreateTemp (transcriptPath job (now w'));
                              EvRename (transcriptPath job (now w')) out])).
  { intros m Hm Hb. apply bind_inv in Hb as ([out err] & w1 & H1 & Hb).
    destruct (Hm _ _ _ H1) as (session & Hs & Hsall).
    destruct err as [e|].
    - injection Hb as <- <-. exists session, []. rewrite app_nil_r.
      repeat split; try assumption; try constructor. discriminate.
    - apply bind_inv in Hb as (t & w2 & H2 & Hb). injection H2 as <- <-.
      destruct (writeAtomic_run _ _ _ _ _ Hb) as (Hnow & files & Hf & Hfall & Hok & _).
      exists session, files. rewrite Hf, Hs, <- app_assoc.
      repeat split; try assumption.
      intros Hr. exists out. rewrite Hnow. now apply Hok. }
  apply bind_inv in Hrun as (done & w0 & H0 & Hrun). injection H0 as <- <-.
  destruct (isDone w).
  { injection Hrun as <- <-. apply Hnothing. }
  destruct (commandsForVendor (Job_Vendor job)) as [cmds [e|]].
  { injection Hrun as <- <-. apply Hnothing. }
  destruct (String.eqb (Job_Protocol job) "telnet").
  { apply (Hfinish _ (collectTelnet_emits _ _ _) Hrun). }
  destruct (String.eqb (Job_Protocol job) "ssh").
  { apply (Hfinish _ (collectSSH_emits _ _ _) Hrun). }
  injection Hrun as <- <-. apply Hnothing.
Qed.

(** X22.  One execution of a job touches the file system only after its
    session is over, and it returns without an error only when, as the
    last thing it did, it created a temporary file and renamed it to the
    transcript path of the job for the clock reading taken once the
    collection had returned (the file operations take no time here, so
    this is the clock at the end). *)
Theorem job_writes_after_session (job : Job) (w : World) (r : option error) (w' : World) :
  runJob job w = Some (r, w') ->
  exists session files,
    trace w' = (trace w ++ session ++ files)%list /\
    Forall (fun e => sessionEvent e = true) session /\
    Forall (fun e => fileEvent e = true) files /\
    (r = None ->
       exists out, files = [EvCreateTemp (transcriptPath job (now w'));
                            EvRename (transcriptPath job (now w')) out]).
Proof. apply runJob_files. Qed.

Lemma runJob_emits (job : Job) : emitsOnly (fun e => executorEvent e = true) (runJob job).
Proof.
  intros w r w' Hrun. destruct (runJob_files job w r w' Hrun) as (ss & fs & Ht & Hs & Hf & _).
  exists (ss ++ fs)%list. split; [exact Ht|]. apply Forall_app. split.
  - eapply Forall_impl; [|exact Hs]. auto using sessionEvent_executor.
  - eapply Forall_impl; [|exact Hf]. cbn beta. intros e He. unfold executorEvent.
    rewrite He. apply orb_true_r.
Qed.

Lemma retryLoop_emits (exec : M (option error)) (job : Job) (maxRetries : Z) :
  emitsOnly (fun e => controllerEvent e = true) exec ->
  forall (fuel : nat) (attempt : Z) (lastErr : option error) (calls : list Attempt),
    emitsOnly (fun e => controllerEvent e = true)
              (retryLoop exec job maxRetries fuel attempt lastErr calls).
Proof.
  intros Hexec. induction fuel as [|fuel IH]; intros attempt lastErr calls;
    cbn [retryLoop]; emits_using ltac:(first [exact Hexec | apply IH]).
Qed.

Lemma runJobWithRetry_emits (fuel : nat) (job : Job) (maxRetries : Z) :
  emitsOnly (fun e => controllerEvent e = true) (runJobWithRetry fuel job maxRetries).
Proof.
  unfold runJobWithRetry, retryWith.
  emits_using ltac:(apply retryLoop_emits; eapply emitsOnly_weaken;
                    [ | apply runJob_emits ]; auto using executorEvent_controller).
Qed.

Lemma controllerEvent_no_outcome (e : Event) :
  controllerEvent e = true -> outcomeEvent e = false.
Proof.
  destruct e as [lvl msg attrs| | | | | | | | |]; try reflexivity.
  destruct lvl; try reflexivity.
  - unfold controllerEvent, executorEvent, sessionEvent, openEvent, ioEvent, setupEvent,
      readEvent, fileEvent, outcomeEvent. cbn [orb].
    destruct (String.eqb_spec msg "conectando via telnet") as [->|_]; [reflexivity|].
    destruct (String.eqb_spec msg "conectando via ssh") as [->|_]; [reflexivity|].
    destruct (String.eqb_spec msg "tentando novamente") as [->|_]; [reflexivity|].
    discriminate.
  - discriminate.
Qed.

Lemma controller_reports_nothing (evs : list Event) :
  Forall (fun e => controllerEvent e = true) evs -> filter outcomeEvent evs = [].
Proof.
  induction 1 as [|e evs He _ IH]; [reflexivity|].
  cbn [filter]. now rewrite (controllerEvent_no_outcome e He).
Qed.

Lemma worker_report (fuel : nat) (workerID maxRetries : Z) :
  forall (jobs : list Job) (w : World) (u : unit) (w' : World),
    worker fuel workerID maxRetries jobs w = Some (u, w') ->
    exists evs ran,
      trace w' = (trace w ++ evs)%list /\
      map reportedJob (filter outcomeEvent evs) = map jobAttrs ran /\
      (jobs = ran \/
       exists dropped untaken pre,
         jobs = (ran ++ dropped :: untaken)%list /\
         isDone w' = true /\
         evs = (pre ++ [EvLog LevelWarn "worker cancelado"
                               [("worker_id", VInt workerID)]])%list /\
         match rev pre with
         | [] => ran = []
         | e :: _ => outcomeEvent e = true
         end).
Proof.
  induction jobs as [|job rest IH]; intros w u w' Hrun; cbn [worker] in Hrun.
  - injection Hrun as _ <-. exists [], []. rewrite app_nil_r.
    split; [reflexivity|]. split; [reflexivity|]. now left.
  - apply bind_inv in Hrun as (done & w0 & H0 & Hrun). injection H0 as <- <-.
    destruct (isDone w) eqn:Hdone.
    + injection Hrun as _ <-. eexists [_], []. cbn [trace].
      split; [reflexivity|]. split; [reflexivity|]. right.
      exists job, rest, []. split; [reflexivity|]. split; [exact Hdone|].
      split; reflexivity.
    + apply bind_inv in Hrun as (err & w1 & H1 & Hrun).
      destruct (runJobWithRetry_emits _ _ _ _ _ _ H1) as (evs1 & Ht1 & Hall1).
      apply bind_inv in Hrun as (u2 & w2 & H2 & Hrun).
      destruct (IH _ _ _ Hrun) as (evs & ran & Ht & Hrep & Hrest).
      assert (Hout : exists e, trace w2 = (trace w1 ++ [e])%list /\
                               outcomeEvent e = true /\ reportedJob e = jobAttrs job).
      { destruct err as [e|]; injection H2 as _ <-; cbn [trace]; eexists;
          (split; [reflexivity|]); split; reflexivity. }
      destruct Hout as (e & Ht2 & He & Hrj).
      exists (evs1 ++ e :: evs)%list, (job :: ran).
      split; [now rewrite Ht, Ht2, Ht1, <- !app_assoc|]. split.
      * rewrite filter_app, (controller_reports_nothing _ Hall1). cbn [app filter].
        rewrite He. cbn [map]. now rewrite Hrj, Hrep.
      * destruct Hrest as [->|(dropped & untaken & pre & -> & Hd & -> & Hlast)];
          [now left|right].
        exists dropped, untaken, (evs1 ++ e :: pre)%list.
        split; [reflexivity|]. split; [exact Hd|]. split; [now rewrite <- app_assoc|].
        rewrite rev_app_distr. cbn [rev]. rewrite <- app_assoc. cbn [app].
        destruct (rev pre) as [|e' pre']; cbn [app]; [exact He | exact Hlast].
Qed.

(** X23.  A worker runs the jobs it receives one after the other and
    logs one outcome line for each job it has run, in this order and
    with the attributes of that job, whatever the retry controller and
    the executor log in between.  It stops early only when it finds the
    context done just after receiving a job: that job is dropped, with
    no attempt and no outcome line, the cancellation warning being the
    next thing logged after the report of the job before it, and the
    worker receives no further job. *)
Theorem worker_reports_each_job_once (fuel : nat) (workerID maxRetries : Z)
    (jobs : list Job) (w : World) (u : unit) (w' : World) :
  worker fuel workerID maxRetries jobs w = Some (u, w') ->
  exists evs ran,
    trace w' = (trace w ++ evs)%list /\
    map reportedJob (filter outcomeEvent evs) = map jobAttrs ran /\
    (jobs = ran \/
     exists dropped untaken pre,
       jobs = (ran ++ dropped :: untaken)%list /\
       isDone w' = true /\
       evs = (pre ++ [EvLog LevelWarn "worker cancelado"
                             [("worker_id", VInt workerID)]])%list /\
       match rev pre with
       | [] => ran = []
       | e :: _ => outcomeEvent e = true
       end).
Proof. apply worker_report. Qed.

End Properties.

(** ** The statements at concrete inputs *)

#[local] Existing Instance asciiOnly.
#[local] Existing Instance utc.

Lemma write_failure_in_command_loop_witness :
  isDone brokenPipeWorld = false /\
  TrimSpace "show version" <> "" /\
  writeOutcome brokenPipeWorld (writeCount brokenPipeWorld) = Some brokenPipe /\
  (exists out w',
     telnetCommandLoop (demoJob "zte" "telnet") ["#"; ">"]
       ["show version"; "show license"] "" brokenPipeWorld = Some ((out, None), w')) /\
  sshCommandLoop (demoJob "zte" "ssh") ["#"; ">"]
    ["show version"; "show license"] "" brokenPipeWorld =
    Some ((cmdHeader "show version",
           Some (fmt_Errorf "write cmd %q: %w" [ArgStr "show version"; ArgErr brokenPipe])),
          afterFailedSend brokenPipeWorld "show version" brokenPipe false).
Proof.
  assert (H1 : isDone brokenPipeWorld = false) by reflexivity.
  assert (H2 : TrimSpace "show version" <> "") by (vm_compute; discriminate).
  assert (H3 : writeOutcome brokenPipeWorld (writeCount brokenPipeWorld) = Some brokenPipe)
    by reflexivity.
  split; [exact H1 | split; [exact H2 | split; [exact H3 | split]]].
  - apply (write_failure_in_command_loop (demoJob "zte" "telnet") ["#"; ">"]
             "show version" ["show license"] "" brokenPipeWorld brokenPipe H1 H2 H3).
    + reflexivity.
    + intros k. vm_compute. discriminate.
  - exact (proj2 (proj2 (write_failure_in_command_loop (demoJob "zte" "ssh") ["#"; ">"]
             "show version" ["show license"] "" brokenPipeWorld brokenPipe H1 H2 H3))).
Defined.

(** On the Telnet path a whole job goes through although the send of
    each of its eleven commands fails: the transcript is written and the
    job succeeds. *)
Example telnet_job_survives_write_failures :
  exists w',
    runJob (demoJob "zte" "telnet") telnetBrokenWorld = Some (None, w') /\
    List.length (sends (trace w')) = 14%nat /\
    List.length (flat_map (fun ev => match ev with EvRename p _ => [p] | _ => [] end)
                          (trace w')) = 1%nat.
Proof.
  eexists. split; [vm_compute; reflexivity | split; reflexivity].
Qed.

(** C1 as stated fails on the SSH path: with the first send failing,
    [runJob] returns the write error and only that one command was ever
    sent. *)
Lemma ssh_write_failure_aborts_job :
  exists w',
    runJob (demoJob "zte" "ssh") brokenPipeWorld =
      Some (Some (fmt_Errorf "write cmd %q: %w"
                             [ArgStr "terminal length 0"; ArgErr brokenPipe]), w') /\
    sends (trace w') = ["terminal length 0" ++ nl] /\
    List.length (fst (commandsForVendor "zte")) = 11%nat.
Proof.
  eexists. split; [vm_compute; reflexivity | split; reflexivity].
Qed.

Lemma vendor_profile_lookup_witness :
  ("zte" = "huawei" \/ "zte" = "zte") /\
  "cisco" <> "huawei" /\ "cisco" <> "zte" /\
  promptsForVendor "zte" <> [] /\
  promptsForVendor "cisco" = [">"; "#"; "$"] /\
  runJob (demoJob "cisco" "ssh") quietWorld =
    Some (Some (fmt_Errorf "vendor desconhecido: %q (use huawei/zte)" [ArgStr "cisco"]),
          quietWorld).
Proof.
  assert (H0 : "zte" = "huawei" \/ "zte" = "zte") by (right; reflexivity).
  assert (H1 : "cisco" <> "huawei") by discriminate.
  assert (H2 : "cisco" <> "zte") by discriminate.
  split; [exact H0 | split; [exact H1 | split; [exact H2 | split; [ | split]]]].
  - exact (proj2 (proj1 (vendor_profile_lookup "zte") H0)).
  - exact (proj2 (proj2 (proj2 (vendor_profile_lookup "cisco") H1 H2))).
  - apply (proj1 (proj2 (proj2 (vendor_profile_lookup "cisco") H1 H2))); reflexivity.
Defined.

(** C2 as stated fails for [promptsForVendor]: for a string outside the
    enumeration it returns prompts where [commandsForVendor] fails. *)
Lemma prompts_for_unknown_vendor_do_not_fail :
  "cisco" <> "huawei" /\ "cisco" <> "zte" /\
  snd (commandsForVendor "cisco") <> None /\
  promptsForVendor "cisco" = [">"; "#"; "$"] /\
  ~ (forall v, v <> "huawei" -> v <> "zte" -> promptsForVendor v = []).
Proof.
  repeat split; try discriminate.
  intros H. specialize (H "cisco" ltac:(discriminate) ltac:(discriminate)). discriminate.
Qed.

Lemma backoff_schedule_witness :
  exists r calls w',
    retryWith refusing 5 (demoJob "zte" "ssh") 2 quietWorld = Some ((r, calls), w') /\
    Forall waitedAsScheduled calls /\
    map att_started calls = [0; 2 * GoTime.Second; 6 * GoTime.Second].
Proof.
  do 3 eexists. split; [vm_compute; reflexivity|]. split; [|reflexivity].
  refine (proj2 (proj2 (backoff_schedule refusing (demoJob "zte" "ssh") 2))
            5%nat quietWorld _ _ _ _).
  vm_compute. reflexivity.
Defined.

(** C3 as stated fails: cancellation signalled at 1 s, in the middle of
    the wait before attempt 1, does not end the wait; the executor is
    called again at 2 s. *)
Lemma backoff_not_aborted_by_cancellation :
  exists r calls w',
    retryWith (runJob (demoJob "zte" "ssh")) 3 (demoJob "zte" "ssh") 1 refusedThenCancelled
      = Some ((r, calls), w') /\
    cancelAt refusedThenCancelled = Some (1 * GoTime.Second) /\
    map att_index calls = [0; 1] /\
    map att_checked calls = [0; 0] /\
    map att_started calls = [0; 2 * GoTime.Second] /\
    now w' = 2 * GoTime.Second.
Proof.
  do 3 eexists. split; [vm_compute; reflexivity|]. repeat split.
Qed.




Lemma prompt_searched_in_whole_buffer_witness :
  inbound twoChunkWorld = ([chunk1] ++ chunk2 :: [])%list /\
  promptFound (rdata chunk1) ["-> "] = false /\
  promptFound (rdata chunk2) ["-> "] = false /\
  exists w',
    readTelnetOutput (30 * GoTime.Second) ["-> "] twoChunkWorld =
      Some (("motd vxworks-> ", None), w') /\
    readUntilPrompt (30 * GoTime.Second) ["-> "] twoChunkWorld =
      Some (("motd vxworks-> ", None), w').
Proof.
  assert (Hin : inbound twoChunkWorld = ([chunk1] ++ chunk2 :: [])%list) by reflexivity.
  split; [exact Hin | split; [reflexivity | split; [reflexivity|]]].
  destruct (prompt_searched_in_whole_buffer (30 * GoTime.Second) ["-> "] twoChunkWorld
              [chunk1] chunk2 [] Hin)
    as [Ht [Hs _]].
  - reflexivity.
  - vm_compute. discriminate.
  - discriminate.
  - reflexivity.
  - eexists. split; [exact Ht | apply Hs; exact I].
Defined.

Lemma end_of_stream_returns_partial_data_witness :
  rerr lastBytes = Some io_EOF /\
  exists w',
    readTelnetOutput (30 * GoTime.Second) ["#"] closingWorld =
      Some (("partial output", None), w') /\
    readUntilPrompt (30 * GoTime.Second) ["#"] closingWorld =
      Some (("partial output", None), w').
Proof.
  assert (He : rerr lastBytes = Some io_EOF) by reflexivity.
  split; [exact He|].
  destruct (end_of_stream_returns_partial_data (30 * GoTime.Second) ["#"] closingWorld
              [mkReadEv "partial out" None 0] lastBytes [])
    as [Ht Hs].
  - reflexivity.
  - reflexivity.
  - vm_compute. discriminate.
  - exact He.
  - eexists. split; [exact Ht | apply Hs; exact I].
Defined.

Lemma prompt_case_rules_witness :
  promptFound "PASSWORD: " ["assword:"] = false /\
  patternFound "PASSWORD: " ["assword:"] = true /\
  patternFound "password: " ["ASSWORD:"] = true /\
  runes accentedBanner = (225 :: runes "PASSWORD: ")%list /\
  promptFound accentedBanner ["assword:"] = false /\
  patternFound accentedBanner ["assword:"] = true /\
  patternFound (mapBytes upperByte accentedBanner) ["assword:"] =
    patternFound accentedBanner ["assword:"] /\
  exists w', waitForString (30 * GoTime.Second) ["assword:"] loginWorld = Some (None, w').
Proof.
  split; [reflexivity | split; [reflexivity | split; [reflexivity|]]].
  split; [reflexivity | split; [reflexivity | split; [reflexivity|]]].
  pose proof (prompt_case_rules (30 * GoTime.Second) ["assword:"] loginWorld
                [] loginBanner []) as (_ & _ & _ & _ & _ & Hcase & Hrun).
  split; [exact (proj1 (Hcase accentedBanner))|].
  eexists.
  apply (proj2 (Hrun eq_refl ltac:(vm_compute; discriminate) ltac:(discriminate)));
    reflexivity.
Defined.

Lemma cancelled_before_start_witness :
  isDone cancelledWorld = true /\
  runJob (demoJob "zte" "ssh") cancelledWorld = Some (Some ctx_Canceled, cancelledWorld) /\
  runJobWithRetry 1 (demoJob "zte" "ssh") (MaxRetries (applyDefaults demoConfig)) cancelledWorld
    = Some (Some ctx_Canceled, cancelledWorld) /\
  dials (trace cancelledWorld) = [].
Proof.
  assert (Hd : isDone cancelledWorld = true) by reflexivity.
  destruct (cancelled_before_start (demoJob "zte" "ssh") demoConfig 0 cancelledWorld Hd)
    as [H1 [H2 _]].
  split; [exact Hd | split; [exact H1 | split; [exact H2 | reflexivity]]].
Defined.

Lemma queued_job_port_resolved_witness :
  In demoQueuedJob (queued (enqueueJobs demoConfig "out")) /\
  Asset_Port (Job_Asset demoQueuedJob) <> 0 /\
  map (fun j => Asset_Port (Job_Asset j)) (queued (enqueueJobs demoConfig "out"))
    = [23; 22; 2222].
Proof.
  assert (Hin : In demoQueuedJob (queued (enqueueJobs demoConfig "out")))
    by (vm_compute; left; reflexivity).
  split; [exact Hin | split; [|reflexivity]].
  exact (proj1 (queued_job_port_resolved demoConfig "out" demoQueuedJob Hin)).
Defined.

Lemma transcript_path_inside_basedir_witness :
  ((Job_Vendor (demoJob "zte" "ssh") = "huawei" \/ Job_Vendor (demoJob "zte" "ssh") = "zte") /\
   (Job_Protocol (demoJob "zte" "ssh") = "telnet" \/
    Job_Protocol (demoJob "zte" "ssh") = "ssh")) /\
  plainElem (transcriptFilename (demoJob "zte" "ssh") (3723 * GoTime.Second)) /\
  transcriptFilename (demoJob "zte" "ssh") (3723 * GoTime.Second)
    = "core_sw_01__10.0.0.1__zte__ssh__010203.txt" /\
  transcriptPath (demoJob "zte" "ssh") (3723 * GoTime.Second)
    = "coletas/2024-01-01/core_sw_01__10.0.0.1__zte__ssh__010203.txt".
Proof.
  assert (Hvp : (Job_Vendor (demoJob "zte" "ssh") = "huawei" \/
                 Job_Vendor (demoJob "zte" "ssh") = "zte") /\
                (Job_Protocol (demoJob "zte" "ssh") = "telnet" \/
                 Job_Protocol (demoJob "zte" "ssh") = "ssh"))
    by (split; right; reflexivity).
  split; [exact Hvp | split; [|split; reflexivity]].
  exact (proj1 (proj1 (proj2 (transcript_path_inside_basedir (demoJob "zte" "ssh")
                                (3723 * GoTime.Second))) Hvp)).
Defined.

(** ** The further properties, exercised *)

#[local] Existing Instance numericHosts.

Lemma queued_jobs_in_config_order_witness :
  sent (enqueueJobsOn 1 demoConfig "out") = [demoQueuedJob] /\
  (exists p job, enqueueJobsOn 1 demoConfig "out" = Blocked p job /\
                 Asset_Name (Job_Asset job) = "c") /\
  enqueueJobsOn 10 demoConfig "out" = Enqueuing (enqueueJobs demoConfig "out") /\
  List.length (queued (enqueueJobs demoConfig "out")) = 3%nat.
Proof.
  pose proof (queued_jobs_in_config_order 1 demoConfig "out") as H1.
  pose proof (queued_jobs_in_config_order 10 demoConfig "out") as H10.
  cbv zeta in H1, H10.
  destruct H1 as (Hs & _ & Hb). destruct H10 as (_ & Hf & _).
  split; [rewrite Hs; reflexivity|]. split.
  - destruct (Hb ltac:(vm_compute; lia)) as (p & job & Hst & Hn).
    exists p, job. split; [exact Hst|].
    vm_compute in Hn. injection Hn as <-. reflexivity.
  - destruct (Hf ltac:(vm_compute; lia)) as [Hrun Hq].
    split; [exact Hrun | rewrite Hq; reflexivity].
Defined.

Lemma queued_job_credentials_witness :
  In demoQueuedJob (queued (enqueueJobs demoConfig "out")) /\
  Job_Password demoQueuedJob <> "" /\
  exists g a,
    In g (Groups demoConfig) /\ In a (Group_Assets g) /\ IsActive a = true /\
    Job_Asset demoQueuedJob = withPort a (resolvePort a (resolveProtocol a)) /\
    Job_Vendor demoQueuedJob = ToLower (TrimSpace (Group_Vendor g)) /\
    Job_Password demoQueuedJob =
      firstNonEmpty [envValue (Asset_PasswordEnv a); Asset_Password a;
                     envValue (Group_PasswordEnv g); Group_Password g] /\
    Job_Username demoQueuedJob = firstNonEmpty [Asset_Username a; Group_Username g].
Proof.
  assert (Hin : In demoQueuedJob (queued (enqueueJobs demoConfig "out")))
    by (vm_compute; left; reflexivity).
  split; [exact Hin|].
  exact (queued_job_credentials demoConfig "out" demoQueuedJob Hin).
Defined.

Lemma validated_jobs_are_runnable_witness :
  Validate demoConfig = None /\
  In demoQueuedJob (queued (enqueueJobs (applyDefaults demoConfig) "out")) /\
  snd (commandsForVendor (Job_Vendor demoQueuedJob)) = None /\
  (Job_Protocol demoQueuedJob = "ssh" \/ Job_Protocol demoQueuedJob = "telnet") /\
  1 <= Asset_Port (Job_Asset demoQueuedJob) <= 65535 /\
  1 * GoTime.Second <= Job_Timeout demoQueuedJob <= 300 * GoTime.Second.
Proof.
  assert (Hv : Validate demoConfig = None) by (vm_compute; reflexivity).
  assert (Hin : In demoQueuedJob (queued (enqueueJobs (applyDefaults demoConfig) "out")))
    by (vm_compute; left; reflexivity).
  split; [exact Hv|]. split; [exact Hin|].
  exact (validated_jobs_are_runnable demoConfig "out" demoQueuedJob Hv Hin).
Defined.

Lemma retry_run_outcome_witness :
  exists r calls w',
    retryWith refusing 4 (demoJob "zte" "ssh") 2 quietWorld = Some ((r, calls), w') /\
    retryOutcome 2 r calls /\
    (0 <= 2 < Int64.max_int ->
       Z.of_nat (List.length calls) <= 2 + 1 /\
       map att_index calls = countFrom 0 (List.length calls)).
Proof.
  destruct (retryWith refusing 4 (demoJob "zte" "ssh") 2 quietWorld)
    as [[[r calls] w']|] eqn:Hrun; [|vm_compute in Hrun; discriminate].
  exists r, calls, w'. split; [reflexivity|].
  exact (retry_run_outcome refusing (demoJob "zte" "ssh") 2 4 quietWorld r calls w' Hrun).
Defined.


Lemma readUntilPrompt_postcondition_witness :
  exists out err w',
    readUntilPrompt (30 * GoTime.Second) ["#"] closingWorld = Some ((out, err), w') /\
    readUntilPromptPost (now closingWorld + 30 * GoTime.Second) ["#"] "" closingWorld
                        out err w'.
Proof.
  destruct (readUntilPrompt (30 * GoTime.Second) ["#"] closingWorld)
    as [[[out err] w']|] eqn:Hrun; [|vm_compute in Hrun; discriminate].
  exists out, err, w'. split; [reflexivity|].
  exact (readUntilPrompt_postcondition _ _ _ _ _ _ Hrun).
Defined.

Lemma readTelnetOutput_postcondition_witness :
  exists out err w',
    readTelnetOutput (30 * GoTime.Second) [">"] twoChunkWorld = Some ((out, err), w') /\
    readTelnetOutputPost (now twoChunkWorld + 30 * GoTime.Second) [">"] "" twoChunkWorld
                         out err w'.
Proof.
  destruct (readTelnetOutput (30 * GoTime.Second) [">"] twoChunkWorld)
    as [[[out err] w']|] eqn:Hrun; [|vm_compute in Hrun; discriminate].
  exists out, err, w'. split; [reflexivity|].
  exact (readTelnetOutput_postcondition _ _ _ _ _ _ Hrun).
Defined.

Lemma waitForString_postcondition_witness :
  exists err w',
    waitForString (30 * GoTime.Second) ["assword:"] loginWorld = Some (err, w') /\
    waitForStringPost (now loginWorld + 30 * GoTime.Second) ["assword:"] "" loginWorld
                      err w'.
Proof.
  destruct (waitForString (30 * GoTime.Second) ["assword:"] loginWorld)
    as [[err w']|] eqn:Hrun; [|vm_compute in Hrun; discriminate].
  exists err, w'. split; [reflexivity|].
  exact (waitForString_postcondition _ _ _ _ _ Hrun).
Defined.



Lemma read_loops_return_in_time_witness :
  0 <= 200 * GoTime.Millisecond /\
  readsWithinDeadline (inbound twoChunkWorld) /\
  200 * GoTime.Millisecond < elapsed (inbound twoChunkWorld) /\
  (exists r w',
     readTelnetOutput (200 * GoTime.Millisecond) ["#"] twoChunkWorld = Some (r, w') /\
     now w' <= now twoChunkWorld + 200 * GoTime.Millisecond + 600 * GoTime.Millisecond) /\
  (exists r w',
     readUntilPrompt (200 * GoTime.Millisecond) ["#"] twoChunkWorld = Some (r, w') /\
     now w' <= now twoChunkWorld + 200 * GoTime.Millisecond + 600 * GoTime.Millisecond) /\
  (exists r w',
     waitForString (200 * GoTime.Millisecond) ["#"] twoChunkWorld = Some (r, w') /\
     now w' <= now twoChunkWorld + 200 * GoTime.Millisecond + 600 * GoTime.Millisecond).
Proof.
  assert (H1 : 0 <= 200 * GoTime.Millisecond) by (vm_compute; discriminate).
  assert (H2 : readsWithinDeadline (inbound twoChunkWorld))
    by (repeat constructor; vm_compute; discriminate).
  assert (H3 : 200 * GoTime.Millisecond < elapsed (inbound twoChunkWorld))
    by (vm_compute; reflexivity).
  split; [exact H1|]. split; [exact H2|]. split; [exact H3|].
  exact (read_loops_return_in_time (200 * GoTime.Millisecond) ["#"] twoChunkWorld H1 H2 H3).
Defined.

Lemma telnet_connection_released_witness :
  exists r w',
    collectTelnet (demoJob "huawei" "telnet") huaweiCommands huaweiPrompts telnetBrokenWorld
      = Some (r, w') /\
    exists evs,
      trace w' = (trace telnetBrokenWorld ++ evs ++ map EvClose ["conn"])%list /\
      Forall (fun e => openEvent e = true) evs.
Proof.
  destruct (collectTelnet (demoJob "huawei" "telnet") huaweiCommands huaweiPrompts
              telnetBrokenWorld) as [[r w']|] eqn:Hrun; [|vm_compute in Hrun; discriminate].
  exists r, w'. split; [reflexivity|].
  exact (telnet_connection_released _ _ _ _ _ _ Hrun).
Defined.

Lemma ssh_session_released_witness :
  exists r w',
    collectSSH (demoJob "zte" "ssh") zteCommands ztePrompts brokenPipeWorld
      = Some (r, w') /\
    exists evs,
      trace w' = (trace brokenPipeWorld ++ evs
                  ++ map EvClose ["session"; "client"; "conn"])%list /\
      Forall (fun e => openEvent e = true) evs /\
      (shellStarted (setup brokenPipeWorld) = false ->
       Forall (fun e => setupEvent e = true) evs).
Proof.
  destruct (collectSSH (demoJob "zte" "ssh") zteCommands ztePrompts
              brokenPipeWorld) as [[r w']|] eqn:Hrun; [|vm_compute in Hrun; discriminate].
  exists r, w'. split; [reflexivity|].
  exact (ssh_session_released _ _ _ _ _ _ Hrun).
Defined.

Lemma telnet_dialogue_witness :
  exists out w',
    collectTelnet (demoJob "huawei" "telnet") huaweiCommands huaweiPrompts telnetBrokenWorld
      = Some ((out, None), w') /\
    exists written rest,
      sends (trace w') = (sends (trace telnetBrokenWorld) ++ written)%list /\
      telnetScript (demoJob "huawei" "telnet") huaweiCommands = (written ++ rest)%list /\
      (@None error = None <-> rest = []).
Proof.
  destruct (collectTelnet (demoJob "huawei" "telnet") huaweiCommands huaweiPrompts
              telnetBrokenWorld) as [[[out [e|]] w']|] eqn:Hrun;
    [vm_compute in Hrun; discriminate | | vm_compute in Hrun; discriminate].
  exists out, w'. split; [reflexivity|].
  exact (telnet_dialogue _ _ _ _ _ _ _ Hrun).
Defined.

Lemma ssh_dialogue_witness :
  exists out e w',
    collectSSH (demoJob "zte" "ssh") zteCommands ztePrompts brokenPipeWorld
      = Some ((out, Some e), w') /\
    exists written rest,
      sends (trace w') = (sends (trace brokenPipeWorld) ++ written)%list /\
      sshScript zteCommands = (written ++ rest)%list /\
      (Some e = None <-> rest = []).
Proof.
  destruct (collectSSH (demoJob "zte" "ssh") zteCommands ztePrompts
              brokenPipeWorld) as [[[out [e|]] w']|] eqn:Hrun;
    [ | vm_compute in Hrun; discriminate | vm_compute in Hrun; discriminate].
  exists out, e, w'. split; [reflexivity|].
  exact (ssh_dialogue _ _ _ _ _ _ _ Hrun).
Defined.

Lemma command_loop_transcript_witness :
  exists r w',
    telnetCommandLoop (demoJob "huawei" "telnet") huaweiPrompts surveyCommands "banner"
                      answeringWorld = Some (r, w') /\
    fst r = "banner" ++ cmdHeader "display version" ++ ("V200R005" ++ nl ++ "<sw>")
              ++ cmdHeader "display clock" ++ ("2024-01-01 10:00:00" ++ nl ++ "<sw>") /\
    exists (blocks : list (string * list ReadEv)) (remaining : list string),
      effective surveyCommands = (map fst blocks ++ remaining)%list /\
      fst r = "banner" ++ transcriptOf blocks /\
      sends (trace w') = (sends (trace answeringWorld) ++ map line (map fst blocks))%list /\
      inbound answeringWorld = (List.concat (map snd blocks) ++ inbound w')%list /\
      (snd r = None -> remaining = []).
Proof.
  destruct (telnetCommandLoop (demoJob "huawei" "telnet") huaweiPrompts surveyCommands
              "banner" answeringWorld) as [[r w']|] eqn:Hrun;
    [|vm_compute in Hrun; discriminate].
  exists r, w'. split; [reflexivity|]. split.
  - vm_compute in Hrun. injection Hrun as <- _. reflexivity.
  - exact (command_loop_transcript _ _ _ _ _ _ _ (or_introl Hrun)).
Defined.

Lemma command_loop_stops_only_by_cancellation_or_write_witness :
  exists out e w',
    sshCommandLoop (demoJob "huawei" "ssh") huaweiPrompts huaweiCommands "banner"
                   brokenPipeWorld = Some ((out, Some e), w') /\
    ((e = ctx_Canceled /\ isDone w' = true) \/
     (sshCommandLoop (demoJob "huawei" "ssh") huaweiPrompts huaweiCommands "banner"
                     brokenPipeWorld = Some ((out, Some e), w') /\
      exists cmd e0 pre,
        In cmd (effective huaweiCommands) /\
        e = fmt_Errorf "write cmd %q: %w" [ArgStr cmd; ArgErr e0] /\
        trace w' = (pre ++ [EvSend (line cmd) (Some e0)])%list)).
Proof.
  destruct (sshCommandLoop (demoJob "huawei" "ssh") huaweiPrompts huaweiCommands "banner"
              brokenPipeWorld) as [[[out [e|]] w']|] eqn:Hrun;
    [ | vm_compute in Hrun; discriminate | vm_compute in Hrun; discriminate].
  exists out, e, w'. split; [reflexivity|].
  destruct (command_loop_stops_only_by_cancellation_or_write _ _ _ _ _ _ _ _
              (or_intror Hrun)) as [Hc|[_ Hw]].
  - left. exact Hc.
  - right. split; [reflexivity | exact Hw].
Defined.

Lemma writeAtomic_all_or_nothing_witness :
  exists w',
    writeAtomic "out/sw.txt" "transcript" quietWorld = Some (None, w') /\
    trace w' = [EvCreateTemp "out/sw.txt"; EvRename "out/sw.txt" "transcript"].
Proof.
  destruct (writeAtomic "out/sw.txt" "transcript" quietWorld) as [[[e|] w']|] eqn:Hrun;
    [vm_compute in Hrun; discriminate | | vm_compute in Hrun; discriminate].
  exists w'. split; [reflexivity|].
  destruct (writeAtomic_all_or_nothing _ _ _ _ _ Hrun) as (evs & Ht & Hok & _).
  rewrite Ht, (Hok eq_refl). reflexivity.
Defined.

Lemma job_writes_after_session_witness :
  exists w',
    runJob (demoJob "huawei" "telnet") telnetBrokenWorld = Some (None, w') /\
    exists session files,
      trace w' = (trace telnetBrokenWorld ++ session ++ files)%list /\
      Forall (fun e => sessionEvent e = true) session /\
      Forall (fun e => fileEvent e = true) files /\
      (@None error = None ->
         exists out,
           files = [EvCreateTemp (transcriptPath (demoJob "huawei" "telnet") (now w'));
                    EvRename (transcriptPath (demoJob "huawei" "telnet") (now w')) out]).
Proof.
  destruct (runJob (demoJob "huawei" "telnet") telnetBrokenWorld)
    as [[[e|] w']|] eqn:Hrun;
    [vm_compute in Hrun; discriminate | | vm_compute in Hrun; discriminate].
  exists w'. split; [reflexivity|].
  exact (job_writes_after_session _ _ _ _ Hrun).
Defined.

Lemma worker_reports_each_job_once_witness :
  (exists u w',
     worker 4 0 2 [demoJob "huawei" "telnet"; demoJob "cisco" "ssh"] telnetBrokenWorld
       = Some (u, w') /\
     exists evs ran,
       trace w' = (trace telnetBrokenWorld ++ evs)%list /\
       map reportedJob (filter outcomeEvent evs) = map jobAttrs ran /\
       (([demoJob "huawei" "telnet"; demoJob "cisco" "ssh"] = ran) \/
        exists dropped untaken pre,
          [demoJob "huawei" "telnet"; demoJob "cisco" "ssh"]
            = (ran ++ dropped :: untaken)%list /\
          isDone w' = true /\
          evs = (pre ++ [EvLog LevelWarn "worker cancelado"
                                [("worker_id", VInt 0)]])%list /\
          match rev pre with
          | [] => ran = []
          | e :: _ => outcomeEvent e = true
          end)) /\
  worker 4 0 2 [demoJob "huawei" "telnet"; demoJob "cisco" "ssh"] cancelledWorld
    = Some (tt, mkWorld 5 (Some 3) [] (fun _ => None) 0 okSetup okFs
                        [EvLog LevelWarn "worker cancelado" [("worker_id", VInt 0)]]).
Proof.
  split; [|reflexivity].
  destruct (worker 4 0 2 [demoJob "huawei" "telnet"; demoJob "cisco" "ssh"]
              telnetBrokenWorld) as [[u w']|] eqn:Hrun; [|vm_compute in Hrun; discriminate].
  exists u, w'. split; [reflexivity|].
  exact (worker_reports_each_job_once _ _ _ _ _ _ _ Hrun).
Defined.
